(** * The data-preparation pipeline of [js/data-loader.js]

    A shallow embedding of the [DataLoader] class: the CSV parser, schema
    inference, the filter engine, [prepareMatrices] (encoding, scaling,
    seeded split) and the loader state they mutate, followed by the
    properties the specification states about them.

    Conventions of the embedding.
    - A JavaScript number is an IEEE-754 binary64 value, rendered as
      [spec_float] with the operations of [SpecFloat] at precision 53 and
      maximal exponent 1024: the very functions the primitive floats are
      specified by.  NaN carries no payload; both zeros are kept.
    - A JavaScript string is rendered as the [string] of the bytes of its
      UTF-8 encoding, the encoding of the source text.  Comparing,
      concatenating and splitting at a comma or a line feed act on the bytes
      as they act on the code units.  [trim] strips the white space and the
      line terminators of ECMAScript, the ones of two and three bytes
      included.  Letter case is folded for the letters A to Z; the only
      use made of it is the comparison with the texts true and false, which
      no other character folds to.
    - [undefined] is [None]; a value that may be undefined has an [option]
      type.
    - An object whose property order is observed ([Object.keys],
      [Object.entries]) is an association list in property order, with one
      entry per key; an object used as a plain table is a [gmap].  The
      rows of the parser receive their keys in header order, whatever the
      names: there the assignment is [JsObj.assign], which lists array
      indices first and creates no property for the name [__proto__].  The
      other objects are filled in the order of the keys of an object, so
      for them insertion order is property order.  The filter object is
      read through its prototype chain ([entryOf]).
    - An engine raises a RangeError when a spread call such as
      [Math.min(...arr)] passes more arguments than it allows; the bound
      differs from engine to engine.  [Math_min] and [Math_max] give the
      value of the call when it returns.
    - The seed of the shuffle and the state of its generator are integers
      ([Z]); what is computed from them is computed on doubles. *)

From Stdlib Require Import ZArith List String Ascii Bool Lia Permutation.
From Stdlib Require Import SpecFloat Sorted.
From stdpp Require Import base option list gmap strings.

Set Default Proof Using "Type".

(** ** Numbers *)

Module JsNum.

Definition prec : Z := 53.
Definition emax : Z := 1024.

Abbreviation number := spec_float.

Definition NaN : number := S754_nan.
Definition Infinity : number := S754_infinity false.
Definition zero : number := S754_zero false.

(** An integer as a number (rounded to nearest even beyond 2^53). *)
Definition ofZ (z : Z) : number := binary_normalize prec emax z 0 false.

Definition one : number := Eval vm_compute in ofZ 1.

Definition add : number -> number -> number := SFadd prec emax.
Definition sub : number -> number -> number := SFsub prec emax.
Definition mul : number -> number -> number := SFmul prec emax.
Definition div : number -> number -> number := SFdiv prec emax.
Definition Math_sqrt : number -> number := SFsqrt prec emax.

(** [x < y] and [x > y]; false as soon as one side is NaN. *)
Definition lt (x y : number) : bool := SFltb x y.
Definition gt (x y : number) : bool := SFltb y x.

Definition is_nan (x : number) : bool :=
  match x with S754_nan => true | _ => false end.

Definition is_zero (x : number) : bool :=
  match x with S754_zero _ => true | _ => false end.

(** [Number.isFinite] on a number. *)
Definition Number_isFinite (x : number) : bool :=
  match x with
  | S754_zero _ | S754_finite _ _ _ => true
  | S754_infinity _ | S754_nan => false
  end.

(** ToBoolean: the falsy numbers are +0, -0 and NaN. *)
Definition truthy (x : number) : bool := negb (is_zero x || is_nan x).

(** [x || y] on numbers. *)
Definition or_else (x y : number) : number := if truthy x then x else y.

(** [Math.min] and [Math.max] of two arguments: NaN is contagious and
    -0 is below +0. *)
Definition min2 (a b : number) : number :=
  match SFcompare a b with
  | None => NaN
  | Some Lt => a
  | Some Gt => b
  | Some Eq => match a with S754_zero true => a | _ => b end
  end.

Definition max2 (a b : number) : number :=
  match SFcompare a b with
  | None => NaN
  | Some Lt => b
  | Some Gt => a
  | Some Eq => match a with S754_zero false => a | _ => b end
  end.

(** The value of [Math.min(...l)] and of [Math.max(...l)]; on no argument
    they are +Infinity and -Infinity.  Past the number of arguments an
    engine allows, the spread call raises a RangeError instead: that bound
    belongs to the engine, not to the language, and is left out. *)
Definition Math_min (l : list number) : number :=
  fold_left min2 l (S754_infinity false).
Definition Math_max (l : list number) : number :=
  fold_left max2 l (S754_infinity true).

(** [Math.floor x] read as an integer, the way [slice] and index
    arithmetic consume it: NaN counts as 0 and an infinity as an integer
    beyond every array length. *)
Definition Math_floor (x : number) : Z :=
  match x with
  | S754_zero _ | S754_nan => 0
  | S754_infinity s => if s then - 2 ^ 1024 else 2 ^ 1024
  | S754_finite s m e =>
      let z := if s then Z.neg m else Z.pos m in
      if (0 <=? e)%Z then z * 2 ^ e else z / 2 ^ (- e)
  end%Z.

(** The integer that an integral number holds. *)
Definition integerOf (x : number) : Z := Math_floor x.

End JsNum.

Export JsNum (number).

(** ** Strings *)

Module JsStr.

(** The WhiteSpace and LineTerminator code points of one byte: TAB, LF,
    VT, FF, CR and SP. *)
Definition is_ws (c : ascii) : bool :=
  let n := nat_of_ascii c in
  Nat.eqb n 9 || Nat.eqb n 10 || Nat.eqb n 11 || Nat.eqb n 12
  || Nat.eqb n 13 || Nat.eqb n 32.

(** The one of two bytes: U+00A0, the no-break space. *)
Definition is_ws2 (c d : ascii) : bool :=
  Nat.eqb (nat_of_ascii c) 194 && Nat.eqb (nat_of_ascii d) 160.

(** Those of three bytes: U+1680, U+2000 to U+200A, U+2028, U+2029,
    U+202F, U+205F, U+3000 and U+FEFF. *)
Definition is_ws3 (c d e : ascii) : bool :=
  let a := nat_of_ascii c in
  let b := nat_of_ascii d in
  let n := nat_of_ascii e in
  Nat.eqb a 225 && Nat.eqb b 154 && Nat.eqb n 128
  || Nat.eqb a 226 && Nat.eqb b 128
     && (Nat.leb 128 n && Nat.leb n 138
         || Nat.eqb n 168 || Nat.eqb n 169 || Nat.eqb n 175)
  || Nat.eqb a 226 && Nat.eqb b 129 && Nat.eqb n 159
  || Nat.eqb a 227 && Nat.eqb b 128 && Nat.eqb n 128
  || Nat.eqb a 239 && Nat.eqb b 187 && Nat.eqb n 191.

Definition LF : ascii := "010"%char.
Definition CR : ascii := "013"%char.

(** [s.trimStart()] *)
Fixpoint trimStart (s : string) : string :=
  match s with
  | EmptyString => EmptyString
  | String c s1 =>
      if is_ws c then trimStart s1
      else
        match s1 with
        | EmptyString => s
        | String d s2 =>
            if is_ws2 c d then trimStart s2
            else
              match s2 with
              | EmptyString => s
              | String e s3 => if is_ws3 c d e then trimStart s3 else s
              end
        end
  end.

(** Whether [s] is white space throughout. *)
Definition all_ws (s : string) : bool :=
  match trimStart s with EmptyString => true | String _ _ => false end.

(** [s.trimEnd()]: the text up to where nothing but white space follows. *)
Fixpoint trimEnd (s : string) : string :=
  match s with
  | EmptyString => EmptyString
  | String c s' => if all_ws s then EmptyString else String c (trimEnd s')
  end.

(** [s.trim()] *)
Definition trim (s : string) : string := trimEnd (trimStart s).

(** Puts a character in front of the first piece of a split. *)
Definition push_front (c : ascii) (l : list string) : list string :=
  match l with
  | [] => [String c EmptyString]
  | p :: ps => String c p :: ps
  end.

(** [s.split(sep)] for a one-character separator. *)
Fixpoint split (sep : ascii) (s : string) : list string :=
  match s with
  | EmptyString => [EmptyString]
  | String c s' =>
      if Ascii.eqb c sep then EmptyString :: split sep s'
      else push_front c (split sep s')
  end.

(** [s.split(/\r?\n/)]: a piece ends at a line feed, and a carriage
    return right before that line feed belongs to the separator. *)
Fixpoint split_lines (s : string) : list string :=
  match s with
  | EmptyString => [EmptyString]
  | String c rest =>
      if Ascii.eqb c LF then EmptyString :: split_lines rest
      else
        match rest with
        | String d rest' =>
            if Ascii.eqb c CR && Ascii.eqb d LF
            then EmptyString :: split_lines rest'
            else push_front c (split_lines rest)
        | EmptyString => push_front c (split_lines rest)
        end
  end.

Definition lower_char (c : ascii) : ascii :=
  let n := nat_of_ascii c in
  if Nat.leb 65 n && Nat.leb n 90 then ascii_of_nat (n + 32) else c.

(** [s.toLowerCase()], on the letters A to Z. *)
Fixpoint toLowerCase (s : string) : string :=
  match s with
  | EmptyString => EmptyString
  | String c s' => String (lower_char c) (toLowerCase s')
  end.

(** [String(v)] for a value that is a string or undefined. *)
Definition String_ (v : option string) : string :=
  match v with
  | Some s => s
  | None => "undefined"
  end.

End JsStr.

(** ** [Number(v)] on strings: StringToNumber *)

Module JsParse.
Import JsNum JsStr.
Local Open Scope Z_scope.

Definition digit (base : Z) (c : ascii) : option Z :=
  let n := Z.of_nat (nat_of_ascii c) in
  let v := if (48 <=? n) && (n <=? 57) then n - 48
           else if (97 <=? n) && (n <=? 102) then n - 87
           else if (65 <=? n) && (n <=? 70) then n - 55
           else base in
  if v <? base then Some v else None.

(** The longest prefix of digits: its value on top of [acc], how many
    digits were read, and what follows them. *)
Fixpoint digits (base acc : Z) (n : nat) (l : list ascii)
  : Z * nat * list ascii :=
  match l with
  | c :: l' =>
      match digit base c with
      | Some d => digits base (acc * base + d) (S n) l'
      | None => (acc, n, l)
      end
  | [] => (acc, n, l)
  end.

(** The number nearest to [m * 10^e10], ties to even. *)
Definition decimalValue (neg : bool) (m e10 : Z) : number :=
  match m with
  | Z0 => S754_zero neg
  | Zpos p =>
      if 0 <=? e10
      then binary_normalize prec emax
             ((if neg then Z.neg p else Z.pos p) * 10 ^ e10) 0 false
      else div (S754_finite neg p 0)
               (S754_finite false (Z.to_pos (10 ^ (- e10))) 0)
  | Zneg _ => NaN
  end.

Definition signed (l : list ascii) : bool * list ascii :=
  match l with
  | "+"%char :: t => (false, t)
  | "-"%char :: t => (true, t)
  | _ => (false, l)
  end.

(** ExponentPart, or nothing, up to the end of the literal. *)
Definition exponentPart (l : list ascii) : option Z :=
  match l with
  | [] => Some 0
  | c :: l1 =>
      if Ascii.eqb c "e" || Ascii.eqb c "E" then
        let '(neg, l2) := signed l1 in
        match digits 10 0 0 l2 with
        | (e, S _, []) => Some (if neg then - e else e)
        | _ => None
        end
      else None
  end.

Definition Infinity_lit : list ascii := list_ascii_of_string "Infinity".

(** StrUnsignedDecimalLiteral *)
Definition strUnsignedDecimal (neg : bool) (l : list ascii) : number :=
  if bool_decide (l = Infinity_lit) then S754_infinity neg
  else
    let '(ip, ni, l1) := digits 10 0 0 l in
    let '(m, nf, l2) :=
      match l1 with
      | "."%char :: t => digits 10 ip 0 t
      | _ => (ip, 0%nat, l1)
      end in
    if Nat.eqb (ni + nf) 0 then NaN
    else match exponentPart l2 with
         | Some e => decimalValue neg m (e - Z.of_nat nf)
         | None => NaN
         end.

(** NonDecimalIntegerLiteral: the digits after [0x], [0o] or [0b]. *)
Definition nonDecimal (base : Z) (l : list ascii) : number :=
  match digits base 0 0 l with
  | (v, S _, []) => ofZ v
  | _ => NaN
  end.

(** [Number(s)] *)
Definition Number (s : string) : number :=
  match list_ascii_of_string (trim s) with
  | [] => zero
  | "0"%char :: p :: t =>
      if Ascii.eqb p "x" || Ascii.eqb p "X" then nonDecimal 16 t
      else if Ascii.eqb p "o" || Ascii.eqb p "O" then nonDecimal 8 t
      else if Ascii.eqb p "b" || Ascii.eqb p "B" then nonDecimal 2 t
      else strUnsignedDecimal false ("0"%char :: p :: t)
  | l => let '(neg, t) := signed l in strUnsignedDecimal neg t
  end.

(** [Number(v)] for a value that is a string or undefined. *)
Definition Number_ (v : option string) : number :=
  match v with
  | Some s => Number s
  | None => NaN
  end.

End JsParse.

(** ** Objects and arrays *)

(** An object in property order. *)
Module JsObj.

(** Whether [k] is an array index, and which one: the decimal numeral,
    without a leading zero, of an integer from 0 to 2^32 - 2. *)
Definition arrayIndex (k : string) : option Z :=
  match list_ascii_of_string k with
  | [] => None
  | c :: l =>
      match JsParse.digits 10 0 0 (c :: l) with
      | (n, _, []) =>
          if Ascii.eqb c "0" && negb (Nat.eqb (length l) 0) then None
          else if (n <=? 4294967294)%Z then Some n else None
      | _ => None
      end
  end.

(** The names an object created by [{}] inherits from [Object.prototype]:
    functions, and under [__proto__] the prototype itself. *)
Definition prototypeNames : list string :=
  ["constructor"; "hasOwnProperty"; "isPrototypeOf"; "propertyIsEnumerable";
   "toLocaleString"; "toString"; "valueOf"; "__proto__";
   "__defineGetter__"; "__defineSetter__"; "__lookupGetter__";
   "__lookupSetter__"]%string.

Section Obj.
Context {V : Type}.

Definition obj : Type := list (string * V).

(** [o[k]] *)
Fixpoint get (k : string) (o : obj) : option V :=
  match o with
  | [] => None
  | (k', v) :: o' => if String.eqb k k' then Some v else get k o'
  end.

(** [o[k] = v] for keys that arrive in property order: an existing
    property keeps its place, a new one goes last. *)
Fixpoint set (k : string) (v : V) (o : obj) : obj :=
  match o with
  | [] => [(k, v)]
  | (k', v') :: o' =>
      if String.eqb k k' then (k, v) :: o' else (k', v') :: set k v o'
  end.

(** [Object.keys(o)] *)
Definition keys (o : obj) : list string := map fst o.

(** [k in o] *)
Definition has (k : string) (o : obj) : bool :=
  match get k o with Some _ => true | None => false end.

(** [o[k] = v] for a key that [o] lacks and that is the array index [n]:
    the engine lists the array indices first, in ascending order. *)
Fixpoint insertIndex (n : Z) (k : string) (v : V) (o : obj) : obj :=
  match o with
  | [] => [(k, v)]
  | (k', v') :: o' =>
      match arrayIndex k' with
      | Some n' =>
          if (n' <? n)%Z then (k', v') :: insertIndex n k v o'
          else (k, v) :: o
      | None => (k, v) :: o
      end
  end.

(** [o[k] = v] on an object created by [{}], for any key and a value [v]
    that is not an object.  Under the name [__proto__] the assignment
    reaches the setter of [Object.prototype], which ignores such a value:
    no property is created.  An array index is listed before the other
    keys; any other new key goes last; an existing one keeps its place. *)
Definition assign (k : string) (v : V) (o : obj) : obj :=
  if String.eqb k "__proto__" then o
  else
    match arrayIndex k with
    | Some n => if has k o then set k v o else insertIndex n k v o
    | None => set k v o
    end.
End Obj.
Arguments obj V : clear implicits.
End JsObj.

Module JsArr.

(** [new Set(l)], then spread: the distinct elements by first occurrence. *)
Definition Set_of (l : list string) : list string :=
  fold_left (fun acc x => if bool_decide (x ∈ acc) then acc else acc ++ [x])
            l [].

(** [l.slice(start, end)]; [fin = None] when the end is left out.  A
    negative position counts from the end of the list. *)
Definition slice {A : Type} (l : list A) (start : Z) (fin : option Z)
  : list A :=
  let len := Z.of_nat (length l) in
  let rel (z : Z) := if (z <? 0)%Z then Z.max (len + z) 0 else Z.min z len in
  let k := rel start in
  let e := match fin with Some z => rel z | None => len end in
  take (Z.to_nat (e - k)) (drop (Z.to_nat k) l).

(** An array of integers as the shuffle sees it: the elements, each an
    integer or undefined, and the properties written under negative
    indices, which are not elements. *)
Record intarray : Type := {
  elems : list (option Z);
  props : gmap Z (option Z)
}.

(** [a[z]] *)
Definition aget (a : intarray) (z : Z) : option Z :=
  if (0 <=? z)%Z then default None (elems a !! Z.to_nat z)
  else default None (props a !! z).

(** [l[n] = v] on the elements: past the end the array grows, and the
    places in between read as undefined. *)
Definition write {A : Type} (n : nat) (v : option A) (l : list (option A))
  : list (option A) :=
  if Nat.ltb n (length l) then <[n := v]> l
  else l ++ replicate (n - length l) None ++ [v].

(** [a[z] = v] *)
Definition aset (a : intarray) (z : Z) (v : option Z) : intarray :=
  if (0 <=? z)%Z
  then {| elems := write (Z.to_nat z) v (elems a); props := props a |}
  else {| elems := elems a; props := <[z := v]> (props a) |}.

(** [[...Array(n).keys()]] *)
Definition range (n : nat) : intarray :=
  {| elems := map (fun i => Some (Z.of_nat i)) (seq 0 n); props := ∅ |}.

End JsArr.

(** ** Outcomes of a call *)

Inductive exn : Type :=
| Error (msg : string)   (* [throw new Error(msg)] of the loader itself *)
| TypeError              (* raised by the engine: a property of [null] *)
| Raised (tag : nat).    (* whatever a callback of the caller throws *)

Inductive result (A : Type) : Type :=
| Ok (a : A)
| Throw (e : exn).
Arguments Ok {A} a.
Arguments Throw {A} e.

Definition throws {A : Type} (r : result A) : bool :=
  match r with Ok _ => false | Throw _ => true end.

(** ** The loader *)

Module DataLoader.
Import JsNum JsStr JsParse JsArr.

Inductive ftype : Type := numeric | boolean | categorical.

Definition ftype_eqb (a b : ftype) : bool :=
  match a, b with
  | numeric, numeric | boolean, boolean | categorical, categorical => true
  | _, _ => false
  end.

(** [f.stats] of a numeric feature. *)
Record FeatureStats : Type := {
  fs_min : number; fs_max : number; fs_mean : number; fs_std : number;
  fs_count : nat
}.

(** A feature descriptor [{ name, type, stats, values }]. *)
Record Feature : Type := {
  name : string;
  type : ftype;
  stats : option FeatureStats;
  values : option (list string)
}.

Record Schema : Type := {
  features : JsObj.obj Feature;
  target : string
}.

(** A parsed row: column name to cell text. *)
Definition Row : Type := JsObj.obj string.

(** [this.scalers.stats[c]] *)
Record ColStats : Type := {
  st_min : number; st_max : number; st_mean : number; st_std : number
}.

(** [this.scalers] once fitted: [{ type, stats }], the statistics keyed by
    encoded column index. *)
Record Scalers : Type := {
  sc_type : string;
  sc_stats : gmap nat ColStats
}.

Record Split : Type := {
  idxTrain : list (option Z);
  idxVal : list (option Z);
  idxTest : list (option Z)
}.

(** The fields of a [DataLoader].  [raw], [schema], [X] and [y] start as
    [null] and [scalers] as the empty object, all three rendered [None]. *)
Record state : Type := {
  raw : option (list Row);
  schema : option Schema;
  encoders : gmap string (list string);
  scalers : option Scalers;
  X : option (list (list number));
  y : option (list (list number));
  split : Split
}.

(** The state the constructor leaves. *)
Definition init : state :=
  {| raw := None; schema := None; encoders := ∅; scalers := None;
     X := None; y := None;
     split := {| idxTrain := []; idxVal := []; idxTest := [] |} |}.

(** What the loader passes to its two callbacks. *)
Inductive LogMsg : Type :=
| LogLoading
| LogSampling (subsetSize : Z) (rows : nat)
| LogLoaded (rows : nat)
| LogSchema (nFeatures : nat) (target : string)
| LogPrepared (nRows nCols nTrain nVal nTest : nat).

Inductive Status : Type := StatusLoading | StatusLoaded.

(** [logFn] and [statusFn]: code of the caller, which may throw. *)
Record Callbacks : Type := {
  log : LogMsg -> result unit;
  setStatus : Status -> result unit
}.

(** Callbacks that always return. *)
Definition quiet : Callbacks :=
  {| log := fun _ => Ok tt; setStatus := fun _ => Ok tt |}.

(** *** A method body: the state threaded through, an exception ending it *)

Definition M (A : Type) : Type := state -> state * result A.

Definition ret {A : Type} (a : A) : M A := fun st => (st, Ok a).
Definition raise {A : Type} (e : exn) : M A := fun st => (st, Throw e).
Definition bind {A B : Type} (c : M A) (k : A -> M B) : M B :=
  fun st => match c st with
            | (st', Ok a) => k a st'
            | (st', Throw e) => (st', Throw e)
            end.
Definition read {A : Type} (f : state -> A) : M A := fun st => (st, Ok (f st)).
Definition update (f : state -> state) : M unit := fun st => (f st, Ok tt).
Definition call {A : Type} (r : result A) : M A := fun st => (st, r).

Notation "x <- c ;; k" := (bind c (fun x => k))
  (at level 100, c at next level, right associativity).
Notation "c ;;; k" := (bind c (fun _ => k))
  (at level 100, right associativity).

Definition set_raw (v : option (list Row)) (st : state) : state :=
  {| raw := v; schema := schema st; encoders := encoders st;
     scalers := scalers st; X := X st; y := y st; split := split st |}.
Definition set_schema (v : option Schema) (st : state) : state :=
  {| raw := raw st; schema := v; encoders := encoders st;
     scalers := scalers st; X := X st; y := y st; split := split st |}.
Definition set_encoders (v : gmap string (list string)) (st : state) : state :=
  {| raw := raw st; schema := schema st; encoders := v;
     scalers := scalers st; X := X st; y := y st; split := split st |}.
Definition set_scalers (v : option Scalers) (st : state) : state :=
  {| raw := raw st; schema := schema st; encoders := encoders st;
     scalers := v; X := X st; y := y st; split := split st |}.
Definition set_Xy (vx vy : option (list (list number))) (st : state) : state :=
  {| raw := raw st; schema := schema st; encoders := encoders st;
     scalers := scalers st; X := vx; y := vy; split := split st |}.
Definition set_split (v : Split) (st : state) : state :=
  {| raw := raw st; schema := schema st; encoders := encoders st;
     scalers := scalers st; X := X st; y := y st; split := v |}.

(** *** [#parseCSV] *)

(** [cells[i] === undefined ? '' : cells[i]] *)
Definition cellAt (cells : list string) (i : nat) : string :=
  match cells !! i with Some c => c | None => EmptyString end.

Definition parseLine (headers : list string) (line : string) : Row :=
  let cells := map trim (JsStr.split "," line) in
  fold_left (fun obj '(i, h) => JsObj.assign h (cellAt cells i) obj)
            (combine (seq 0 (length headers)) headers) [].

Definition parseCSV (text : string) : list Row :=
  match split_lines (trim text) with
  | headerLine :: lines =>
      let headers := map trim (JsStr.split "," headerLine) in
      map (parseLine headers) lines
  | [] => []   (* a split has at least one piece *)
  end.

(** *** [#toNumberMaybe] *)

Definition toNumberMaybe (v : option string) : number :=
  match v with
  | None => NaN
  | Some s =>
      if String.eqb s "" then NaN
      else let n := Number s in if Number_isFinite n then n else NaN
  end.

(** *** [#shuffle] and [#sampleArray] *)

Definition multiplier : Z := 16807.
Definition modulus : Z := 2147483647.

(** The generator state after one call of [rnd].  The product
    [s * 16807] is a double, rounded beyond 2^53; it holds an integer, so
    its remainder is exact and the state stays an integer.  [%] takes the
    sign of the dividend.  (A product that overflows the doubles would
    leave NaN as the state; that takes a seed beyond 10^303 and is not
    covered.) *)
Definition next (s : Z) : Z :=
  Z.rem (integerOf (mul (ofZ s) (ofZ multiplier))) modulus.

(** [Math.floor(rnd() * (i + 1))] for the state [s] that [rnd] has just
    stored: the quotient [s / 2147483647] and the product are doubles. *)
Definition pick (s : Z) (i : nat) : Z :=
  Math_floor (mul (div (ofZ s) (ofZ modulus)) (ofZ (Z.of_nat (i + 1)))).

(** [[a[i], a[j]] = [a[j], a[i]]]: both reads come first. *)
Definition swap (a : intarray) (i j : Z) : intarray :=
  let x := aget a j in
  let y := aget a i in
  aset (aset a i x) j y.

(** The loop of [#shuffle] from index [i] down to 1. *)
Fixpoint shuffle_from (i : nat) (s : Z) (a : intarray) : intarray :=
  match i with
  | O => a
  | S i' =>
      let s' := next s in
      shuffle_from i' s' (swap a (Z.of_nat i) (pick s' i))
  end.

Definition shuffle (a : intarray) (seed : Z) : intarray :=
  shuffle_from (length (elems a) - 1) seed a.

(** [chosen.map(i => arr[i])]; an index that is undefined or out of range
    selects nothing here (from a seed that is not negative there is none,
    see [sampleArray_length]). *)
Definition sampleArray {A : Type} (arr : list A) (n : Z) (seed : Z) : list A :=
  let idx := shuffle (range (length arr)) seed in
  let chosen := slice (elems idx) 0 (Some (Z.min n (Z.of_nat (length arr)))) in
  flat_map (fun i => match i with
                     | Some z => if (0 <=? z)%Z then option_list (arr !! Z.to_nat z) else []
                     | None => []
                     end) chosen.

(** *** [#inferSchema] *)

Definition targetName : string := "accident_risk".

Definition knownCategoricals : list string :=
  ["road_type"; "lighting"; "weather"; "time_of_day";
   "road_signs_present"; "public_road"; "holiday"; "school_season"]%string.

Definition knownNumeric : list string :=
  ["num_lanes"; "curvature"; "speed_limit"; "num_reported_accidents"]%string.

(** [set.has(k)] for a set given by its elements. *)
Definition has (l : list string) (k : string) : bool := bool_decide (k ∈ l).

(** The literals [0.9], [0.7] and [0.15] as the doubles they denote. *)
Definition lit_0_9 : number := Eval vm_compute in Number "0.9".
Definition lit_0_7 : number := Eval vm_compute in Number "0.7".
Definition lit_0_15 : number := Eval vm_compute in Number "0.15".

(** [this.raw.slice(0, Math.min(5000, this.raw.length)).map(r => r[col])] *)
Definition sampleVals (rows : list Row) (col : string) : list (option string) :=
  map (JsObj.get col) (take (Nat.min 5000 (length rows)) rows).

Definition numericRatio (vals : list (option string)) : number :=
  div (ofZ (Z.of_nat (length (List.filter
                                (fun v => Number_isFinite (Number_ v)) vals))))
      (ofZ (Z.of_nat (length vals))).

Definition uniqOf (vals : list (option string)) : list string :=
  Set_of (map String_ vals).

(** The "quick sniff" of a column in neither name list, entered with the
    type chosen so far. *)
Definition sniff (rows : list Row) (col : string) (type0 : ftype) : ftype :=
  let vals := sampleVals rows col in
  let type1 := if gt (numericRatio vals) lit_0_9 then numeric else type0 in
  if Nat.leb (length (uniqOf vals)) 10 then categorical else type1.

(** The type the first loop of [#inferSchema] gives a column. *)
Definition columnType (rows : list Row) (col : string) : ftype :=
  let type0 := numeric in
  let type1 := if has knownCategoricals col then categorical else type0 in
  let type2 := if has knownNumeric col then numeric else type1 in
  if negb (has knownCategoricals col) && negb (has knownNumeric col)
  then sniff rows col type2
  else type2.

Definition sumSq (mean : number) (l : list number) : number :=
  fold_left (fun s v => add s (mul (sub v mean) (sub v mean))) l zero.

Definition numericStats (rows : list Row) (k : string) : FeatureStats :=
  let arr := List.filter Number_isFinite
               (map (fun r => toNumberMaybe (JsObj.get k r)) rows) in
  let len := Z.of_nat (length arr) in
  let mean := or_else (div (fold_left add arr zero) (ofZ len)) zero in
  let std := Math_sqrt (div (sumSq mean arr) (ofZ (Z.max 1 (len - 1)))) in
  {| fs_min := Math_min arr; fs_max := Math_max arr; fs_mean := mean;
     fs_std := std; fs_count := length arr |}.

Definition is_true_false (v : string) : bool :=
  String.eqb v "true" || String.eqb v "false".

(** [f.values] as first collected: the distinct cell texts of the column,
    the empty one and ["undefined"] left out. *)
Definition observedValues (rows : list Row) (k : string) : list string :=
  List.filter (fun v => negb (String.eqb v "") && negb (String.eqb v "undefined"))
              (Set_of (map (fun r => String_ (JsObj.get k r)) rows)).

(** One turn of the second loop of [#inferSchema]. *)
Definition complete (rows : list Row) (k : string) (f : Feature) : Feature :=
  match type f with
  | numeric =>
      {| name := name f; type := type f;
         stats := Some (numericStats rows k); values := values f |}
  | _ =>
      let vals := observedValues rows k in
      if forallb is_true_false (map toLowerCase vals)
      then {| name := name f; type := boolean; stats := stats f;
              values := Some ["True"; "False"]%string |}
      else {| name := name f; type := type f; stats := stats f;
              values := Some vals |}
  end.

Definition firstPass (rows : list Row) (cols : list string) : JsObj.obj Feature :=
  fold_left (fun fs col =>
               JsObj.set col {| name := col; type := columnType rows col;
                                stats := None; values := None |} fs)
            cols [].

Definition dquote : string := String "034"%char EmptyString.

Definition targetMissing : string :=
  String.append "Target "
    (String.append dquote
       (String.append targetName
          (String.append dquote " not found in CSV."))).

Definition inferSchema (cb : Callbacks) : M unit :=
  rows <- read raw ;;
  match rows with
  | None => raise TypeError
  | Some [] => raise (Error targetMissing)
  | Some (r0 :: rest) =>
      if negb (JsObj.has targetName r0) then raise (Error targetMissing)
      else
        let rows := r0 :: rest in
        let cols := List.filter (fun k => negb (String.eqb k targetName))
                                (JsObj.keys r0) in
        let feats := map (fun '(k, f) => (k, complete rows k f))
                         (firstPass rows cols) in
        update (set_schema (Some {| features := feats; target := targetName |})) ;;;
        call (log cb (LogSchema (length feats) targetName))
  end.

(** *** [loadCSV]; [fetched] is what the fetch of the path yields: the
    text, or the failure of the request. *)
Definition loadCSV (cb : Callbacks) (fetched : result string)
           (useSubset : bool) (subsetSize : Z) : M unit :=
  call (setStatus cb StatusLoading) ;;;
  call (log cb LogLoading) ;;;
  text <- call fetched ;;
  let rows := parseCSV text in
  update (set_raw (Some rows)) ;;;
  (if useSubset && (subsetSize <? Z.of_nat (length rows))%Z
   then call (log cb (LogSampling subsetSize (length rows))) ;;;
        update (set_raw (Some (sampleArray rows subsetSize 2024)))
   else ret tt) ;;;
  rows' <- read raw ;;
  call (log cb (LogLoaded (length (default [] rows')))) ;;;
  inferSchema cb ;;;
  call (setStatus cb StatusLoaded).

(** *** [indicesByFilters] *)

(** A filter entry; a field the entry lacks is undefined. *)
Record Filter : Type := {
  f_min : option number;
  f_max : option number;
  f_mode : option string;
  f_set : option (gset string)
}.

(** The test one feature applies to a row's cell [v], negated: [true]
    where the source leaves [ok] alone. *)
Definition passes (f : Feature) (flt : Filter) (v : option string) : bool :=
  match type f with
  | numeric =>
      let n := toNumberMaybe v in
      if negb (Number_isFinite n) then false
      else negb (match f_min flt with Some lo => lt n lo | None => false end
                 || match f_max flt with Some hi => gt n hi | None => false end)
  | boolean =>
      negb (negb (bool_decide (f_mode flt = Some "any"%string))
            && negb (bool_decide (Some (String_ v) = f_mode flt)))
  | categorical =>
      match f_set flt with
      | Some s => negb (Nat.ltb 0 (size s) && negb (bool_decide (String_ v ∈ s)))
      | None => true
      end
  end.

(** What the lookup [filters[k]] finds on the prototype of a filter object
    that has no entry of its own under [k]: a member of [Object.prototype],
    which is truthy and has none of the four fields. *)
Definition inheritedEntry : Filter :=
  {| f_min := None; f_max := None; f_mode := None; f_set := None |}.

(** [filters[k]] for a filter object created by [{}], given by its own
    entries: the lookup goes on to the prototype when there is none. *)
Definition entryOf (filters : gmap string Filter) (k : string) : option Filter :=
  match filters !! k with
  | Some flt => Some flt
  | None =>
      if bool_decide (k ∈ JsObj.prototypeNames) then Some inheritedEntry
      else None
  end.

(** The inner loop: every feature with an entry must pass. *)
Definition rowPasses (feats : JsObj.obj Feature) (filters : gmap string Filter)
           (r : Row) : bool :=
  forallb (fun '(k, f) =>
             match entryOf filters k with
             | Some flt => passes f flt (JsObj.get k r)
             | None => true
             end) feats.

Definition filterIndices (feats : JsObj.obj Feature)
           (filters : gmap string Filter) (rows : list Row) : list nat :=
  fold_left (fun idx '(i, r) =>
               if rowPasses feats filters r then idx ++ [i] else idx)
            (combine (seq 0 (length rows)) rows) [].

Definition indicesByFilters
           (readFilterFn : option Schema -> result (gmap string Filter))
  : M (list nat) :=
  sch <- read schema ;;
  filters <- call (readFilterFn sch) ;;
  rows <- read raw ;;
  match rows, sch with
  | None, _ => raise TypeError
  | Some rows, Some sch => ret (filterIndices (features sch) filters rows)
  | Some [], None => ret []
  | Some (_ :: _), None => raise TypeError
  end.

(** *** [prepareMatrices] *)

(** The first loop: the encoder table and the flat feature names. *)
Definition buildEncoders (feats : JsObj.obj Feature)
  : gmap string (list string) * list string :=
  fold_left (fun '(enc, featNames) '(k, f) =>
               match type f with
               | numeric => (enc, featNames ++ [k])
               | boolean => (enc, featNames ++ [k])
               | categorical =>
                   let cats := default [] (values f) in
                   (<[k := cats]> enc,
                    featNames ++ map (fun c => String.append k (String.append "__" c)) cats)
               end)
            feats (∅, []).

Definition indicator (b : bool) : number := if b then one else zero.

(** What one turn of the second loop pushes on the row of [r]. *)
Definition encodeFeature (enc : gmap string (list string)) (r : Row)
           (kf : string * Feature) : list number :=
  let '(k, f) := kf in
  match type f with
  | numeric => [toNumberMaybe (JsObj.get k r)]
  | boolean => [indicator (String.eqb (String_ (JsObj.get k r)) "True")]
  | categorical =>
      let cats := default [] (enc !! k) in
      map (fun v => indicator (String.eqb (String_ (JsObj.get k r)) v)) cats
  end.

(** The second loop, for one row [r]. *)
Definition encodeRow (enc : gmap string (list string))
           (feats : JsObj.obj Feature) (r : Row) : list number :=
  fold_left (fun row kf => row ++ encodeFeature enc r kf) feats [].

(** The walk that collects [numericColIdx]: the indices found so far and
    the column pointer. *)
Definition walk (enc : gmap string (list string)) (feats : JsObj.obj Feature)
  : list nat * nat :=
  fold_left (fun '(idx, colPointer) '(k, f) =>
               match type f with
               | numeric | boolean => (idx ++ [colPointer], colPointer + 1)
               | categorical =>
                   (idx, colPointer + length (default [] (enc !! k)))
               end)
            feats ([], 0).

Definition numericColIdx (enc : gmap string (list string))
           (feats : JsObj.obj Feature) : list nat :=
  fst (walk enc feats).

(** The finite values of column [c]; a row too short for [c] yields
    undefined, which is not finite. *)
Definition finiteColumn (Xmat : list (list number)) (c : nat) : list number :=
  List.filter Number_isFinite (omap (fun r => r !! c) Xmat).

Definition fitColumn (Xmat : list (list number)) (c : nat) : ColStats :=
  let col := finiteColumn Xmat c in
  let len := Z.of_nat (length col) in
  let mean := div (fold_left add col zero) (ofZ (Z.max 1 len)) in
  let std := Math_sqrt (div (sumSq mean col) (ofZ (Z.max 1 (len - 1)))) in
  {| st_min := Math_min col; st_max := Math_max col;
     st_mean := mean; st_std := std |}.

Definition fitScalers (Xmat : list (list number)) (cols : list nat)
  : gmap nat ColStats :=
  fold_left (fun stats c => <[c := fitColumn Xmat c]> stats) cols ∅.

(** [row[c] = v].  Past the end of the row the source would leave holes;
    they are rendered NaN (no such write happens, see [scaled_cells]). *)
Definition rowset (c : nat) (v : number) (row : list number) : list number :=
  if Nat.ltb c (length row) then <[c := v]> row
  else row ++ replicate (c - length row) NaN ++ [v].

(** What a finite cell [v] of a column with statistics [st] becomes. *)
Definition scaleValue (scalerType : string) (st : ColStats) (v : number) : number :=
  if String.eqb scalerType "minmax"
  then let d := or_else (sub (st_max st) (st_min st)) one in
       div (sub v (st_min st)) d
  else let d := or_else (st_std st) one in
       div (sub v (st_mean st)) d.

(** One turn of the inner loop of "apply scaling", on the cell of column
    [c].  The table holds an entry for every column it is asked about (it
    was filled from the same list, see [fitScalers_lookup]), so the branch
    without statistics is never taken. *)
Definition scaleCell (scalerType : string) (stats : gmap nat ColStats)
           (row : list number) (c : nat) : list number :=
  match row !! c with
  | Some v =>
      if negb (Number_isFinite v) then rowset c zero row
      else match stats !! c with
           | Some st => rowset c (scaleValue scalerType st v) row
           | None => row
           end
  | None => rowset c zero row
  end.

Definition scaleRow (scalerType : string) (stats : gmap nat ColStats)
           (cols : list nat) (row : list number) : list number :=
  fold_left (scaleCell scalerType stats) cols row.

Definition nTrainOf (nRows : nat) : Z :=
  Math_floor (mul (ofZ (Z.of_nat nRows)) lit_0_7).
Definition nValOf (nRows : nat) : Z :=
  Math_floor (mul (ofZ (Z.of_nat nRows)) lit_0_15).

(** The random split of [nRows] row indices. *)
Definition makeSplit (nRows : nat) (seed : Z) : Split :=
  let idx := elems (shuffle (range nRows) seed) in
  let nTrain := nTrainOf nRows in
  let nVal := nValOf nRows in
  {| idxTrain := slice idx 0 (Some nTrain);
     idxVal := slice idx nTrain (Some (nTrain + nVal)%Z);
     idxTest := slice idx (nTrain + nVal)%Z None |}.

(** The encoded matrix before scaling, and the target vector. *)
Definition encodeAll (enc : gmap string (list string)) (sch : Schema)
           (rows : list Row) : list (list number) :=
  map (encodeRow enc (features sch)) rows.

Definition targets (sch : Schema) (rows : list Row) : list (list number) :=
  map (fun r => [Number_ (JsObj.get (target sch) r)]) rows.

Definition scaleAll (scalerType : string) (cols : list nat)
           (Xmat : list (list number)) : list (list number) :=
  map (scaleRow scalerType (fitScalers Xmat cols) cols) Xmat.

(** [(Xmat[0] || []).length] *)
Definition widthOf (Xmat : list (list number)) : nat :=
  match Xmat with r :: _ => length r | [] => 0 end.

Definition prepareMatrices (cb : Callbacks) (scalerType : string) (seed : Z)
  : M (list string) :=
  update (set_encoders ∅) ;;;
  sch <- read schema ;;
  match sch with
  | None => raise TypeError
  | Some sch =>
      let '(enc, featNames) := buildEncoders (features sch) in
      update (set_encoders enc) ;;;
      rows <- read raw ;;
      match rows with
      | None => raise TypeError
      | Some rows =>
          let X0 := encodeAll enc sch rows in
          let cols := numericColIdx enc (features sch) in
          update (set_scalers (Some {| sc_type := scalerType;
                                       sc_stats := fitScalers X0 cols |})) ;;;
          let Xmat := scaleAll scalerType cols X0 in
          let nRows := length Xmat in
          update (set_Xy (Some Xmat) (Some (targets sch rows))) ;;;
          let sp := makeSplit nRows seed in
          update (set_split sp) ;;;
          call (log cb (LogPrepared nRows (widthOf Xmat) (length (idxTrain sp))
                                    (length (idxVal sp)) (length (idxTest sp)))) ;;;
          ret featNames
      end
  end.

(** *** Vocabulary of the properties *)

(** The test [indicesByFilters] applies to the row at an index. *)
Definition keeps (feats : JsObj.obj Feature) (filters : gmap string Filter)
           (ir : nat * Row) : bool :=
  rowPasses feats filters (snd ir).

(** The header names and the record lines, as [#parseCSV] destructures
    the split of the trimmed text. *)
Definition headersOf (text : string) : list string :=
  match split_lines (trim text) with
  | headerLine :: _ => map trim (JsStr.split "," headerLine)
  | [] => []
  end.

Definition recordLines (text : string) : list string :=
  match split_lines (trim text) with
  | _ :: lines => lines
  | [] => []
  end.

Definition cellsOf (line : string) : list string :=
  map trim (JsStr.split "," line).

(** The number of line feeds of a text. *)
Fixpoint countLF (s : string) : nat :=
  match s with
  | EmptyString => 0
  | String c s' => (if Ascii.eqb c LF then 1 else 0) + countLF s'
  end.

(** The number of lines of a text: one more than the line breaks left
    once the surrounding whitespace (a final line break included) is
    stripped. *)
Definition lineCount (text : string) : nat := S (countLF (trim text)).

(** The encoder table holds, for each categorical feature, the category
    list of that feature. *)
Definition agrees (enc : gmap string (list string))
           (feats : JsObj.obj Feature) : Prop :=
  ∀ k f, (k, f) ∈ feats → type f = categorical →
         default [] (enc !! k) = default [] (values f).

(** The state [prepareMatrices] leaves once it has reached its last
    statement, the call of the logger. *)
Definition preparedState (scalerType : string) (seed : Z) (st : state)
           (sch : Schema) (rows : list Row) : state :=
  let enc := fst (buildEncoders (features sch)) in
  let X0 := encodeAll enc sch rows in
  let cols := numericColIdx enc (features sch) in
  {| raw := raw st; schema := schema st; encoders := enc;
     scalers := Some {| sc_type := scalerType; sc_stats := fitScalers X0 cols |};
     X := Some (scaleAll scalerType cols X0);
     y := Some (targets sch rows);
     split := makeSplit (length rows) seed |}.

(** What it passes to the logger there. *)
Definition preparedMsg (scalerType : string) (seed : Z)
           (sch : Schema) (rows : list Row) : LogMsg :=
  let enc := fst (buildEncoders (features sch)) in
  let Xmat := scaleAll scalerType (numericColIdx enc (features sch))
                       (encodeAll enc sch rows) in
  let sp := makeSplit (length rows) seed in
  LogPrepared (length rows) (widthOf Xmat) (length (idxTrain sp))
              (length (idxVal sp)) (length (idxTest sp)).

(** The columns schema inference goes through: the keys of the first
    row, the target left out. *)
Definition inferredColumns (rows : list Row) : list string :=
  match rows with
  | r0 :: _ => List.filter (fun k => negb (String.eqb k targetName)) (JsObj.keys r0)
  | [] => []
  end.

(** The feature table [#inferSchema] builds from the rows. *)
Definition inferredFeatures (rows : list Row) : JsObj.obj Feature :=
  map (fun '(k, f) => (k, complete rows k f))
      (firstPass rows (inferredColumns rows)).

(** What scaling makes of a cell [v] of a column with statistics [st]. *)
Definition rescaled (scalerType : string) (st : ColStats) (v : number) : number :=
  if Number_isFinite v then scaleValue scalerType st v else zero.

(** Classes of numbers: not NaN; finite; zero, positive or +Infinity. *)
Definition notNaN (x : number) : Prop := is_nan x = false.

Definition finite (v : number) : Prop := Number_isFinite v = true.

Definition nonneg (x : number) : Prop :=
  match x with
  | S754_zero _ | S754_finite false _ _ | S754_infinity false => True
  | _ => False
  end.

(** The types of feature whose column is scaled. *)
Definition scaledKind (t : ftype) : Prop := t = numeric ∨ t = boolean.

(** The cell in row [i] and column [c] of a matrix. *)
Definition cell (M : list (list number)) (i c : nat) : option number :=
  M !! i ≫= (.!! c).

(** The number of encoded columns of a feature. *)
Definition widthOfFeature (f : Feature) : nat :=
  match type f with
  | numeric | boolean => 1
  | categorical => length (default [] (values f))
  end.

(** For each encoded column, in order, the type of the feature it comes
    from. *)
Definition columnKinds (feats : JsObj.obj Feature) : list ftype :=
  flat_map (fun '(_, f) => replicate (widthOfFeature f) (type f)) feats.

Definition totalWidth (feats : JsObj.obj Feature) : nat :=
  list_sum (map (fun '(_, f) => widthOfFeature f) feats).

(** *** The scenario of the specification: two rows, one categorical and
    three numeric columns *)

Definition sampleText : string :=
  "road_type,num_lanes,curvature,speed_limit,accident_risk" +:+ String LF ""
  +:+ "urban,2,0.1,50,0.2" +:+ String LF ""
  +:+ "rural,1,0.9,90,0.8" +:+ String LF "".

Definition sampleRows : list Row := Eval vm_compute in parseCSV sampleText.

Definition loaded : state := fst (loadCSV quiet (Ok sampleText) false 0 init).

Definition sampleFeatures : JsObj.obj Feature :=
  Eval vm_compute in
    match schema loaded with Some sch => features sch | None => [] end.

Definition sampleSchema : Schema :=
  {| features := sampleFeatures; target := targetName |}.

(** A second text: a flag column in lower case, a column of an unlisted
    name, and a record whose target cell is empty. *)
Definition flagText : string :=
  "holiday,night,accident_risk" +:+ String LF ""
  +:+ "true,yes,0.1" +:+ String LF ""
  +:+ "false,no," +:+ String LF "".

Definition flagRows : list Row := Eval vm_compute in parseCSV flagText.

(** A third text: the same flags under a name of the numeric list. *)
Definition lanesText : string :=
  "num_lanes,accident_risk" +:+ String LF ""
  +:+ "true,0.1" +:+ String LF ""
  +:+ "false,0.2" +:+ String LF "".

Definition lanesRows : list Row := Eval vm_compute in parseCSV lanesText.

(** A filter on the road type. *)
Definition urbanOnly : Filter :=
  {| f_min := None; f_max := None; f_mode := None;
     f_set := Some {["urban"%string]} |}.

(** The scenario prepared with min-max scaling and seed 1. *)
Definition prepared : state := fst (prepareMatrices quiet "minmax" 1 loaded).

(** Callbacks whose logger throws. *)
Definition failingLog : Callbacks :=
  {| log := fun _ => Throw (Raised 0); setStatus := fun _ => Ok tt |}.

(** The second text, loaded. *)
Definition flagLoaded : state := fst (loadCSV quiet (Ok flagText) false 0 init).

(** *** [getTensors] *)

(** [field[i]] for a field that is an array or still [null], at an index
    that is an integer or undefined: outside the array the read gives
    undefined, and on [null] it raises. *)
Definition rowAt {A : Type} (field : option (list A)) (i : option Z)
  : result (option A) :=
  match field with
  | None => Throw TypeError
  | Some l =>
      Ok (match i with
          | Some z => if (0 <=? z)%Z then l !! Z.to_nat z else None
          | None => None
          end)
  end.

(** [l.map(f)] for a callback that may throw: the first exception ends the
    map. *)
Fixpoint mapR {A B : Type} (f : A -> result B) (l : list A) : result (list B) :=
  match l with
  | [] => Ok []
  | x :: l' =>
      match f x with
      | Throw e => Throw e
      | Ok b =>
          match mapR f l' with
          | Throw e => Throw e
          | Ok bs => Ok (b :: bs)
          end
      end
  end.

(** [{ X, y }]: a row is undefined where the index selects none. *)
Record Tensors : Type := {
  t_X : list (option (list number));
  t_y : list (option (list number))
}.

Definition partOf (part : string) (sp : Split) : list (option Z) :=
  if String.eqb part "train" then idxTrain sp
  else if String.eqb part "val" then idxVal sp
  else idxTest sp.

Definition getTensors (part : string) : M Tensors :=
  sp <- read split ;;
  let idxs := partOf part sp in
  Xf <- read X ;;
  Xs <- call (mapR (rowAt Xf) idxs) ;;
  yf <- read y ;;
  ys <- call (mapR (rowAt yf) idxs) ;;
  ret {| t_X := Xs; t_y := ys |}.

(** *** [getFilteredTest] *)

(** The test of one feature in the loop of [getFilteredTest], [true] where
    the source leaves [ok] alone. *)
Definition passesTest (f : Feature) (flt : Filter) (v : option string) : bool :=
  match type f with
  | numeric =>
      let n := toNumberMaybe v in
      negb (negb (Number_isFinite n)
            || match f_min flt with Some lo => lt n lo | None => false end
            || match f_max flt with Some hi => gt n hi | None => false end)
  | boolean =>
      negb (negb (bool_decide (f_mode flt = Some "any"%string))
            && negb (bool_decide (Some (String_ v) = f_mode flt)))
  | categorical =>
      match f_set flt with
      | Some s => negb (Nat.ltb 0 (size s) && negb (bool_decide (String_ v ∈ s)))
      | None => true
      end
  end.

(** One turn of the outer loop, for the test index [i]: whether [i] is
    pushed.  [this.raw[i]] raises on a [null] table, [this.schema.features]
    on a [null] schema, and [r[k]], read for the first feature, on a row
    that is undefined. *)
Definition testRow (rows : option (list Row)) (sch : option Schema)
           (filters : gmap string Filter) (i : option Z) : result bool :=
  match rowAt rows i with
  | Throw e => Throw e
  | Ok r =>
      match sch with
      | None => Throw TypeError
      | Some sch =>
          match features sch, r with
          | [], _ => Ok true
          | _ :: _, None => Throw TypeError
          | feats, Some r =>
              Ok (forallb (fun '(k, f) =>
                             match entryOf filters k with
                             | Some flt => passesTest f flt (JsObj.get k r)
                             | None => true
                             end) feats)
          end
      end
  end.

(** The outer loop: the test indices that pass, in order. *)
Fixpoint filterTest (rows : option (list Row)) (sch : option Schema)
         (filters : gmap string Filter) (idxAll : list (option Z))
  : result (list (option Z)) :=
  match idxAll with
  | [] => Ok []
  | i :: rest =>
      match testRow rows sch filters i with
      | Throw e => Throw e
      | Ok ok =>
          match filterTest rows sch filters rest with
          | Throw e => Throw e
          | Ok pass => Ok (if ok then i :: pass else pass)
          end
      end
  end.

(** [{ X, y, n }] *)
Record Filtered : Type := {
  ft_X : list (option (list number));
  ft_y : list (option (list number));
  ft_n : nat
}.

Definition getFilteredTest
           (readFilterFn : option Schema -> result (gmap string Filter))
  : M Filtered :=
  sp <- read split ;;
  let idxAll := idxTest sp in
  sch <- read schema ;;
  filters <- call (readFilterFn sch) ;;
  rows <- read raw ;;
  pass <- call (filterTest rows sch filters idxAll) ;;
  Xf <- read X ;;
  Xs <- call (mapR (rowAt Xf) pass) ;;
  yf <- read y ;;
  ys <- call (mapR (rowAt yf) pass) ;;
  ret {| ft_X := Xs; ft_y := ys; ft_n := length pass |}.

End DataLoader.

Import JsNum JsStr JsParse JsArr DataLoader.

(** ** The page script, [js/app.js]: the functions that feed the loader
    and consume what it returns *)

Module App.

(** *** [parseFloat] *)

(** The ExponentPart a literal goes on with, when [l] starts with a whole
    one; otherwise the literal ends before [l] and the exponent is 0. *)
Definition exponentPrefix (l : list ascii) : Z :=
  match l with
  | c :: l1 =>
      if Ascii.eqb c "e" || Ascii.eqb c "E" then
        let '(neg, l2) := signed l1 in
        match digits 10 0 0 l2 with
        | (e, S _, _) => if neg then (- e)%Z else e
        | _ => 0%Z
        end
      else 0%Z
  | [] => 0%Z
  end.

(** [parseFloat(s)]: leading whitespace is skipped and the longest prefix
    that is a StrDecimalLiteral is read; NaN when there is none. *)
Definition parseFloat (s : string) : number :=
  let '(neg, t) := signed (list_ascii_of_string (trimStart s)) in
  if bool_decide (Infinity_lit `prefix_of` t) then S754_infinity neg
  else
    let '(ip, ni, l1) := digits 10 0 0 t in
    let '(m, nf, l2) :=
      match l1 with
      | "."%char :: t' => digits 10 ip 0 t'
      | _ => (ip, 0, l1)
      end in
    if Nat.eqb (ni + nf) 0 then NaN
    else decimalValue neg m (exponentPrefix l2 - Z.of_nat nf).

(** *** [readFeatureFilters] *)

(** What the script reads of an element: its [value] and the values of its
    [selectedOptions], each undefined where the element has no such
    property. *)
Record Element : Type := {
  value : option string;
  selectedOptions : option (list string)
}.

(** [document.getElementById]: [None] where the page has no such element. *)
Definition Document : Type := string -> option Element.

(** The entry [filters[k]] the loop stores for the feature [f] under [k]. *)
Definition entryFor (doc : Document) (k : string) (f : Feature) : Filter :=
  match type f with
  | numeric =>
      let minEl := doc ("min_" +:+ k) in
      let maxEl := doc ("max_" +:+ k) in
      let min := parseFloat (default "-Infinity"%string (minEl ≫= value)) in
      let max := parseFloat (default "Infinity"%string (maxEl ≫= value)) in
      {| f_min := Some (if Number_isFinite min then min else S754_infinity true);
         f_max := Some (if Number_isFinite max then max else S754_infinity false);
         f_mode := None; f_set := None |}
  | boolean =>
      let sel := doc ("sel_" +:+ k) in
      {| f_min := None; f_max := None;
         f_mode := Some (match sel ≫= value with
                         | Some v => if String.eqb v "" then "any"%string else v
                         | None => "any"%string
                         end);
         f_set := None |}
  | categorical =>
      let sel := doc ("sel_" +:+ k) in
      {| f_min := None; f_max := None; f_mode := None;
         f_set := Some (list_to_set (default [] (sel ≫= selectedOptions))) |}
  end.

Definition readFeatureFilters (doc : Document) (schema : option Schema)
  : result (gmap string Filter) :=
  match schema with
  | None => Throw TypeError
  | Some sch =>
      Ok (fold_left (fun filters '(k, f) => <[k := entryFor doc k f]> filters)
                    (features sch) ∅)
  end.

(** A page whose filter controls are missing or left blank: no text in
    an input, nothing chosen in a select. *)
Definition blank (doc : Document) : Prop :=
  ∀ id el, doc id = Some el →
    (value el = None ∨ value el = Some ""%string) ∧
    (selectedOptions el = None ∨ selectedOptions el = Some []).

(** *** [computeMetrics] *)

(** [Math.abs] *)
Definition Math_abs (x : number) : number := SFabs x.

(** [x >= y]; false as soon as one side is NaN. *)
Definition ge (x y : number) : bool := SFleb y x.

Record Metrics : Type := {
  rmse : number;
  mae : number;
  r2 : number;
  acc : option number;
  resid : list number
}.

(** The variables of the second loop. *)
Record Sums : Type := {
  s_resid : list number;
  sse : number;
  sae : number;
  sst : number;
  correct : nat
}.

(** One turn of the second loop, at index [i] with [t = yTrue[i]].  An
    index past the end of [yPred] reads undefined, which counts as NaN in
    the subtraction and in the comparison. *)
Definition turn (yPred : list number) (mode : string) (thr mean : number)
           (a : Sums) (it : nat * number) : Sums :=
  let '(i, t) := it in
  let p := default NaN (yPred !! i) in
  let e := sub p t in
  {| s_resid := s_resid a ++ [e];
     sse := add (sse a) (mul e e);
     sae := add (sae a) (Math_abs e);
     sst := add (sst a) (mul (sub t mean) (sub t mean));
     correct := if String.eqb mode "bin"
                then if Bool.eqb (ge p thr) (ge t thr)
                     then S (correct a) else correct a
                else correct a |}.

Definition computeMetrics (yTrue yPred : list number) (mode : string)
           (thr : number) : Metrics :=
  let n := Z.of_nat (length yTrue) in
  let mean := div (fold_left add yTrue zero) (ofZ (Z.max 1 n)) in
  let a := fold_left (turn yPred mode thr mean)
                     (combine (seq 0 (length yTrue)) yTrue)
                     {| s_resid := []; sse := zero; sae := zero; sst := zero;
                        correct := 0 |} in
  {| rmse := Math_sqrt (div (sse a) (ofZ (Z.max 1 n)));
     mae := div (sae a) (ofZ (Z.max 1 n));
     r2 := sub one (div (sse a) (Math_max [one; sst a]));
     acc := if String.eqb mode "bin"
            then Some (div (ofZ (Z.of_nat (correct a))) (ofZ (Z.max 1 n)))
            else None;
     resid := s_resid a |}.

(** *** [flatten1] *)

(** [arr2d.map(x => x[0])]: reading [x[0]] raises on an entry that is
    undefined, and gives undefined on an empty row. *)
Definition flatten1 (arr2d : list (option (list number)))
  : result (list (option number)) :=
  mapR (fun x => match x with
                 | None => Throw TypeError
                 | Some row => Ok (row !! 0)
                 end) arr2d.

End App.

(** ** A further text: a flag column written with capitals *)

Definition holidayText : string :=
  "holiday,accident_risk" +:+ String LF ""
  +:+ "True,0.7" +:+ String LF ""
  +:+ "False,0.1" +:+ String LF "".

Definition holidayRows : list Row := Eval vm_compute in parseCSV holidayText.

Definition holidayLoaded : state :=
  fst (loadCSV quiet (Ok holidayText) false 0 init).

(** ** Further texts *)


(** A header whose names are array indices, out of order. *)
Definition indexText : string :=
  "b,10,accident_risk,9" +:+ String LF ""
  +:+ "x,y,0.5,z" +:+ String LF "".




(** Eleven records with three columns of names in neither list: eleven
    distinct numbers under [speed], two distinct numbers under [axles],
    eleven distinct words under [driver]. *)
Definition speedText : string :=
  "speed,axles,driver,accident_risk" +:+ String LF ""
  +:+ "10,2,ann,0.1" +:+ String LF ""
  +:+ "20,3,bob,0.2" +:+ String LF ""
  +:+ "30,2,cat,0.3" +:+ String LF ""
  +:+ "40,3,dan,0.4" +:+ String LF ""
  +:+ "50,2,eve,0.5" +:+ String LF ""
  +:+ "60,3,fay,0.6" +:+ String LF ""
  +:+ "70,2,gus,0.7" +:+ String LF ""
  +:+ "80,3,hal,0.8" +:+ String LF ""
  +:+ "90,2,ida,0.9" +:+ String LF ""
  +:+ "100,3,jon,0.95" +:+ String LF ""
  +:+ "110,2,kim,1" +:+ String LF "".

Definition speedRows : list Row := Eval vm_compute in parseCSV speedText.

Definition speedLoaded : state := fst (loadCSV quiet (Ok speedText) false 0 init).

(** A filter that keeps the rows with two axles. *)
Definition twoAxles : Filter :=
  {| f_min := None; f_max := None; f_mode := None;
     f_set := Some {["2"%string]} |}.

(** A numeric column with an empty cell in the second of three records. *)
Definition gapText : string :=
  "speed_limit,accident_risk" +:+ String LF ""
  +:+ "50,0.2" +:+ String LF ""
  +:+ ",0.4" +:+ String LF ""
  +:+ "70,0.6" +:+ String LF "".

Definition gapRows : list Row := Eval vm_compute in parseCSV gapText.

Definition gapLoaded : state := fst (loadCSV quiet (Ok gapText) false 0 init).

(** * Properties *)

(** ** Objects *)

Section ObjFacts.
Context {V : Type}.
Implicit Types (o : JsObj.obj V) (k : string) (v : V).

Lemma get_set_eq o k v : JsObj.get k (JsObj.set k v o) = Some v.
Proof.
  induction o as [|[k' v'] o IH]; simpl.
  - by rewrite String.eqb_refl.
  - destruct (String.eqb k k') eqn:E; simpl.
    + by rewrite String.eqb_refl.
    + by rewrite E.
Qed.

Lemma get_set_ne o k k' v :
  k ≠ k' → JsObj.get k (JsObj.set k' v o) = JsObj.get k o.
Proof.
  intros Hne. induction o as [|[k2 v2] o IH]; simpl.
  - destruct (String.eqb_spec k k'); congruence.
  - destruct (String.eqb_spec k' k2) as [->|Hk]; simpl.
    + destruct (String.eqb_spec k k2); congruence.
    + destruct (String.eqb_spec k k2); congruence.
Qed.

Lemma get_None_keys o k : JsObj.get k o = None ↔ k ∉ JsObj.keys o.
Proof.
  induction o as [|[k' v'] o IH]; simpl.
  - split; [intros _; apply not_elem_of_nil | done].
  - rewrite not_elem_of_cons. destruct (String.eqb_spec k k') as [->|Hk].
    + split; [done | intros [? _]; done].
    + rewrite IH. tauto.
Qed.

Lemma keys_set o k v :
  JsObj.keys (JsObj.set k v o)
  = if JsObj.has k o then JsObj.keys o else JsObj.keys o ++ [k].
Proof.
  unfold JsObj.has. induction o as [|[k' v'] o IH]; simpl; [done|].
  destruct (String.eqb_spec k k') as [->|Hk]; simpl; [done|].
  rewrite IH. by destruct (JsObj.get k o).
Qed.

Lemma elem_of_keys_set o k k' v :
  k ∈ JsObj.keys (JsObj.set k' v o) ↔ k = k' ∨ k ∈ JsObj.keys o.
Proof.
  rewrite keys_set. unfold JsObj.has.
  destruct (JsObj.get k' o) eqn:E.
  - split; [tauto|]. intros [->|?]; [|done].
    destruct (decide (k' ∈ JsObj.keys o)) as [?|Hn]; [done|].
    apply get_None_keys in Hn. congruence.
  - rewrite elem_of_app, list_elem_of_singleton. tauto.
Qed.

Lemma NoDup_keys_set o k v :
  NoDup (JsObj.keys o) → NoDup (JsObj.keys (JsObj.set k v o)).
Proof.
  intros Hnd. rewrite keys_set. unfold JsObj.has.
  destruct (JsObj.get k o) eqn:E; [done|].
  apply NoDup_app. split_and!; [done| |apply NoDup_singleton].
  intros x Hx ->%list_elem_of_singleton.
  by apply get_None_keys in E.
Qed.
Lemma get_insertIndex_eq o n k v :
  k ∉ JsObj.keys o → JsObj.get k (JsObj.insertIndex n k v o) = Some v.
Proof.
  induction o as [|[k' v'] o IH]; intros Hk; simpl.
  - by rewrite String.eqb_refl.
  - apply not_elem_of_cons in Hk as [Hne Hk]. simpl in Hne.
    destruct (JsObj.arrayIndex k') as [n'|]; [destruct (n' <? n)%Z|]; simpl;
      rewrite ?String.eqb_refl; try done.
    rewrite (proj2 (String.eqb_neq _ _) Hne). by apply IH.
Qed.

Lemma get_insertIndex_ne o n k k0 v :
  k0 ≠ k → JsObj.get k0 (JsObj.insertIndex n k v o) = JsObj.get k0 o.
Proof.
  intros Hne. induction o as [|[k' v'] o IH]; simpl.
  - by rewrite (proj2 (String.eqb_neq _ _) Hne).
  - destruct (JsObj.arrayIndex k') as [n'|]; [destruct (n' <? n)%Z|]; simpl;
      rewrite ?(proj2 (String.eqb_neq _ _) Hne); try done.
    by rewrite IH.
Qed.

Lemma keys_insertIndex o n k v :
  JsObj.keys (JsObj.insertIndex n k v o) ≡ₚ k :: JsObj.keys o.
Proof.
  induction o as [|[k' v'] o IH]; simpl; [done|].
  destruct (JsObj.arrayIndex k') as [n'|]; [destruct (n' <? n)%Z|]; simpl;
    try done.
  fold (JsObj.keys (JsObj.insertIndex n k v o)). rewrite IH. apply Permutation_swap.
Qed.

Lemma keys_insertIndex_ext o o' n k v w :
  JsObj.keys o = JsObj.keys o' →
  JsObj.keys (JsObj.insertIndex n k v o) = JsObj.keys (JsObj.insertIndex n k w o').
Proof.
  revert o'. induction o as [|[k1 v1] o IH]; intros [|[k2 v2] o'] Hk;
    simplify_eq/=; [done|].
  destruct (JsObj.arrayIndex k2) as [n'|]; [destruct (n' <? n)%Z|]; simpl;
    f_equal; try by f_equal.
  by apply IH.
Qed.

Lemma has_keys o k : JsObj.has k o = bool_decide (k ∈ JsObj.keys o).
Proof.
  unfold JsObj.has. destruct (JsObj.get k o) eqn:E.
  - rewrite bool_decide_true; [done|].
    destruct (decide (k ∈ JsObj.keys o)) as [?|Hn]; [done|].
    apply get_None_keys in Hn. congruence.
  - rewrite bool_decide_false; [done|]. by apply get_None_keys.
Qed.

Lemma keys_set_ext o o' k v w :
  JsObj.keys o = JsObj.keys o' →
  JsObj.keys (JsObj.set k v o) = JsObj.keys (JsObj.set k w o').
Proof.
  revert o'. induction o as [|[k1 v1] o IH]; intros [|[k2 v2] o'] Hk;
    simplify_eq/=; [done|].
  destruct (String.eqb k k2); simpl; f_equal; try done. by apply IH.
Qed.

Lemma assign_proto o v : JsObj.assign "__proto__" v o = o.
Proof. done. Qed.

Lemma get_assign_eq o k v :
  k ≠ "__proto__"%string → JsObj.get k (JsObj.assign k v o) = Some v.
Proof.
  intros Hk. unfold JsObj.assign. rewrite (proj2 (String.eqb_neq _ _) Hk).
  destruct (JsObj.arrayIndex k) as [n|]; [|apply get_set_eq].
  rewrite has_keys. case_bool_decide as Hin; [apply get_set_eq|].
  by apply get_insertIndex_eq.
Qed.

Lemma get_assign_ne o k k' v :
  k ≠ k' → JsObj.get k (JsObj.assign k' v o) = JsObj.get k o.
Proof.
  intros Hne. unfold JsObj.assign. destruct (String.eqb k' "__proto__"); [done|].
  destruct (JsObj.arrayIndex k') as [n|]; [|by apply get_set_ne].
  destruct (JsObj.has k' o); [by apply get_set_ne|by apply get_insertIndex_ne].
Qed.

Lemma elem_of_keys_assign o k k' v :
  k ∈ JsObj.keys (JsObj.assign k' v o)
  ↔ (k = k' ∧ k' ≠ "__proto__"%string) ∨ k ∈ JsObj.keys o.
Proof.
  unfold JsObj.assign. destruct (String.eqb_spec k' "__proto__") as [->|Hp].
  { split; [by right|]. by intros [[_ ?]|?]. }
  assert (Hset : k ∈ JsObj.keys (JsObj.set k' v o) ↔ k = k' ∨ k ∈ JsObj.keys o)
    by apply elem_of_keys_set.
  destruct (JsObj.arrayIndex k') as [n|]; [|rewrite Hset; tauto].
  destruct (JsObj.has k' o); [rewrite Hset; tauto|].
  rewrite keys_insertIndex, elem_of_cons. tauto.
Qed.


Lemma keys_assign_ext o o' k v w :
  JsObj.keys o = JsObj.keys o' →
  JsObj.keys (JsObj.assign k v o) = JsObj.keys (JsObj.assign k w o').
Proof.
  intros Hk. unfold JsObj.assign. destruct (String.eqb k "__proto__"); [done|].
  destruct (JsObj.arrayIndex k) as [n|]; [|by apply keys_set_ext].
  rewrite !has_keys, Hk. case_bool_decide; [by apply keys_set_ext|].
  by apply keys_insertIndex_ext.
Qed.
End ObjFacts.

(** ** The parser *)

Lemma combine_snoc {A B : Type} (l1 : list A) (l2 : list B) a b :
  length l1 = length l2 →
  combine (l1 ++ [a]) (l2 ++ [b]) = combine l1 l2 ++ [(a, b)].
Proof.
  revert l2. induction l1 as [|x l1 IH]; intros [|y l2] Hlen;
    simplify_eq/=; [done|]. by rewrite IH.
Qed.

Lemma push_front_length c l : l ≠ [] → length (push_front c l) = length l.
Proof. by destruct l. Qed.

Lemma split_lines_cons c rest :
  split_lines (String c rest)
  = if Ascii.eqb c LF then EmptyString :: split_lines rest
    else match rest with
         | String d rest' =>
             if Ascii.eqb c CR && Ascii.eqb d LF
             then EmptyString :: split_lines rest'
             else push_front c (split_lines rest)
         | EmptyString => push_front c (split_lines rest)
         end.
Proof. done. Qed.

Lemma split_lines_length_bounded n s :
  String.length s ≤ n → length (split_lines s) = S (countLF s).
Proof.
  revert s. induction (lt_wf n) as [n _ IH]. intros [|c rest] Hn; [done|].
  rewrite split_lines_cons. cbn [countLF String.length] in *.
  destruct (Ascii.eqb c LF) eqn:Ec.
  { cbn [length]. rewrite (IH (String.length rest)); [done|lia|done]. }
  destruct rest as [|d rest'].
  { done. }
  destruct (Ascii.eqb c CR && Ascii.eqb d LF) eqn:E2.
  - apply andb_prop in E2 as [_ Ed]. cbn [countLF String.length length] in *.
    rewrite Ed. rewrite (IH (String.length rest')); [done|lia|done].
  - assert (Hrest : length (split_lines (String d rest'))
                    = S (countLF (String d rest'))).
    { apply (IH (String.length (String d rest'))); [lia|done]. }
    rewrite push_front_length; [by rewrite Hrest|].
    intros Hnil. by rewrite Hnil in Hrest.
Qed.

Lemma split_lines_length s : length (split_lines s) = S (countLF s).
Proof. by apply (split_lines_length_bounded (String.length s)). Qed.

Lemma parseCSV_unfold text :
  parseCSV text = map (parseLine (headersOf text)) (recordLines text).
Proof.
  unfold parseCSV, headersOf, recordLines.
  by destruct (split_lines (trim text)).
Qed.

Lemma recordLines_length text : length (recordLines text) = lineCount text - 1.
Proof.
  unfold recordLines, lineCount.
  pose proof (split_lines_length (trim text)) as Hlen.
  destruct (split_lines (trim text)); simpl in *; lia.
Qed.

Lemma parseLine_snoc hs h line :
  parseLine (hs ++ [h]) line
  = JsObj.assign h (cellAt (cellsOf line) (length hs)) (parseLine hs line).
Proof.
  unfold parseLine, cellsOf. rewrite length_app. cbn [length].
  rewrite seq_app. cbn [seq]. rewrite Nat.add_0_l.
  rewrite combine_snoc by (by rewrite length_seq).
  by rewrite fold_left_app.
Qed.

Lemma parseLine_keys hs line k :
  k ∈ JsObj.keys (parseLine hs line) ↔ k ∈ hs ∧ k ≠ "__proto__"%string.
Proof.
  induction hs as [|h hs IH] using rev_ind.
  - split; [intros H; inversion H | intros [H _]; inversion H].
  - rewrite parseLine_snoc, elem_of_keys_assign, IH, elem_of_app,
      list_elem_of_singleton.
    split.
    + intros [[Hk Hp]|[Hin Hp]]; [subst; tauto|tauto].
    + intros [[Hin|Hk] Hp]; [tauto|]. left. by subst.
Qed.



(** The keys of a parsed row, and their order, are those of every other
    row parsed under the same header. *)
Lemma parseLine_keys_same hs line line' :
  JsObj.keys (parseLine hs line) = JsObj.keys (parseLine hs line').
Proof.
  induction hs as [|h hs IH] using rev_ind; [done|].
  rewrite !parseLine_snoc. by apply keys_assign_ext.
Qed.


(** The keys of a row come in property order, the array indices first:
    the header [b,10,accident_risk,9] gives the keys 9, 10, b and the
    target. *)
Example index_headers_come_first :
  JsObj.keys <$> parseCSV indexText = [["9"; "10"; "b"; "accident_risk"]]%string.
Proof. by vm_compute. Qed.


Lemma slice_nil {A : Type} (a : Z) (b : option Z) : slice (@nil A) a b = [].
Proof. unfold slice. by rewrite drop_nil, take_nil. Qed.

Lemma sampleArray_nil {A : Type} (n seed : Z) : sampleArray (@nil A) n seed = [].
Proof.
  unfold sampleArray.
  change (elems (shuffle (range (length (@nil A))) seed)) with (@nil (option Z)).
  by rewrite slice_nil.
Qed.

(** C7, counterexample.  On the empty text the parser returns: its result
    is the empty row list, which [loadCSV] stores in [raw]; the exception
    that ends the load is the one schema inference throws for a missing
    target. *)
Lemma empty_text_is_parsed :
  parseCSV "" = [] ∧
  raw (fst (loadCSV quiet (Ok ""%string) false 0 init)) = Some [] ∧
  snd (loadCSV quiet (Ok ""%string) false 0 init) = Throw (Error targetMissing).
Proof. by vm_compute. Qed.

(** C7, as the code has it.  For the empty source text the parser returns
    the empty row list and raises nothing.  A load of that text, with
    callbacks that return, stores the empty list and then fails in schema
    inference, with the error that the target column was not found. *)
Theorem empty_text_fails_in_schema_inference
    (cb : Callbacks) (useSubset : bool) (subsetSize : Z) (st : state) :
  (∀ m, log cb m = Ok tt) →
  (∀ s, setStatus cb s = Ok tt) →
  parseCSV "" = [] ∧
  loadCSV cb (Ok ""%string) useSubset subsetSize st
  = (set_raw (Some []) st, Throw (Error targetMissing)).
Proof.
  intros Hlog Hstatus. split; [done|].
  unfold loadCSV, bind, call, update, read, ret.
  rewrite Hstatus, Hlog.
  change (parseCSV "") with (@nil Row).
  destruct (useSubset && (subsetSize <? Z.of_nat (length (@nil Row)))%Z);
    rewrite ?Hlog, ?sampleArray_nil; cbn; by rewrite ?Hlog.
Qed.

Lemma empty_text_fails_in_schema_inference_witness :
  parseCSV "" = [] ∧
  loadCSV quiet (Ok ""%string) true 50000 init
  = (set_raw (Some []) init, Throw (Error targetMissing)).
Proof.
  apply (empty_text_fails_in_schema_inference quiet true 50000 init);
    intros; reflexivity.
Defined.

(** ** Schema inference: the type of a column *)

Lemma firstPass_snoc rows cols col :
  firstPass rows (cols ++ [col])
  = JsObj.set col {| name := col; type := columnType rows col;
                     stats := None; values := None |} (firstPass rows cols).
Proof. unfold firstPass. by rewrite fold_left_app. Qed.

Lemma firstPass_get rows cols col :
  col ∈ cols →
  JsObj.get col (firstPass rows cols)
  = Some {| name := col; type := columnType rows col;
            stats := None; values := None |}.
Proof.
  induction cols as [|c cols IH] using rev_ind; intros Hin.
  { inversion Hin. }
  rewrite firstPass_snoc. destruct (decide (col = c)) as [->|Hne].
  - apply get_set_eq.
  - rewrite get_set_ne by done. apply IH.
    apply elem_of_app in Hin as [?|?%list_elem_of_singleton]; done.
Qed.

Lemma firstPass_keys rows cols k :
  k ∈ JsObj.keys (firstPass rows cols) ↔ k ∈ cols.
Proof.
  induction cols as [|c cols IH] using rev_ind.
  - split; intros H; inversion H.
  - rewrite firstPass_snoc, elem_of_keys_set, IH, elem_of_app,
      list_elem_of_singleton. tauto.
Qed.

Lemma firstPass_NoDup rows cols : NoDup (JsObj.keys (firstPass rows cols)).
Proof.
  induction cols as [|c cols IH] using rev_ind.
  - apply NoDup_nil_2.
  - rewrite firstPass_snoc. by apply NoDup_keys_set.
Qed.

Lemma Set_of_fold_subset (l acc : list string) x :
  x ∈ fold_left (fun acc x => if bool_decide (x ∈ acc) then acc else acc ++ [x])
                l acc →
  x ∈ acc ∨ x ∈ l.
Proof.
  revert acc. induction l as [|y l IH]; intros acc; simpl; [by left|].
  intros [Hacc|Hl]%IH.
  - destruct (bool_decide (y ∈ acc)); [by left|].
    apply elem_of_app in Hacc as [?|Hxy%list_elem_of_singleton];
      [by left|subst; right; by left].
  - right. by right.
Qed.

Lemma Set_of_subset (l : list string) x : x ∈ Set_of l → x ∈ l.
Proof.
  intros [Hnil|Hl]%Set_of_fold_subset; [inversion Hnil|done].
Qed.

Lemma Set_of_fold (l acc : list string) :
  NoDup acc →
  NoDup (fold_left (fun acc x => if bool_decide (x ∈ acc) then acc else acc ++ [x])
                   l acc) ∧
  ∀ x, x ∈ acc ∨ x ∈ l →
       x ∈ fold_left (fun acc x => if bool_decide (x ∈ acc) then acc else acc ++ [x])
                     l acc.
Proof.
  revert acc. induction l as [|y l IH]; intros acc Hnd; simpl.
  { split; [done|]. intros x [?|Hx]; [done|by apply elem_of_nil in Hx]. }
  destruct (bool_decide (y ∈ acc)) eqn:Hy.
  - apply bool_decide_eq_true in Hy. destruct (IH acc Hnd) as [H1 H2].
    split; [done|]. intros x [Hx|[->|Hx]%elem_of_cons]; apply H2; auto.
  - apply bool_decide_eq_false in Hy.
    assert (Hnd' : NoDup (acc ++ [y])).
    { apply NoDup_app. split_and!; [done| |apply NoDup_singleton].
      intros x Hx ->%list_elem_of_singleton. done. }
    destruct (IH _ Hnd') as [H1 H2]. split; [done|].
    intros x [Hx|[->|Hx]%elem_of_cons]; apply H2; rewrite ?elem_of_app;
      [by left; left|left; right; by left|by right].
Qed.

Lemma Set_of_NoDup l : NoDup (Set_of l).
Proof. apply Set_of_fold, NoDup_nil_2. Qed.

Lemma elem_of_Set_of l x : x ∈ Set_of l ↔ x ∈ l.
Proof.
  split; [apply Set_of_subset|]. intros Hx.
  apply Set_of_fold; [apply NoDup_nil_2|by right].
Qed.




(** The cases on texts.  Eleven distinct numbers: the fraction is 1 and
    the column is numeric.  Two distinct numbers over eleven rows: the
    fraction is 1 as well, and the column is categorical all the same.
    Two distinct words: the fraction is 0 and the column is categorical.
    Eleven distinct words: the fraction is 0, nothing overrides the type
    the column starts with, and it is numeric. *)
Example sniffed_columns :
  (gt (numericRatio (sampleVals speedRows "speed")) lit_0_9 = true ∧
   length (uniqOf (sampleVals speedRows "speed")) = 11 ∧
   columnType speedRows "speed" = numeric) ∧
  (gt (numericRatio (sampleVals speedRows "axles")) lit_0_9 = true ∧
   length (uniqOf (sampleVals speedRows "axles")) = 2 ∧
   columnType speedRows "axles" = categorical) ∧
  (gt (numericRatio (sampleVals flagRows "night")) lit_0_9 = false ∧
   length (uniqOf (sampleVals flagRows "night")) = 2 ∧
   columnType flagRows "night" = categorical) ∧
  (gt (numericRatio (sampleVals speedRows "driver")) lit_0_9 = false ∧
   length (uniqOf (sampleVals speedRows "driver")) = 11 ∧
   columnType speedRows "driver" = numeric).
Proof. by vm_compute. Qed.

(** ** The filter engine *)

Lemma filter_sublist_impl {A : Type} (p q : A → bool) (l : list A) :
  (∀ x, p x = true → q x = true) →
  sublist (List.filter p l) (List.filter q l).
Proof.
  intros Hpq. induction l as [|x l IH]; simpl; [done|].
  destruct (p x) eqn:Hp.
  - rewrite (Hpq x Hp). by apply sublist_skip.
  - destruct (q x); [by apply sublist_cons | done].
Qed.

Section Filters.
Variable feats : JsObj.obj Feature.
Implicit Types (filters : gmap string Filter) (rows : list Row).

Lemma filterIndices_fold filters (l : list (nat * Row)) (acc : list nat) :
  fold_left (fun idx '(i, r) =>
               if rowPasses feats filters r then idx ++ [i] else idx) l acc
  = acc ++ map fst (List.filter (keeps feats filters) l).
Proof.
  revert acc. induction l as [|[i r] l IH]; intros acc; simpl.
  - by rewrite app_nil_r.
  - rewrite IH. unfold keeps at 2. simpl.
    destruct (rowPasses feats filters r); simpl; [|done].
    by rewrite <-app_assoc.
Qed.

Lemma filterIndices_filter filters rows :
  filterIndices feats filters rows
  = map fst (List.filter (keeps feats filters) (combine (seq 0 (length rows)) rows)).
Proof. unfold filterIndices. by rewrite filterIndices_fold. Qed.

Lemma entryOf_own filters k flt :
  filters !! k = Some flt → entryOf filters k = Some flt.
Proof. intros H. unfold entryOf. by rewrite H. Qed.

Lemma entryOf_plain filters k :
  k ∉ JsObj.prototypeNames → entryOf filters k = filters !! k.
Proof.
  intros Hk. unfold entryOf. destruct (filters !! k); [done|].
  by rewrite bool_decide_false.
Qed.




Lemma map_fst_combine_seq rows :
  map fst (combine (seq 0 (length rows)) rows) = seq 0 (length rows).
Proof.
  generalize 0. induction rows as [|r rows IH]; intros n; simpl; [done|].
  by rewrite IH.
Qed.


End Filters.




(** On the two sample rows, an entry keeping only the urban road type
    leaves the first row. *)
Example urban_filter_keeps_first_row :
  filterIndices sampleFeatures (<["road_type"%string := urbanOnly]> ∅) sampleRows
  = [0].
Proof. by vm_compute. Qed.

(** ** [prepareMatrices]: what a run does to the state *)

Lemma scaleAll_length ty cols Xmat : length (scaleAll ty cols Xmat) = length Xmat.
Proof. unfold scaleAll. by rewrite length_map. Qed.

Lemma encodeAll_length enc sch rows : length (encodeAll enc sch rows) = length rows.
Proof. unfold encodeAll. by rewrite length_map. Qed.

(** With a schema and rows in place, the run reaches the logger, and its
    outcome is that of the logger. *)
Lemma prepareMatrices_run cb ty seed st sch rows :
  schema st = Some sch →
  raw st = Some rows →
  prepareMatrices cb ty seed st
  = (preparedState ty seed st sch rows,
     match log cb (preparedMsg ty seed sch rows) with
     | Ok _ => Ok (snd (buildEncoders (features sch)))
     | Throw e => Throw e
     end).
Proof.
  intros Hsch Hraw.
  unfold prepareMatrices, preparedState, preparedMsg, bind, update, read,
    call, ret, raise. simpl. rewrite Hsch.
  destruct (buildEncoders (features sch)) as [enc names] eqn:Hb. simpl.
  rewrite Hraw. simpl.
  rewrite !scaleAll_length, !encodeAll_length.
  unfold set_split, set_Xy, set_scalers, set_encoders. simpl.
  rewrite Hsch, Hraw.
  by destruct (log cb _).
Qed.

(** Without a schema the run ends at once, the encoder table already
    cleared; with a schema but no rows it ends once the table is rebuilt. *)
Lemma prepareMatrices_no_schema cb ty seed st :
  schema st = None →
  prepareMatrices cb ty seed st = (set_encoders ∅ st, Throw TypeError).
Proof.
  intros Hsch. unfold prepareMatrices, bind, update, read, raise. simpl.
  by rewrite Hsch.
Qed.

Lemma prepareMatrices_no_rows cb ty seed st sch :
  schema st = Some sch →
  raw st = None →
  prepareMatrices cb ty seed st
  = (set_encoders (fst (buildEncoders (features sch))) st, Throw TypeError).
Proof.
  intros Hsch Hraw. unfold prepareMatrices, bind, update, read, raise. simpl.
  rewrite Hsch. destruct (buildEncoders (features sch)) as [enc names].
  simpl. by rewrite Hraw.
Qed.

(** ** The layout of the encoded matrix *)

Lemma fold_left_push {A B : Type} (g : B → list A) (l : list B) (acc : list A) :
  fold_left (fun row x => row ++ g x) l acc = acc ++ flat_map g l.
Proof.
  revert acc. induction l as [|x l IH]; intros acc; simpl.
  - by rewrite app_nil_r.
  - by rewrite IH, <-app_assoc.
Qed.

Lemma flat_map_length_sum {A B : Type} (g : B → list A) (w : B → nat) (l : list B) :
  (∀ x, x ∈ l → length (g x) = w x) →
  length (flat_map g l) = list_sum (map w l).
Proof.
  induction l as [|x l IH]; intros Hw; simpl; [done|].
  rewrite length_app, Hw by left. rewrite IH; [done|].
  intros z Hz. apply Hw. by right.
Qed.

Lemma agrees_app_l enc feats1 feats2 :
  agrees enc (feats1 ++ feats2) → agrees enc feats1.
Proof. intros H k f Hin. apply H. apply elem_of_app. by left. Qed.

Lemma agrees_last enc feats k f :
  agrees enc (feats ++ [(k, f)]) → type f = categorical →
  default [] (enc !! k) = default [] (values f).
Proof.
  intros H. apply H. apply elem_of_app. right. by apply list_elem_of_singleton.
Qed.

Lemma encodeRow_flat enc feats r :
  encodeRow enc feats r = flat_map (encodeFeature enc r) feats.
Proof. unfold encodeRow. by rewrite fold_left_push. Qed.

Lemma encodeFeature_length enc feats r k f :
  agrees enc feats → (k, f) ∈ feats →
  length (encodeFeature enc r (k, f)) = widthOfFeature f.
Proof.
  intros Hagree Hin. unfold encodeFeature, widthOfFeature.
  destruct (type f) eqn:Ht; [done|done|].
  by rewrite length_map, (Hagree k f Hin Ht).
Qed.

Lemma encodeRow_length enc feats r :
  agrees enc feats → length (encodeRow enc feats r) = totalWidth feats.
Proof.
  intros Hagree. rewrite encodeRow_flat. unfold totalWidth.
  apply flat_map_length_sum. intros [k f] Hin.
  by apply (encodeFeature_length enc feats).
Qed.

Lemma columnKinds_length feats : length (columnKinds feats) = totalWidth feats.
Proof.
  unfold columnKinds, totalWidth. apply flat_map_length_sum.
  intros [k f] _. by rewrite length_replicate.
Qed.

Lemma columnKinds_snoc feats k f :
  columnKinds (feats ++ [(k, f)])
  = columnKinds feats ++ replicate (widthOfFeature f) (type f).
Proof. unfold columnKinds. rewrite flat_map_app. simpl. by rewrite app_nil_r. Qed.

(** *** The encoder table *)

Lemma buildEncoders_snoc feats k f :
  buildEncoders (feats ++ [(k, f)])
  = let '(enc, names) := buildEncoders feats in
    match type f with
    | numeric | boolean => (enc, names ++ [k])
    | categorical =>
        (<[k := default [] (values f)]> enc,
         names ++ map (fun c => String.append k (String.append "__" c))
                      (default [] (values f)))
    end.
Proof.
  unfold buildEncoders. rewrite fold_left_app. simpl.
  destruct (fold_left _ feats _) as [enc names]. by destruct (type f).
Qed.

Lemma buildEncoders_names_length feats :
  length (snd (buildEncoders feats)) = totalWidth feats.
Proof.
  induction feats as [|[k f] feats IH] using rev_ind; [done|].
  rewrite buildEncoders_snoc. unfold totalWidth in *.
  rewrite map_app, list_sum_app. simpl.
  destruct (buildEncoders feats) as [enc names]. simpl in IH. rewrite <-IH.
  unfold widthOfFeature.
  destruct (type f); simpl; rewrite length_app, ?length_map; simpl; lia.
Qed.

Lemma buildEncoders_agrees feats :
  NoDup (JsObj.keys feats) → agrees (fst (buildEncoders feats)) feats.
Proof.
  induction feats as [|[k0 f0] feats IH] using rev_ind; intros Hnd.
  { intros k f Hin. inversion Hin. }
  unfold JsObj.keys in Hnd. rewrite map_app in Hnd.
  apply NoDup_app in Hnd as (Hnd & Hfresh & _).
  specialize (IH Hnd). rewrite buildEncoders_snoc.
  destruct (buildEncoders feats) as [enc names]. simpl in IH.
  intros k f Hin Hcat.
  apply elem_of_app in Hin as [Hin|Hin%list_elem_of_singleton].
  - assert (Hne : k ≠ k0).
    { intros ->. apply (Hfresh k0); [|simpl; by left].
      apply list_elem_of_fmap. by exists (k0, f). }
    destruct (type f0); simpl; rewrite ?lookup_insert_ne by done;
      by apply IH.
  - simplify_eq. rewrite Hcat. simpl. by rewrite lookup_insert_eq.
Qed.

(** *** The columns to scale *)

Lemma walk_snoc enc feats k f :
  walk enc (feats ++ [(k, f)])
  = let '(idx, colPointer) := walk enc feats in
    match type f with
    | numeric | boolean => (idx ++ [colPointer], colPointer + 1)
    | categorical => (idx, colPointer + length (default [] (enc !! k)))
    end.
Proof.
  unfold walk. rewrite fold_left_app. simpl.
  by destruct (fold_left _ feats _) as [idx p].
Qed.

Lemma walk_spec enc feats :
  agrees enc feats →
  snd (walk enc feats) = length (columnKinds feats) ∧
  NoDup (fst (walk enc feats)) ∧
  ∀ c, c ∈ fst (walk enc feats)
       ↔ ∃ t, columnKinds feats !! c = Some t ∧ scaledKind t.
Proof.
  induction feats as [|[k f] feats IH] using rev_ind; intros Hagree.
  { split_and!; [done|apply NoDup_nil_2|].
    intros c. split; [intros H; inversion H | intros (t & H & _); done]. }
  destruct (IH (agrees_app_l _ _ _ Hagree)) as (Hp & Hnd & Hmem).
  rewrite walk_snoc, columnKinds_snoc.
  destruct (walk enc feats) as [idx p]. simpl in Hp, Hnd, Hmem. subst p.
  assert (Hbound : ∀ c, c ∈ idx → c < length (columnKinds feats)).
  { intros c (t & Hc & _)%Hmem. by apply lookup_lt_Some in Hc. }
  unfold widthOfFeature, scaledKind.
  destruct (type f) eqn:Ht; simpl.
  - split_and!.
    + rewrite length_app. simpl. lia.
    + apply NoDup_app. split_and!; [done| |apply NoDup_singleton].
      intros c Hc ->%list_elem_of_singleton. apply Hbound in Hc. lia.
    + intros c. rewrite elem_of_app, list_elem_of_singleton, Hmem.
      split.
      * intros [(t & Hc & Hs)| ->].
        -- exists t. split; [|done]. by apply lookup_app_l_Some.
        -- exists numeric. split; [|by left]. by rewrite list_lookup_middle.
      * intros (t & Hc & Hs). apply lookup_app_Some in Hc as [Hc|[Hge Hc]].
        -- left. by exists t.
        -- right. apply lookup_lt_Some in Hc as Hlt. simpl in Hlt. lia.
  - split_and!.
    + rewrite length_app. simpl. lia.
    + apply NoDup_app. split_and!; [done| |apply NoDup_singleton].
      intros c Hc ->%list_elem_of_singleton. apply Hbound in Hc. lia.
    + intros c. rewrite elem_of_app, list_elem_of_singleton, Hmem.
      split.
      * intros [(t & Hc & Hs)| ->].
        -- exists t. split; [|done]. by apply lookup_app_l_Some.
        -- exists boolean. split; [|by right]. by rewrite list_lookup_middle.
      * intros (t & Hc & Hs). apply lookup_app_Some in Hc as [Hc|[Hge Hc]].
        -- left. by exists t.
        -- right. apply lookup_lt_Some in Hc as Hlt. simpl in Hlt. lia.
  - rewrite (agrees_last _ _ _ _ Hagree Ht). split_and!.
    + by rewrite length_app, length_replicate.
    + done.
    + intros c. rewrite Hmem. split.
      * intros (t & Hc & Hs). exists t. split; [|done].
        by apply lookup_app_l_Some.
      * intros (t & Hc & Hs). apply lookup_app_Some in Hc as [Hc|[Hge Hc]].
        -- by exists t.
        -- apply lookup_replicate in Hc as [-> _]. by destruct Hs.
Qed.

(** ** Double arithmetic: rounding, and the floor of a product *)

Section Doubles.
Local Open Scope Z_scope.

Lemma digits2_size p : digits2_pos p = Pos.size p.
Proof. induction p; simpl; congruence. Qed.

Lemma digits2_bounds p :
  2 ^ (Z.pos (digits2_pos p) - 1) ≤ Z.pos p < 2 ^ Z.pos (digits2_pos p).
Proof.
  rewrite digits2_size. split.
  - pose proof (Pos.size_le p) as H.
    assert (Hz : 2 ^ Z.pos (Pos.size p) ≤ 2 * Z.pos p).
    { change (2 * Z.pos p) with (Z.pos p~0). rewrite <-Pos2Z.inj_pow. lia. }
    replace (Z.pos (Pos.size p)) with (Z.succ (Z.pos (Pos.size p) - 1)) in Hz by lia.
    rewrite Z.pow_succ_r in Hz by lia. lia.
  - pose proof (Pos.size_gt p) as H. rewrite <-Pos2Z.inj_pow. lia.
Qed.

Lemma shr_1_m r : 0 ≤ shr_m r → shr_m (shr_1 r) = shr_m r / 2.
Proof.
  destruct r as [m b1 b2]. simpl. intros Hm.
  destruct m as [|p|p]; [done| |lia].
  destruct p as [p|p|]; simpl.
  - rewrite Pos2Z.inj_xI. apply Z.div_unique with 1; lia.
  - rewrite Pos2Z.inj_xO. apply Z.div_unique with 0; lia.
  - done.
Qed.

Lemma pow2_pos k : 0 < 2 ^ Z.pos k.
Proof. apply Z.pow_pos_nonneg; lia. Qed.

Lemma iter_shr_m p : ∀ r,
  0 ≤ shr_m r → shr_m (SpecFloat.iter_pos shr_1 p r) = shr_m r / 2 ^ Z.pos p.
Proof.
  induction p as [p IH|p IH|]; intros r Hr; simpl SpecFloat.iter_pos.
  - assert (H1 : 0 ≤ shr_m (shr_1 r)) by (rewrite shr_1_m by done; apply Z.div_pos; lia).
    assert (H2 : 0 ≤ shr_m (SpecFloat.iter_pos shr_1 p (shr_1 r))).
    { rewrite IH by done. apply Z.div_pos; [done|apply pow2_pos]. }
    rewrite IH, IH, shr_1_m by done.
    pose proof (pow2_pos p).
    rewrite !Z.div_div by lia. f_equal.
    replace (Z.pos p~1) with (1 + Z.pos p + Z.pos p) by lia.
    rewrite !Z.pow_add_r by lia. change (2 ^ 1) with 2. lia.
  - assert (H2 : 0 ≤ shr_m (SpecFloat.iter_pos shr_1 p r)).
    { rewrite IH by done. apply Z.div_pos; [done|apply pow2_pos]. }
    rewrite IH, IH by done.
    pose proof (pow2_pos p).
    rewrite !Z.div_div by lia. f_equal.
    replace (Z.pos p~0) with (Z.pos p + Z.pos p) by lia.
    by rewrite !Z.pow_add_r by lia.
  - by rewrite shr_1_m.
Qed.

Lemma shr_spec mrs e n :
  0 ≤ shr_m mrs →
  snd (shr mrs e n) = e + Z.max 0 n ∧
  shr_m (fst (shr mrs e n)) = shr_m mrs / 2 ^ Z.max 0 n.
Proof.
  intros Hm. destruct n as [|p|p]; simpl.
  - split; [lia|]. by rewrite Z.div_1_r.
  - split; [lia|]. by apply iter_shr_m.
  - split; [lia|]. by rewrite Z.div_1_r.
Qed.

Lemma rne_bounds m l : m ≤ round_nearest_even m l ≤ m + 1.
Proof. destruct l as [|[]]; simpl; try lia. destruct (Z.even m); lia. Qed.

Lemma fexp_value x : fexp prec emax x = Z.max (x - 53) (-1074).
Proof. done. Qed.

Lemma shr_record_of_loc_m m l : shr_m (shr_record_of_loc m l) = m.
Proof. by destruct l as [|[]]. Qed.

(** Rounding with any location: the result is at most one unit of the
    first shift above the significand. *)
Lemma bra_upper s m e l :
  0 ≤ m →
  ∃ m2 e2, 0 ≤ m2 ∧ e ≤ e2 ∧
    m2 * 2 ^ (e2 - e) ≤ m + 2 ^ (Z.max 0 (fexp prec emax (Zdigits2 m + e) - e)) ∧
    binary_round_aux prec emax s m e l
    = match m2 with
      | Z0 => S754_zero s
      | Zpos p => if e2 <=? emax - prec then S754_finite s p e2 else S754_infinity s
      | Zneg _ => S754_nan
      end.
Proof.
  intros Hm. unfold binary_round_aux, shr_fexp.
  set (n1 := fexp prec emax (Zdigits2 m + e) - e).
  assert (Hm0 : 0 ≤ shr_m (shr_record_of_loc m l)) by (by rewrite shr_record_of_loc_m).
  destruct (shr_spec (shr_record_of_loc m l) e n1 Hm0) as [He1 Hm1].
  destruct (shr (shr_record_of_loc m l) e n1) as [mrs1 e1].
  simpl in He1, Hm1. rewrite shr_record_of_loc_m in Hm1.
  set (q := round_nearest_even (shr_m mrs1) (loc_of_shr_record mrs1)).
  pose proof (rne_bounds (shr_m mrs1) (loc_of_shr_record mrs1)) as Hq. fold q in Hq.
  assert (Hp1 : 0 < 2 ^ Z.max 0 n1) by (apply Z.pow_pos_nonneg; lia).
  assert (Hm1' : 0 ≤ shr_m mrs1) by (rewrite Hm1; apply Z.div_pos; lia).
  assert (Hq0 : 0 ≤ shr_m (shr_record_of_loc q loc_Exact)) by (simpl; lia).
  set (n2 := fexp prec emax (Zdigits2 q + e1) - e1).
  destruct (shr_spec (shr_record_of_loc q loc_Exact) e1 n2 Hq0) as [He2 Hm2].
  destruct (shr (shr_record_of_loc q loc_Exact) e1 n2) as [mrs2 e2].
  simpl in He2, Hm2.
  assert (Hp2 : 0 < 2 ^ Z.max 0 n2) by (apply Z.pow_pos_nonneg; lia).
  exists (shr_m mrs2), e2. split_and!.
  - rewrite Hm2. apply Z.div_pos; lia.
  - lia.
  - replace (e2 - e) with (Z.max 0 n2 + Z.max 0 n1) by lia.
    rewrite Z.pow_add_r by lia.
    assert (shr_m mrs2 * 2 ^ Z.max 0 n2 ≤ q).
    { rewrite Hm2, Z.mul_comm. apply Z.mul_div_le. lia. }
    assert (shr_m mrs1 * 2 ^ Z.max 0 n1 ≤ m).
    { rewrite Hm1, Z.mul_comm. apply Z.mul_div_le. lia. }
    nia.
  - done.
Qed.

Lemma bra_exact s (m : positive) e :
  Z.pos (digits2_pos m) = 53 → -1074 ≤ e ≤ 971 →
  binary_round_aux prec emax s (Z.pos m) e loc_Exact = S754_finite s m e.
Proof.
  intros Hd He. unfold binary_round_aux, shr_fexp. simpl Zdigits2.
  rewrite Hd, fexp_value.
  replace (Z.max (53 + e - 53) (-1074) - e) with 0 by lia. simpl.
  rewrite Hd, fexp_value.
  replace (Z.max (53 + e - 53) (-1074) - e) with 0 by lia. simpl.
  unfold emax, prec. by rewrite (proj2 (Z.leb_le _ _)) by lia.
Qed.

Lemma iter_xO p k :
  Z.pos (Pos.iter xO p k) = Z.pos p * 2 ^ Z.pos k ∧
  Z.pos (digits2_pos (Pos.iter xO p k)) = Z.pos (digits2_pos p) + Z.pos k.
Proof.
  induction k as [|k [IH1 IH2]] using Pos.peano_ind.
  - simpl. split; lia.
  - rewrite Pos.iter_succ. cbn [digits2_pos]. rewrite Pos2Z.inj_xO, IH1.
    rewrite !Pos2Z.inj_succ, IH2. rewrite Z.pow_succ_r by lia. split; lia.
Qed.

(** An integer below 2^53 is a number, exactly. *)
Lemma ofZ_small N :
  0 < N < 2 ^ 53 →
  ∃ m e, ofZ N = S754_finite false m e ∧ -52 ≤ e ≤ 0 ∧
         Z.pos m = N * 2 ^ (- e) ∧ 2 ^ 52 ≤ Z.pos m < 2 ^ 53.
Proof.
  intros [Hpos Hlt]. destruct N as [|p|p]; try lia.
  unfold ofZ, binary_normalize, binary_round.
  pose proof (digits2_bounds p) as [Hlo Hhi].
  set (d := Z.pos (digits2_pos p)) in *.
  assert (Hd : 1 ≤ d ≤ 53).
  { split; [unfold d; lia|].
    destruct (decide (d ≤ 53)) as [?|Hgt]; [done|].
    assert (2 ^ 53 ≤ 2 ^ (d - 1)) by (apply Z.pow_le_mono_r; lia). lia. }
  rewrite Z.add_0_r, fexp_value. rewrite Z.max_l by lia.
  unfold shl_align. rewrite Z.sub_0_r.
  destruct (d - 53) as [|k|k] eqn:Hk; try lia.
  - assert (d = 53) by lia.
    rewrite bra_exact by (fold d; lia).
    exists p, 0. change (- 0) with 0. rewrite Z.pow_0_r, Z.mul_1_r.
    replace 52 with (d - 1) by lia. replace (2 ^ 53) with (2 ^ d) by (f_equal; lia).
    split_and!; try done; lia.
  - destruct (iter_xO p k) as [Hv Hdig]. fold d in Hdig.
    rewrite bra_exact by lia.
    exists (Pos.iter xO p k), (Z.neg k).
    assert (Hk' : Z.pos k = 53 - d) by lia.
    change (- Z.neg k) with (Z.pos k). rewrite Hv, Hk'.
    split_and!; [done|lia|lia|done| |].
    + replace 52 with ((d - 1) + (53 - d)) by lia.
      rewrite Z.pow_add_r by lia. apply Z.mul_le_mono_nonneg_r; [|done].
      apply Z.pow_nonneg; lia.
    + replace 53 with (d + (53 - d)) at 2 by lia.
      rewrite Z.pow_add_r by lia. apply Z.mul_lt_mono_pos_r; [|done].
      apply Z.pow_pos_nonneg; lia.
Qed.

Lemma floor_scaled (p : positive) e L :
  0 ≤ L → 0 ≤ e + L →
  0 ≤ Math_floor (S754_finite false p e) ∧
  Math_floor (S754_finite false p e) * 2 ^ L ≤ Z.pos p * 2 ^ (e + L).
Proof.
  intros HL HeL. unfold Math_floor.
  destruct (Z.leb_spec 0 e) as [He|He].
  - assert (0 < 2 ^ e) by (apply Z.pow_pos_nonneg; lia).
    split; [lia|]. rewrite Z.pow_add_r by lia. lia.
  - assert (Hp : 0 < 2 ^ (- e)) by (apply Z.pow_pos_nonneg; lia).
    assert (Hq : 0 < 2 ^ (e + L)) by (apply Z.pow_pos_nonneg; lia).
    split; [apply Z.div_pos; lia|].
    replace L with (- e + (e + L)) at 1 by lia.
    rewrite Z.pow_add_r by lia.
    pose proof (Z.mul_div_le (Z.pos p) (2 ^ (- e)) Hp).
    nia.
Qed.

(** The floor of a product [N * c] in double arithmetic, against the
    exact product with a slightly larger rational [num / den]. *)
Lemma floor_mul_bound N (mc : positive) ec num den :
  0 < N < 2 ^ 53 →
  2 ^ 52 ≤ Z.pos mc < 2 ^ 53 →
  -900 ≤ ec ≤ 0 →
  0 ≤ den → 0 ≤ num →
  den * (2 ^ 52 + 1) * Z.pos mc ≤ num * 2 ^ 52 * 2 ^ (- ec) →
  0 ≤ Math_floor (mul (ofZ N) (S754_finite false mc ec)) ∧
  den * Math_floor (mul (ofZ N) (S754_finite false mc ec)) ≤ num * N.
Proof.
  intros HN Hmc Hec Hden Hnum Hconst.
  destruct (ofZ_small N HN) as (mN & eN & -> & HeN & HmN & HmNb).
  unfold mul, SFmul. cbn [xorb].
  set (P := Z.pos (mN * mc)). set (e := eN + ec).
  destruct (bra_upper false P e loc_Exact) as (m2 & e2 & Hm2 & He2 & Hbound & ->);
    [unfold P; lia|].
  assert (HP : P = Z.pos mN * Z.pos mc) by (unfold P; lia).
  pose proof (digits2_bounds (mN * mc)) as [Hlo Hhi]. fold P in Hlo, Hhi.
  set (dP := Z.pos (digits2_pos (mN * mc))) in *.
  assert (HPlo : 2 ^ 104 ≤ P).
  { rewrite HP. change (2 ^ 104) with (2 ^ 52 * 2 ^ 52). nia. }
  assert (HPhi : P < 2 ^ 106).
  { rewrite HP. change (2 ^ 106) with (2 ^ 53 * 2 ^ 53). nia. }
  assert (HdP : 105 ≤ dP ≤ 106).
  { split.
    - destruct (decide (105 ≤ dP)) as [?|Hn]; [done|].
      assert (2 ^ dP ≤ 2 ^ 104) by (apply Z.pow_le_mono_r; lia). lia.
    - destruct (decide (dP ≤ 106)) as [?|Hn]; [done|].
      assert (2 ^ 106 ≤ 2 ^ (dP - 1)) by (apply Z.pow_le_mono_r; lia). lia. }
  change (Zdigits2 P) with dP in Hbound. rewrite fexp_value in Hbound.
  replace (Z.max 0 (Z.max (dP + e - 53) (-1074) - e)) with (dP - 53) in Hbound
    by (unfold e; lia).
  assert (Hulp : 2 ^ (dP - 53) * 2 ^ 52 ≤ P).
  { rewrite <-Z.pow_add_r by lia. by replace (dP - 53 + 52) with (dP - 1) by lia. }
  assert (Hulp0 : 0 < 2 ^ (dP - 53)) by (apply Z.pow_pos_nonneg; lia).
  destruct m2 as [|p|p]; [| |lia].
  { simpl. lia. }
  assert (Hp2 : 0 < 2 ^ (e2 - e)) by (apply Z.pow_pos_nonneg; lia).
  assert (He2hi : e2 - e < 107).
  { apply (Z.pow_lt_mono_r_iff 2); [lia|lia|].
    change (2 ^ 107) with (2 * 2 ^ 106). nia. }
  unfold emax, prec. rewrite (proj2 (Z.leb_le e2 _)) by (unfold e in *; lia).
  destruct (floor_scaled p e2 (- e)) as [Hf0 Hf]; [unfold e; lia|lia|].
  split; [done|].
  set (fl := Math_floor (S754_finite false p e2)) in *.
  replace (e2 + - e) with (e2 - e) in Hf by lia.
  assert (HL : 0 < 2 ^ (- e)) by (apply Z.pow_pos_nonneg; unfold e; lia).
  assert (HNs : N * 2 ^ (- e) = Z.pos mN * 2 ^ (- ec)).
  { unfold e. replace (- (eN + ec)) with (- eN + - ec) by lia.
    rewrite Z.pow_add_r by lia. lia. }
  assert (Hec0 : 0 < 2 ^ (- ec)) by (apply Z.pow_pos_nonneg; lia).
  apply (Z.mul_le_mono_pos_r _ _ (2 ^ (- e) * 2 ^ 52)); [lia|].
  transitivity (den * (2 ^ 52 + 1) * P).
  - assert (fl * 2 ^ (- e) * 2 ^ 52 ≤ (2 ^ 52 + 1) * P) by nia.
    nia.
  - rewrite HP.
    replace (num * N * (2 ^ (- e) * 2 ^ 52))
      with (Z.pos mN * (num * 2 ^ 52 * 2 ^ (- ec)))
      by (transitivity (num * 2 ^ 52 * (N * 2 ^ (- e))); [rewrite HNs|]; ring).
    replace (den * (2 ^ 52 + 1) * (Z.pos mN * Z.pos mc))
      with (Z.pos mN * (den * (2 ^ 52 + 1) * Z.pos mc)) by ring.
    apply Z.mul_le_mono_nonneg_l; lia.
Qed.

Lemma split_sizes_fit (N : nat) :
  Z.of_nat N < 2 ^ 53 →
  0 ≤ nTrainOf N ∧ 0 ≤ nValOf N ∧ nTrainOf N + nValOf N ≤ Z.of_nat N.
Proof.
  intros HN. unfold nTrainOf, nValOf.
  destruct (decide (N = 0%nat)) as [->|Hpos].
  { by vm_compute. }
  destruct (floor_mul_bound (Z.of_nat N) 6305039478318694 (-53) 3 4)
    as [H1 H2]; [lia|by vm_compute|lia|lia|lia|by vm_compute|].
  destruct (floor_mul_bound (Z.of_nat N) 5404319552844595 (-55) 1 4)
    as [H3 H4]; [lia|by vm_compute|lia|lia|lia|by vm_compute|].
  change (S754_finite false 6305039478318694 (-53)) with lit_0_7 in *.
  change (S754_finite false 5404319552844595 (-55)) with lit_0_15 in *.
  lia.
Qed.

(** *** The draw of the shuffle *)

(** The unit of the first shift is at most 2^-52 of a significand of 53
    digits or more. *)
Lemma first_shift_small (m : positive) e :
  2 ^ 52 ≤ Z.pos m → -1074 ≤ e →
  2 ^ 52 * 2 ^ (Z.max 0 (fexp prec emax (Zdigits2 (Z.pos m) + e) - e)) ≤ Z.pos m.
Proof.
  intros Hm He. pose proof (digits2_bounds m) as [Hlo Hhi].
  cbn [Zdigits2]. set (d := Z.pos (digits2_pos m)) in *.
  assert (Hd : 53 ≤ d).
  { destruct (decide (53 ≤ d)) as [?|Hn]; [done|].
    assert (2 ^ d ≤ 2 ^ 52) by (apply Z.pow_le_mono_r; lia). lia. }
  rewrite fexp_value.
  replace (Z.max 0 (Z.max (d + e - 53) (-1074) - e)) with (d - 53) by lia.
  rewrite <-Z.pow_add_r by lia. by replace (52 + (d - 53)) with (d - 1) by lia.
Qed.

Lemma digits_53 (m : positive) :
  2 ^ 52 ≤ Z.pos m < 2 ^ 53 → Z.pos (digits2_pos m) = 53.
Proof.
  intros [Hlo Hhi]. pose proof (digits2_bounds m) as [Hl Hh].
  set (d := Z.pos (digits2_pos m)) in *.
  destruct (Z.lt_trichotomy d 53) as [Hlt|[?|Hgt]]; [|done|].
  - assert (2 ^ d ≤ 2 ^ 52) by (apply Z.pow_le_mono_r; lia). lia.
  - assert (2 ^ 53 ≤ 2 ^ (d - 1)) by (apply Z.pow_le_mono_r; lia). lia.
Qed.

Lemma ofZ_modulus : ofZ modulus = S754_finite false 9007199250546688 (-22).
Proof. by vm_compute. Qed.

(** The quotient [s / modulus] in double arithmetic, for an integer
    [0 < s]: nothing, or a significand and exponent bounded by the exact
    quotient and a relative error of 2^-52. *)
Lemma div_by_modulus s :
  0 < s < 2 ^ 53 →
  ∃ ms es, -52 ≤ es ≤ 0 ∧ Z.pos ms = s * 2 ^ (- es) ∧ Z.pos ms < 2 ^ 53 ∧
    (div (ofZ s) (ofZ modulus) = S754_zero false ∨
     ∃ px ex, div (ofZ s) (ofZ modulus) = S754_finite false px ex ∧
       es - 31 ≤ ex ∧
       2 ^ 52 * (Z.pos px * 2 ^ (ex - (es - 31))) * 9007199250546688
       ≤ (2 ^ 52 + 1) * (Z.pos ms * 2 ^ 53)).
Proof.
  intros Hs. destruct (ofZ_small s Hs) as (ms & es & Hofs & Hes & Hms & Hmsb).
  exists ms, es. split; [done|]. split; [done|]. split; [lia|].
  rewrite Hofs, ofZ_modulus. unfold div, SFdiv, SFdiv_core_binary. cbn [xorb].
  cbn [Zdigits2]. rewrite (digits_53 ms Hmsb).
  change (Z.pos (digits2_pos 9007199250546688)) with 53.
  rewrite fexp_value.
  replace (Z.min (Z.max (53 + es - (53 + -22) - 53) (-1074)) (es - -22))
    with (es - 31) by lia.
  replace (es - -22 - (es - 31)) with 53 by lia.
  rewrite Z.shiftl_mul_pow2 by lia.
  set (MM := 9007199250546688) in *.
  assert (HMM : 2 ^ 52 ≤ MM < 2 ^ 53) by (by vm_compute).
  pose proof (Z.div_eucl_eq (Z.pos ms * 2 ^ 53) MM ltac:(lia)) as Heq.
  pose proof (Z.mod_pos_bound (Z.pos ms * 2 ^ 53) MM ltac:(lia)) as Hr.
  unfold Z.modulo in Hr.
  destruct (Z.div_eucl (Z.pos ms * 2 ^ 53) MM) as [q r].
  assert (Hq : 2 ^ 52 ≤ q).
  { destruct (decide (2 ^ 52 ≤ q)) as [?|Hn]; [done|].
    assert (q + 1 ≤ 2 ^ 52) by lia.
    assert (MM * (q + 1) ≤ MM * 2 ^ 52) by (apply Z.mul_le_mono_nonneg_l; lia).
    assert (2 ^ 52 * 2 ^ 53 ≤ Z.pos ms * 2 ^ 53) by (apply Z.mul_le_mono_nonneg_r; lia).
    assert (MM * 2 ^ 52 < 2 ^ 53 * 2 ^ 52) by (apply Z.mul_lt_mono_pos_r; lia).
    lia. }
  assert (HqM : q * MM ≤ Z.pos ms * 2 ^ 53) by lia.
  assert (Hqhi : q < 2 ^ 54).
  { destruct (decide (q < 2 ^ 54)) as [?|Hn]; [done|].
    assert (2 ^ 54 * MM ≤ q * MM) by (apply Z.mul_le_mono_nonneg_r; lia).
    assert (2 ^ 54 * 2 ^ 52 ≤ 2 ^ 54 * MM) by (apply Z.mul_le_mono_nonneg_l; lia).
    assert (Z.pos ms * 2 ^ 53 < 2 ^ 53 * 2 ^ 53) by (apply Z.mul_lt_mono_pos_r; lia).
    change (2 ^ 54 * 2 ^ 52) with (2 ^ 53 * 2 ^ 53) in *. lia. }
  destruct (bra_upper false q (es - 31) (new_location MM r))
    as (m2 & e2 & Hm2 & He2 & Hbound & ->); [lia|].
  destruct q as [|pq|pq]; try lia.
  pose proof (first_shift_small pq (es - 31) Hq ltac:(lia)) as Hulp.
  set (u := 2 ^ Z.max 0 (fexp prec emax (Zdigits2 (Z.pos pq) + (es - 31)) - (es - 31))) in *.
  assert (Hu : 0 < u) by (apply Z.pow_pos_nonneg; lia).
  destruct m2 as [|px|px]; [by left| |lia].
  right.
  assert (Hp2 : 0 < 2 ^ (e2 - (es - 31))) by (apply Z.pow_pos_nonneg; lia).
  assert (He2hi : e2 - (es - 31) < 56).
  { apply (Z.pow_lt_mono_r_iff 2); [lia|lia|].
    assert (Z.pos px * 2 ^ (e2 - (es - 31)) < 2 ^ 56)
      by (change (2 ^ 56) with (2 ^ 54 + 3 * 2 ^ 54); lia).
    nia. }
  unfold emax, prec. rewrite (proj2 (Z.leb_le e2 _)) by lia.
  exists px, e2. split; [done|]. split; [done|].
  transitivity ((2 ^ 52 + 1) * (Z.pos pq * MM)).
  - assert (2 ^ 52 * (Z.pos px * 2 ^ (e2 - (es - 31))) ≤ (2 ^ 52 + 1) * Z.pos pq) by lia.
    replace (2 ^ 52 * (Z.pos px * 2 ^ (e2 - (es - 31))) * MM)
      with (2 ^ 52 * (Z.pos px * 2 ^ (e2 - (es - 31))) * MM) by done.
    replace ((2 ^ 52 + 1) * (Z.pos pq * MM))
      with ((2 ^ 52 + 1) * Z.pos pq * MM) by ring.
    apply Z.mul_le_mono_nonneg_r; lia.
  - apply Z.mul_le_mono_nonneg_l; lia.
Qed.

Lemma mul_zero_finite m e : mul (S754_zero false) (S754_finite false m e) = S754_zero false.
Proof. done. Qed.

Lemma pow2_sum a b : 0 ≤ a → 0 ≤ b → 2 ^ (a + b) = 2 ^ a * 2 ^ b.
Proof. intros. by apply Z.pow_add_r. Qed.

(** The index drawn for place [i] lies in [0 .. i]. *)
Lemma pick_range s i :
  0 ≤ s < modulus →
  Z.of_nat (i + 1) < 2 ^ 53 →
  0 ≤ pick s i ≤ Z.of_nat i.
Proof.
  intros Hs Hn. unfold pick. set (n := Z.of_nat (i + 1)) in *.
  assert (Hn0 : 0 < n) by (unfold n; lia).
  destruct (ofZ_small n ltac:(lia)) as (mn & en & Hofn & Hen & Hmn & Hmnb).
  rewrite Hofn.
  destruct (decide (s = 0)) as [->|Hs0].
  { change (div (ofZ 0) (ofZ modulus)) with (S754_zero false).
    rewrite mul_zero_finite. simpl. lia. }
  destruct (div_by_modulus s) as (ms & es & Hes & Hms & Hmshi & [->|Hx]).
  { unfold modulus in Hs. lia. }
  { rewrite mul_zero_finite. simpl. lia. }
  destruct Hx as (px & ex & -> & Hex & HA).
  unfold mul, SFmul. cbn [xorb].
  set (P := Z.pos (px * mn)).
  assert (HP : P = Z.pos px * Z.pos mn) by (unfold P; lia).
  assert (HPlo : 2 ^ 52 ≤ P) by nia.
  destruct (bra_upper false P (ex + en) loc_Exact)
    as (m2 & e2 & Hm2 & He2 & Hbound & ->); [lia|].
  pose proof (first_shift_small (px * mn) (ex + en) HPlo ltac:(lia)) as Hulp.
  fold P in Hulp.
  set (u := 2 ^ Z.max 0 (fexp prec emax (Zdigits2 P + (ex + en)) - (ex + en))) in *.
  assert (Hu : 0 < u) by (apply Z.pow_pos_nonneg; lia).
  destruct m2 as [|py|py]; [simpl; lia| |lia].
  set (T1 := 2 ^ (ex - (es - 31))) in *.
  assert (HT1 : 0 < T1) by (apply Z.pow_pos_nonneg; lia).
  set (MM := 9007199250546688) in *.
  (* bounds on the exponents *)
  assert (HpxT : Z.pos px * T1 < 2 ^ 56).
  { assert (2 ^ 52 * (Z.pos px * T1) * MM < 2 ^ 52 * 2 ^ 56 * MM); [|nia].
    eapply Z.le_lt_trans; [exact HA|].
    assert ((2 ^ 52 + 1) * (Z.pos ms * 2 ^ 53) < (2 ^ 52 + 1) * (2 ^ 53 * 2 ^ 53))
      by (apply Z.mul_lt_mono_pos_l; [lia|apply Z.mul_lt_mono_pos_r; lia]).
    eapply Z.lt_le_trans; [eassumption|]. by vm_compute. }
  assert (Hexhi : ex - (es - 31) < 56).
  { apply (Z.pow_lt_mono_r_iff 2); [lia|lia|]. fold T1. nia. }
  assert (Hpxhi : Z.pos px < 2 ^ 56) by nia.
  assert (HPhi : P < 2 ^ 109).
  { rewrite HP. change (2 ^ 109) with (2 ^ 56 * 2 ^ 53). nia. }
  set (T3 := 2 ^ (e2 - (ex + en))) in *.
  assert (HT3 : 0 < T3) by (apply Z.pow_pos_nonneg; lia).
  assert (He2hi : e2 - (ex + en) < 110).
  { apply (Z.pow_lt_mono_r_iff 2); [lia|lia|]. fold T3.
    change (2 ^ 110) with (2 * 2 ^ 109). nia. }
  unfold emax, prec. rewrite (proj2 (Z.leb_le e2 _)) by lia.
  (* the floor, scaled *)
  destruct (floor_scaled py e2 200) as [HF0 HF]; [lia|lia|].
  set (F := Math_floor (S754_finite false py e2)) in *.
  split; [done|].
  set (T2 := 2 ^ (es + en + 169)) in *.
  assert (HT2 : 0 < T2) by (apply Z.pow_pos_nonneg; lia).
  assert (E2 : 2 ^ (e2 + 200) = T3 * (T1 * T2)).
  { unfold T1, T2, T3. rewrite <-!pow2_sum by lia. f_equal. lia. }
  set (S1 := 2 ^ (- es)) in *. set (N1 := 2 ^ (- en)) in *.
  assert (E1 : S1 * N1 * T2 = 2 ^ 169).
  { unfold S1, N1, T2. rewrite <-!pow2_sum by lia. f_equal. lia. }
  rewrite E2 in HF.
  set (B := Z.pos py * T3) in *.
  assert (I2 : 2 ^ 52 * B ≤ (2 ^ 52 + 1) * P) by lia.
  set (A := Z.pos px * T1) in *.
  (* F * 2^200 * 2^52 ≤ (2^52 + 1) * A * mn * T2 *)
  assert (I4 : F * 2 ^ 200 * 2 ^ 52 ≤ (2 ^ 52 + 1) * (A * (Z.pos mn * T2))).
  { transitivity (2 ^ 52 * B * (T1 * T2)).
    - replace (Z.pos py * (T3 * (T1 * T2))) with (B * (T1 * T2)) in HF
        by (unfold B; ring).
      assert (F * 2 ^ 200 * 2 ^ 52 ≤ B * (T1 * T2) * 2 ^ 52)
        by (apply Z.mul_le_mono_nonneg_r; lia).
      lia.
    - transitivity ((2 ^ 52 + 1) * P * (T1 * T2)).
      + apply Z.mul_le_mono_nonneg_r; [nia|done].
      + rewrite HP. unfold A. apply Z.eq_le_incl. ring. }
  (* ... * 2^52 * MM ≤ (2^52 + 1)^2 * ms * 2^53 * mn * T2 *)
  assert (I5 : F * 2 ^ 200 * 2 ^ 52 * (2 ^ 52 * MM)
               ≤ (2 ^ 52 + 1) * ((2 ^ 52 + 1) * (Z.pos ms * 2 ^ 53)) * (Z.pos mn * T2)).
  { transitivity ((2 ^ 52 + 1) * (A * (Z.pos mn * T2)) * (2 ^ 52 * MM)).
    - apply Z.mul_le_mono_nonneg_r; [by vm_compute|done].
    - replace ((2 ^ 52 + 1) * (A * (Z.pos mn * T2)) * (2 ^ 52 * MM))
        with ((2 ^ 52 + 1) * (2 ^ 52 * A * MM) * (Z.pos mn * T2)) by ring.
      apply Z.mul_le_mono_nonneg_r; [nia|].
      apply Z.mul_le_mono_nonneg_l; [lia|done]. }
  assert (E3 : Z.pos ms * 2 ^ 53 * (Z.pos mn * T2) = s * n * 2 ^ 222).
  { rewrite Hms, Hmn. fold S1 N1.
    transitivity (s * n * 2 ^ 53 * (S1 * N1 * T2)); [ring|].
    rewrite E1. change (2 ^ 222) with (2 ^ 53 * 2 ^ 169). ring. }
  assert (I6 : F * 2 ^ 200 * 2 ^ 52 * (2 ^ 52 * MM)
               ≤ (2 ^ 52 + 1) * (2 ^ 52 + 1) * (s * n * 2 ^ 222)).
  { rewrite <-E3. etrans; [exact I5|]. apply Z.eq_le_incl. ring. }
  (* cancel 2^326 *)
  assert (I7 : F * (2 ^ 104 * modulus) ≤ (2 ^ 52 + 1) * (2 ^ 52 + 1) * (s * n)).
  { apply (Z.mul_le_mono_pos_r _ _ (2 ^ 222)); [by vm_compute|].
    etrans; [|etrans; [exact I6|apply Z.eq_le_incl; ring]].
    apply Z.eq_le_incl. unfold MM, modulus.
    change (2 ^ 200) with (2 ^ 178 * 2 ^ 22) at 1.
    change (2 ^ 222) with (2 ^ 178 * 2 ^ 22 * 2 ^ 22) at 1.
    change 9007199250546688 with (2147483647 * 2 ^ 22).
    change (2 ^ 104) with (2 ^ 52 * 2 ^ 52). ring. }
  assert (I8 : F * (2 ^ 104 * modulus)
               ≤ (2 ^ 52 + 1) * (2 ^ 52 + 1) * (modulus - 1) * n).
  { etrans; [exact I7|].
    replace ((2 ^ 52 + 1) * (2 ^ 52 + 1) * (modulus - 1) * n)
      with ((2 ^ 52 + 1) * (2 ^ 52 + 1) * ((modulus - 1) * n)) by ring.
    apply Z.mul_le_mono_nonneg_l; [by vm_compute|].
    apply Z.mul_le_mono_nonneg_r; lia. }
  assert (HK : (2 ^ 52 + 1) * (2 ^ 52 + 1) * (modulus - 1) < 2 ^ 104 * modulus)
    by (by vm_compute).
  destruct (decide (F ≤ Z.of_nat i)) as [?|Hbig]; [done|].
  assert (n ≤ F) by (unfold n; lia).
  set (K1 := 2 ^ 104 * modulus) in *.
  set (K2 := (2 ^ 52 + 1) * (2 ^ 52 + 1) * (modulus - 1)) in *.
  assert (0 < K1) by (by vm_compute).
  assert (n * K1 ≤ F * K1) by (apply Z.mul_le_mono_nonneg_r; lia).
  assert (K2 * n < K1 * n) by (apply Z.mul_lt_mono_pos_r; lia).
  lia.
Qed.

(** *** What is never NaN *)

(** Rounding a non-negative significand never yields NaN, and keeps the sign. *)
Lemma bra_regular s m e l :
  0 ≤ m →
  match binary_round_aux prec emax s m e l with
  | S754_zero s' | S754_infinity s' | S754_finite s' _ _ => s' = s
  | S754_nan => False
  end.
Proof.
  intros Hm. unfold binary_round_aux, shr_fexp.
  set (n1 := fexp prec emax (Zdigits2 m + e) - e).
  assert (Hm0 : 0 ≤ shr_m (shr_record_of_loc m l)) by (by rewrite shr_record_of_loc_m).
  destruct (shr_spec (shr_record_of_loc m l) e n1 Hm0) as [_ Hm1].
  destruct (shr (shr_record_of_loc m l) e n1) as [mrs1 e1].
  simpl in Hm1. rewrite shr_record_of_loc_m in Hm1.
  set (q := round_nearest_even (shr_m mrs1) (loc_of_shr_record mrs1)).
  pose proof (rne_bounds (shr_m mrs1) (loc_of_shr_record mrs1)) as Hq. fold q in Hq.
  assert (0 < 2 ^ Z.max 0 n1) by (apply Z.pow_pos_nonneg; lia).
  assert (0 ≤ shr_m mrs1) by (rewrite Hm1; apply Z.div_pos; lia).
  assert (Hq0 : 0 ≤ shr_m (shr_record_of_loc q loc_Exact)) by (simpl; lia).
  set (n2 := fexp prec emax (Zdigits2 q + e1) - e1).
  destruct (shr_spec (shr_record_of_loc q loc_Exact) e1 n2 Hq0) as [_ Hm2].
  destruct (shr (shr_record_of_loc q loc_Exact) e1 n2) as [mrs2 e2].
  simpl in Hm2.
  assert (0 < 2 ^ Z.max 0 n2) by (apply Z.pow_pos_nonneg; lia).
  assert (0 ≤ shr_m mrs2) by (rewrite Hm2; apply Z.div_pos; lia).
  destruct (shr_m mrs2); [done| |lia]. by destruct (_ <=? _).
Qed.

Lemma binary_normalize_regular m e :
  match binary_normalize prec emax m e false with
  | S754_zero s' => True
  | S754_infinity s' | S754_finite s' _ _ => s' = (m <? 0)
  | S754_nan => False
  end.
Proof.
  destruct m as [|p|p]; simpl; [done| |].
  - unfold binary_round. destruct (shl_align _ _ _) as [mz ez].
    pose proof (bra_regular false (Z.pos mz) ez loc_Exact) as H.
    destruct (binary_round_aux _ _ _ _ _ _); try done; by apply H.
  - unfold binary_round. destruct (shl_align _ _ _) as [mz ez].
    pose proof (bra_regular true (Z.pos mz) ez loc_Exact) as H.
    destruct (binary_round_aux _ _ _ _ _ _); try done; by apply H.
Qed.

Lemma binary_normalize_notNaN m e : notNaN (binary_normalize prec emax m e false).
Proof.
  pose proof (binary_normalize_regular m e) as H.
  by destruct (binary_normalize _ _ _ _ _).
Qed.

Lemma add_notNaN a b : notNaN a → Number_isFinite b = true → notNaN (add a b).
Proof.
  intros Ha Hb. unfold add, SFadd.
  destruct a as [sa|sa| |sa ma ea], b as [sb|sb| |sb mb eb]; try done.
  - by destruct sa, sb.
  - apply binary_normalize_notNaN.
Qed.

Lemma sum_notNaN l a :
  notNaN a → Forall (λ v, Number_isFinite v = true) l → notNaN (fold_left add l a).
Proof.
  revert a. induction l as [|v l IH]; intros a Ha Hl; [done|].
  apply Forall_cons in Hl as [Hv Hl]. simpl. apply IH; [|done].
  by apply add_notNaN.
Qed.

Lemma div_eucl_nonneg a b : 0 ≤ a → 0 < b → 0 ≤ fst (Z.div_eucl a b).
Proof.
  intros Ha Hb. change (fst (Z.div_eucl a b)) with (a / b). apply Z.div_pos; lia.
Qed.

Lemma div_regular a (m : positive) e :
  (notNaN a → notNaN (div a (S754_finite false m e))) ∧
  (nonneg a → nonneg (div a (S754_finite false m e))).
Proof.
  unfold div, SFdiv, notNaN. destruct a as [sa|sa| |sa ma ea]; try done.
  - split; [done|]. by destruct sa.
  - unfold SFdiv_core_binary.
    set (d1 := Zdigits2 (Z.pos ma)). set (d2 := Zdigits2 (Z.pos m)).
    set (e' := Z.min _ _). set (s := ea - e - e').
    set (m' := match s with Z.pos _ => Z.shiftl (Z.pos ma) s | 0 => Z.pos ma | Z.neg _ => 0 end).
    assert (Hm' : 0 ≤ m').
    { unfold m'. destruct s; [lia| |lia]. apply Z.shiftl_nonneg. lia. }
    pose proof (div_eucl_nonneg m' (Z.pos m) Hm' ltac:(lia)) as Hq.
    destruct (Z.div_eucl m' (Z.pos m)) as [q r]. simpl in Hq.
    pose proof (bra_regular (xorb sa false) q e' (new_location (Z.pos m) r) Hq) as H.
    destruct (binary_round_aux _ _ _ _ _ _) as [s'|s'| |s' m2 e2]; try done.
    + split; [done|]. intros Hn. subst s'. by destruct sa.
    + split; [done|]. intros Hn. subst s'. by destruct sa.
Qed.

Lemma sub_notNaN v b : Number_isFinite v = true → notNaN b → notNaN (sub v b).
Proof.
  intros Hv Hb. unfold sub, SFsub.
  destruct v as [sv|sv| |sv mv ev], b as [sb|sb| |sb mb eb]; try done.
  - by destruct sv, sb.
  - apply binary_normalize_notNaN.
Qed.

Lemma square_nonneg d : notNaN d → nonneg (mul d d).
Proof.
  intros Hd. unfold mul, SFmul. destruct d as [s|s| |s m e]; try done.
  - by destruct s.
  - pose proof (bra_regular (xorb s s) (Z.pos (m * m)) (e + e) loc_Exact
                  ltac:(lia)) as H.
    destruct (binary_round_aux _ _ _ _ _ _) as [s'|s'| |s' m2 e2]; try done;
      subst s'; by destruct s.
Qed.

Lemma shl_align_fst_pos m e e' : 0 < Z.pos (fst (shl_align m e e')).
Proof. lia. Qed.

Lemma add_nonneg a b : nonneg a → nonneg b → nonneg (add a b).
Proof.
  intros Ha Hb. unfold add, SFadd.
  destruct a as [sa|sa| |sa ma ea], b as [sb|sb| |sb mb eb]; try done.
  - by destruct sa, sb.
  - by destruct sa, sb.
  - destruct sa, sb; try done. cbn [cond_Zopp].
    set (z := _ + _).
    pose proof (binary_normalize_regular z (Z.min ea eb)) as H.
    assert (Hz : (z <? 0) = false) by (apply Z.ltb_ge; unfold z; lia).
    rewrite Hz in H.
    destruct (binary_normalize _ _ _ _ _) as [s'|s'| |s' m2 e2]; try done;
      by subst s'.
Qed.

Lemma sumSq_nonneg mean l :
  notNaN mean → Forall (λ v, Number_isFinite v = true) l → nonneg (sumSq mean l).
Proof.
  intros Hmean. unfold sumSq. generalize zero, (I : nonneg zero).
  induction l as [|v l IH]; intros a Ha Hl; [done|].
  apply Forall_cons in Hl as [Hv Hl]. simpl. apply IH; [|done].
  apply add_nonneg; [done|]. by apply square_nonneg, sub_notNaN.
Qed.

Lemma sqrt_notNaN a : nonneg a → notNaN (Math_sqrt a).
Proof.
  unfold Math_sqrt, SFsqrt. destruct a as [s|s| |s m e]; try done.
  - by destruct s.
  - destruct s; [done|]. intros _.
    unfold SFsqrt_core_binary.
    set (d := Zdigits2 (Z.pos m)). set (e' := Z.min _ _).
    set (s := e - 2 * e').
    set (m' := match s with Z.pos _ => Z.shiftl (Z.pos m) s | 0 => Z.pos m | Z.neg _ => 0 end).
    assert (Hm' : 0 ≤ m').
    { unfold m'. destruct s; [lia| |lia]. apply Z.shiftl_nonneg. lia. }
    pose proof (Z.sqrtrem_spec m' Hm') as Hs.
    destruct (Z.sqrtrem m') as [q r].
    set (l := if r =? 0 then _ else _).
    pose proof (bra_regular false q e' l) as H.
    unfold notNaN.
    destruct (binary_round_aux _ _ _ _ _ _); try done. exfalso. apply H. lia.
Qed.

Lemma min2_finite a b :
  a = S754_infinity false ∨ finite a → finite b → finite (min2 a b).
Proof.
  unfold finite, min2. intros [->|Ha] Hb.
  - by destruct b as [sb|sb| |sb mb eb].
  - destruct a as [sa|sa| |sa ma ea], b as [sb|sb| |sb mb eb]; try done;
      simpl; try (destruct sa; done); try (destruct sb; done).
    destruct sa, sb; try done; destruct (ea ?= eb); try done;
      destruct (Pos.compare_cont Eq ma mb); done.
Qed.

Lemma max2_finite a b :
  a = S754_infinity true ∨ finite a → finite b → finite (max2 a b).
Proof.
  unfold finite, max2. intros [->|Ha] Hb.
  - by destruct b as [sb|sb| |sb mb eb].
  - destruct a as [sa|sa| |sa ma ea], b as [sb|sb| |sb mb eb]; try done;
      simpl; try (destruct sa; done); try (destruct sb; done).
    destruct sa, sb; try done; destruct (ea ?= eb); try done;
      destruct (Pos.compare_cont Eq ma mb); done.
Qed.

Lemma fold_finite (f : number → number → number) (init : number) l :
  (∀ a b, a = init ∨ finite a → finite b → finite (f a b)) →
  Forall finite l → l ≠ [] → finite (fold_left f l init).
Proof.
  intros Hf Hl Hne. destruct l as [|v l]; [done|].
  apply Forall_cons in Hl as [Hv Hl]. simpl.
  assert (Hacc : finite (f init v)) by (apply Hf; [by left|done]).
  clear Hne Hv. revert Hacc. generalize (f init v).
  induction l as [|w l IH]; intros a Ha; [done|].
  apply Forall_cons in Hl as [Hw Hl]. simpl. apply IH; [done|].
  apply Hf; [by right|done].
Qed.

Lemma Math_min_finite l : Forall finite l → l ≠ [] → finite (Math_min l).
Proof. apply fold_finite, min2_finite. Qed.

Lemma Math_max_finite l : Forall finite l → l ≠ [] → finite (Math_max l).
Proof. apply fold_finite, max2_finite. Qed.

Lemma finite_notNaN v : finite v → notNaN v.
Proof. by destruct v. Qed.

Lemma finiteColumn_finite Xmat c : Forall finite (finiteColumn Xmat c).
Proof.
  unfold finiteColumn. apply Forall_forall. intros v Hv%list_elem_of_In.
  by apply filter_In in Hv as [_ Hv].
Qed.

Lemma finiteColumn_length Xmat c : (length (finiteColumn Xmat c) ≤ length Xmat)%nat.
Proof.
  unfold finiteColumn.
  etrans; [apply filter_length_le|].
  induction Xmat as [|r Xmat IH]; [done|].
  cbn [omap list_omap]. destruct (r !! c); cbn [length]; lia.
Qed.

Lemma finiteColumn_elem Xmat i c v :
  cell Xmat i c = Some v → finite v → v ∈ finiteColumn Xmat c.
Proof.
  unfold cell, finiteColumn. intros Hcell Hv.
  destruct (Xmat !! i) as [row|] eqn:Hrow; [|done]. simpl in Hcell.
  apply list_elem_of_In, filter_In. split; [|done].
  apply list_elem_of_In, list_elem_of_omap. exists row.
  split; [|done]. by eapply list_elem_of_lookup_2.
Qed.

Lemma finiteColumn_cells Xmat c x :
  x ∈ finiteColumn Xmat c → ∃ i, cell Xmat i c = Some x ∧ finite x.
Proof.
  unfold finiteColumn. intros Hx%list_elem_of_In%filter_In.
  destruct Hx as [Hx%list_elem_of_In Hfin].
  apply list_elem_of_omap in Hx as (row & Hrow & Hc).
  apply list_elem_of_lookup in Hrow as [i Hi]. exists i. split; [|done].
  unfold cell. by rewrite Hi.
Qed.

(** The two divisors of the scaler are never NaN on a column that has a
    finite value. *)
Lemma fitColumn_regular Xmat c :
  finiteColumn Xmat c ≠ [] →
  Z.of_nat (length Xmat) < 2 ^ 53 →
  notNaN (sub (st_max (fitColumn Xmat c)) (st_min (fitColumn Xmat c))) ∧
  notNaN (st_std (fitColumn Xmat c)).
Proof.
  intros Hne Hlen. unfold fitColumn. cbn [st_max st_min st_std].
  pose proof (finiteColumn_finite Xmat c) as Hfin.
  pose proof (finiteColumn_length Xmat c) as Hle.
  set (col := finiteColumn Xmat c) in *.
  split.
  - apply sub_notNaN; [by apply Math_max_finite|].
    by apply finite_notNaN, Math_min_finite.
  - destruct (ofZ_small (Z.max 1 (Z.of_nat (length col)))) as (m1 & e1 & -> & _);
      [lia|].
    destruct (ofZ_small (Z.max 1 (Z.of_nat (length col) - 1))) as (m2 & e2 & -> & _);
      [lia|].
    apply sqrt_notNaN, div_regular, sumSq_nonneg; [|done].
    apply div_regular, sum_notNaN; [done|done].
Qed.

Lemma or_else_one x :
  notNaN x → or_else x one = if is_zero x then one else x.
Proof. unfold or_else, truthy, notNaN. intros ->. by destruct (is_zero x). Qed.

(** *** The generator of the shuffle *)

Lemma shr_1_even k :
  0 ≤ k →
  shr_1 {| shr_m := 2 * k; shr_r := false; shr_s := false |}
  = {| shr_m := k; shr_r := false; shr_s := false |}.
Proof. intros Hk. destruct k as [|p|p]; [done|done|lia]. Qed.

Lemma iter_shr_exact p : ∀ k,
  0 ≤ k →
  SpecFloat.iter_pos shr_1 p {| shr_m := k * 2 ^ Z.pos p; shr_r := false; shr_s := false |}
  = {| shr_m := k; shr_r := false; shr_s := false |}.
Proof.
  induction p as [p IH|p IH|]; intros k Hk; cbn [SpecFloat.iter_pos].
  - pose proof (pow2_pos p).
    replace (k * 2 ^ Z.pos p~1) with (2 * (k * 2 ^ Z.pos p * 2 ^ Z.pos p)).
    + rewrite shr_1_even by nia. rewrite IH by nia. by rewrite IH.
    + replace (Z.pos p~1) with (1 + Z.pos p + Z.pos p) by lia.
      rewrite !Z.pow_add_r by lia. change (2 ^ 1) with 2. ring.
  - pose proof (pow2_pos p).
    replace (k * 2 ^ Z.pos p~0) with (k * 2 ^ Z.pos p * 2 ^ Z.pos p).
    + rewrite IH by nia. by rewrite IH.
    + replace (Z.pos p~0) with (Z.pos p + Z.pos p) by lia.
      rewrite !Z.pow_add_r by lia. ring.
  - change (2 ^ 1) with 2. rewrite Z.mul_comm. by apply shr_1_even.
Qed.

Lemma shr_exact k e n :
  0 ≤ k → 0 ≤ n →
  shr {| shr_m := k * 2 ^ n; shr_r := false; shr_s := false |} e n
  = ({| shr_m := k; shr_r := false; shr_s := false |}, e + n).
Proof.
  intros Hk Hn. destruct n as [|p|p]; [|simpl|lia].
  - simpl. by rewrite Z.mul_1_r, Z.add_0_r.
  - by rewrite iter_shr_exact.
Qed.

(** A significand of 53 digits followed by zeros is rounded to itself. *)
Lemma bra_exact_shift s (k : positive) e n :
  2 ^ 52 ≤ Z.pos k < 2 ^ 53 → 0 ≤ n → -1074 ≤ e + n ≤ 971 →
  binary_round_aux prec emax s (Z.pos k * 2 ^ n) e loc_Exact = S754_finite s k (e + n).
Proof.
  intros Hk Hn He.
  assert (Hp : 0 < 2 ^ n) by (apply Z.pow_pos_nonneg; lia).
  destruct (Z.pos k * 2 ^ n) as [|m|m] eqn:Hm; try lia.
  assert (Hd : Z.pos (digits2_pos m) = 53 + n).
  { pose proof (digits2_bounds m) as [Hlo Hhi]. rewrite <-Hm in Hlo, Hhi.
    set (d := Z.pos (digits2_pos m)) in *.
    assert (Hlow : 2 ^ (52 + n) ≤ Z.pos k * 2 ^ n)
      by (rewrite Z.pow_add_r by lia; nia).
    assert (Hupp : Z.pos k * 2 ^ n < 2 ^ (53 + n))
      by (rewrite Z.pow_add_r by lia; nia).
    destruct (Z.lt_trichotomy d (53 + n)) as [Hlt|[?|Hgt]]; [|done|].
    - assert (2 ^ d ≤ 2 ^ (52 + n)) by (apply Z.pow_le_mono_r; lia). lia.
    - assert (2 ^ (53 + n) ≤ 2 ^ (d - 1)) by (apply Z.pow_le_mono_r; lia). lia. }
  unfold binary_round_aux, shr_fexp. cbn [Zdigits2]. rewrite Hd, fexp_value.
  replace (Z.max (53 + n + e - 53) (-1074) - e) with n by lia.
  cbn [shr_record_of_loc]. rewrite <-Hm, shr_exact by lia.
  cbn [loc_of_shr_record shr_m shr_r shr_s round_nearest_even Zdigits2].
  rewrite (digits_53 k Hk), fexp_value.
  replace (Z.max (53 + (e + n) - 53) (-1074) - (e + n)) with 0 by lia.
  cbn [shr shr_m fst snd].
  unfold emax, prec. by rewrite (proj2 (Z.leb_le _ _)) by lia.
Qed.

(** The product of two integers is exact below 2^53. *)
Lemma mul_ofZ a b :
  0 < a → 0 < b → a * b < 2 ^ 53 →
  mul (ofZ a) (ofZ b) = ofZ (a * b).
Proof.
  intros Ha Hb Hab.
  destruct (ofZ_small a ltac:(nia)) as (ma & ea & -> & Hea & Hma & Hmab).
  destruct (ofZ_small b ltac:(nia)) as (mb & eb & -> & Heb & Hmb & Hmbb).
  destruct (ofZ_small (a * b) ltac:(nia)) as (mv & ev & -> & Hev & Hmv & Hmvb).
  unfold mul, SFmul. cbn [xorb].
  assert (HA : 0 < 2 ^ (- ea)) by (apply Z.pow_pos_nonneg; lia).
  assert (HB : 0 < 2 ^ (- eb)) by (apply Z.pow_pos_nonneg; lia).
  assert (Hprod : Z.pos (ma * mb) = a * b * 2 ^ (- ea + - eb)).
  { rewrite Pos2Z.inj_mul, Hma, Hmb, Z.pow_add_r by lia. ring. }
  assert (Hn : - ev ≤ - ea + - eb).
  { destruct (decide (- ev ≤ - ea + - eb)) as [?|Hn]; [done|].
    assert (2 ^ (- ea + - eb) ≤ 2 ^ (- ev)) by (apply Z.pow_le_mono_r; lia).
    assert (Z.pos (ma * mb) ≤ Z.pos mv) by (rewrite Hprod, Hmv; nia).
    assert (2 ^ 52 * 2 ^ 52 ≤ Z.pos (ma * mb)) by (rewrite Pos2Z.inj_mul; nia).
    change (2 ^ 52 * 2 ^ 52) with (2 ^ 104) in *. lia. }
  replace (Z.pos (ma * mb)) with (Z.pos mv * 2 ^ (ev - ea - eb)).
  - rewrite bra_exact_shift by lia. f_equal. lia.
  - rewrite Hprod, Hmv, <-Z.mul_assoc, <-Z.pow_add_r by lia. do 2 f_equal. lia.
Qed.

Lemma floor_ofZ v : 0 ≤ v < 2 ^ 53 → Math_floor (ofZ v) = v.
Proof.
  intros Hv. destruct (decide (v = 0)) as [->|Hv0]; [done|].
  destruct (ofZ_small v ltac:(lia)) as (m & e & -> & He & Hm & Hmb).
  unfold Math_floor. destruct (Z.leb_spec 0 e).
  - replace e with 0 in * by lia. change (- 0) with 0 in Hm. rewrite Z.pow_0_r in *. lia.
  - rewrite Hm. apply Z.div_mul. assert (0 < 2 ^ (- e)) by (apply Z.pow_pos_nonneg; lia). lia.
Qed.

(** While the product stays below 2^53 the generator steps exactly. *)
Lemma next_exact s :
  0 ≤ s → s * multiplier < 2 ^ 53 → next s = Z.rem (s * multiplier) modulus.
Proof.
  intros Hs Hlt. unfold next, integerOf. f_equal.
  destruct (decide (s = 0)) as [->|Hs0]; [done|].
  rewrite mul_ofZ by (unfold multiplier in *; lia).
  apply floor_ofZ. unfold multiplier in *. lia.
Qed.

Lemma floor_nonneg x :
  match x with
  | S754_zero _ => True
  | S754_infinity s | S754_finite s _ _ => s = false
  | S754_nan => True
  end → 0 ≤ Math_floor x.
Proof.
  destruct x as [s|s| |s m e]; simpl; try done.
  - by intros ->.
  - intros ->. destruct (Z.leb_spec 0 e).
    + assert (0 < 2 ^ e) by (apply Z.pow_pos_nonneg; lia). lia.
    + apply Z.div_pos; [lia|]. apply Z.pow_pos_nonneg; lia.
Qed.

Lemma next_range s : 0 ≤ s → 0 ≤ next s < modulus.
Proof.
  intros Hs. unfold next, integerOf. apply Z.rem_bound_pos; [|done].
  apply floor_nonneg.
  pose proof (binary_normalize_regular s 0) as Hreg. fold (ofZ s) in Hreg.
  rewrite (proj2 (Z.ltb_ge _ _) Hs) in Hreg.
  change (ofZ multiplier) with (S754_finite false 4619872982007808 (-38)).
  destruct (ofZ s) as [sg|sg| |sg m e]; simpl; try done; subst sg; [done|].
  cbn [xorb].
  pose proof (bra_regular false (Z.pos (m * 4619872982007808)) (e + -38) loc_Exact
                ltac:(lia)) as H.
  destruct (binary_round_aux _ _ _ _ _ _); done.
Qed.

End Doubles.

(** *** Scaling touches the columns of the list, one cell each *)

Lemma fitScalers_snoc Xmat cols c :
  fitScalers Xmat (cols ++ [c]) = <[c := fitColumn Xmat c]> (fitScalers Xmat cols).
Proof. unfold fitScalers. by rewrite fold_left_app. Qed.

Lemma fitScalers_lookup Xmat cols c :
  fitScalers Xmat cols !! c
  = if decide (c ∈ cols) then Some (fitColumn Xmat c) else None.
Proof.
  induction cols as [|c0 cols IH] using rev_ind.
  { rewrite decide_False by apply not_elem_of_nil. apply lookup_empty. }
  rewrite fitScalers_snoc. destruct (decide (c = c0)) as [->|Hne].
  - rewrite lookup_insert_eq, decide_True; [done|].
    apply elem_of_app. right. by apply list_elem_of_singleton.
  - rewrite lookup_insert_ne, IH by done.
    destruct (decide (c ∈ cols)) as [Hin|Hnin].
    + rewrite decide_True; [done|]. apply elem_of_app. by left.
    + rewrite decide_False; [done|].
      intros [?|?%list_elem_of_singleton]%elem_of_app; done.
Qed.

Lemma rowset_in_range c v row : c < length row → rowset c v row = <[c := v]> row.
Proof. intros Hc. unfold rowset. by rewrite (proj2 (Nat.ltb_lt _ _) Hc). Qed.

Lemma scaleCell_in_range ty stats row c v st :
  row !! c = Some v → stats !! c = Some st →
  scaleCell ty stats row c = <[c := rescaled ty st v]> row.
Proof.
  intros Hv Hst. unfold scaleCell, rescaled. rewrite Hv, Hst.
  apply lookup_lt_Some in Hv.
  destruct (Number_isFinite v); simpl; by rewrite rowset_in_range.
Qed.

Lemma scaleRow_spec ty stats cols : ∀ row,
  NoDup cols →
  (∀ c, c ∈ cols → c < length row ∧ is_Some (stats !! c)) →
  length (scaleRow ty stats cols row) = length row ∧
  ∀ c, scaleRow ty stats cols row !! c
       = if decide (c ∈ cols)
         then v ← row !! c; st ← stats !! c; Some (rescaled ty st v)
         else row !! c.
Proof.
  induction cols as [|c0 cols IH]; intros row Hnd Hok.
  { split; [done|]. intros c. by rewrite decide_False by apply not_elem_of_nil. }
  apply NoDup_cons in Hnd as [Hfresh Hnd].
  destruct (Hok c0) as [Hlt [st Hst]]; [by left|].
  destruct (lookup_lt_is_Some_2 row c0 Hlt) as [v Hv].
  unfold scaleRow. cbn [fold_left]. fold (scaleRow ty stats cols).
  rewrite (scaleCell_in_range _ _ _ _ _ _ Hv Hst).
  destruct (IH (<[c0 := rescaled ty st v]> row) Hnd) as [Hlen Hcells].
  { intros c Hc. rewrite length_insert. apply Hok. by right. }
  rewrite length_insert in Hlen. split; [done|].
  intros c. rewrite Hcells.
  destruct (decide (c = c0)) as [->|Hne].
  - rewrite decide_False by done. rewrite decide_True by left.
    rewrite list_lookup_insert_eq by done. rewrite Hv. simpl. by rewrite Hst.
  - rewrite list_lookup_insert_ne by done.
    destruct (decide (c ∈ cols)) as [Hin|Hnin].
    + rewrite decide_True by (by right). done.
    + rewrite decide_False; [done|]. by intros [?|?]%elem_of_cons.
Qed.

(** *** The scaled matrix *)

Section Prepared.
Variables (sch : Schema) (rows : list Row) (ty : string).
Hypothesis Hkeys : NoDup (JsObj.keys (features sch)).

Let enc := fst (buildEncoders (features sch)).
Let X0 := encodeAll enc sch rows.
Let cols := numericColIdx enc (features sch).
Let Xs := scaleAll ty cols X0.

Lemma enc_agrees : agrees enc (features sch).
Proof using Hkeys. by apply buildEncoders_agrees. Qed.

Lemma X0_row_length row : row ∈ X0 → length row = totalWidth (features sch).
Proof using Hkeys.
  intros (r & -> & _)%list_elem_of_fmap. apply encodeRow_length, enc_agrees.
Qed.

Lemma cols_spec :
  NoDup cols ∧
  ∀ c, c ∈ cols ↔ ∃ t, columnKinds (features sch) !! c = Some t ∧ scaledKind t.
Proof using Hkeys.
  destruct (walk_spec enc (features sch) enc_agrees) as (_ & Hnd & Hmem).
  by split.
Qed.

Lemma cols_in_range row c :
  row ∈ X0 → c ∈ cols →
  c < length row ∧ is_Some (fitScalers X0 cols !! c).
Proof using Hkeys.
  intros Hrow Hc. split.
  - rewrite (X0_row_length row Hrow), <-columnKinds_length.
    apply cols_spec in Hc as (t & Hc & _). by apply lookup_lt_Some in Hc.
  - rewrite fitScalers_lookup, decide_True by done. by eexists.
Qed.

Lemma Xs_lookup i :
  Xs !! i = scaleRow ty (fitScalers X0 cols) cols <$> X0 !! i.
Proof. unfold Xs, scaleAll. by rewrite list_lookup_fmap. Qed.

Lemma Xs_row_length row : row ∈ Xs → length row = totalWidth (features sch).
Proof using Hkeys.
  intros (row0 & -> & Hrow0)%list_elem_of_fmap.
  destruct (scaleRow_spec ty (fitScalers X0 cols) cols row0) as [Hlen _].
  - apply cols_spec.
  - intros c. by apply cols_in_range.
  - rewrite Hlen. by apply X0_row_length.
Qed.

Lemma X0_cell_defined i c :
  i < length rows → c < totalWidth (features sch) →
  ∃ row0 v, X0 !! i = Some row0 ∧ row0 !! c = Some v ∧ cell X0 i c = Some v.
Proof using Hkeys.
  intros Hi Hc.
  destruct (lookup_lt_is_Some_2 X0 i) as [row0 Hrow0].
  { unfold X0. by rewrite encodeAll_length. }
  destruct (lookup_lt_is_Some_2 row0 c) as [v Hv].
  { rewrite (X0_row_length row0); [done|]. by eapply list_elem_of_lookup_2. }
  exists row0, v. unfold cell. by rewrite Hrow0.
Qed.

Lemma Xs_cell i c v :
  cell X0 i c = Some v →
  cell Xs i c
  = Some (if decide (c ∈ cols) then rescaled ty (fitColumn X0 c) v else v).
Proof using Hkeys.
  unfold cell. rewrite Xs_lookup.
  destruct (X0 !! i) as [row0|] eqn:Hrow0; [|done]. simpl. intros Hv.
  destruct (scaleRow_spec ty (fitScalers X0 cols) cols row0) as [_ Hcells].
  - apply cols_spec.
  - intros c'. apply cols_in_range. by eapply list_elem_of_lookup_2.
  - rewrite Hcells, Hv. destruct (decide (c ∈ cols)) as [Hin|Hnin]; [|done].
    simpl. by rewrite fitScalers_lookup, decide_True.
Qed.

End Prepared.

(** C3.  With unique feature names, the matrix [prepareMatrices] stores
    has one row per raw row, and every row has as many cells as the sum,
    over the features in schema order, of 1 for a numeric or boolean feature
    and of the number of categories for a categorical one.  When the call
    returns (it does whenever the logger returns), the feature-name list
    it returns has that same length. *)
Theorem encoded_width (cb : Callbacks) (ty : string) (seed : Z) (st : state)
    (sch : Schema) (rows : list Row) :
  schema st = Some sch →
  raw st = Some rows →
  NoDup (JsObj.keys (features sch)) →
  ∃ Xmat,
    X (fst (prepareMatrices cb ty seed st)) = Some Xmat ∧
    length Xmat = length rows ∧
    (∀ row, row ∈ Xmat → length row = totalWidth (features sch)) ∧
    (∀ featNames, snd (prepareMatrices cb ty seed st) = Ok featNames →
                  length featNames = totalWidth (features sch)) ∧
    (throws (log cb (preparedMsg ty seed sch rows)) = false →
     ∃ featNames, snd (prepareMatrices cb ty seed st) = Ok featNames).
Proof.
  intros Hsch Hraw Hkeys. rewrite (prepareMatrices_run _ _ _ _ _ _ Hsch Hraw).
  eexists. split; [reflexivity|]. split_and!.
  - by rewrite scaleAll_length, encodeAll_length.
  - intros row. by apply Xs_row_length.
  - simpl. intros names Hnames. destruct (log cb _); simplify_eq.
    apply buildEncoders_names_length.
  - simpl. intros Hlog. destruct (log cb _); [by eexists|done].
Qed.

Lemma encoded_width_witness :
  ∃ Xmat,
    X (fst (prepareMatrices quiet "minmax" 1 loaded)) = Some Xmat ∧
    length Xmat = length sampleRows ∧
    (∀ row, row ∈ Xmat → length row = totalWidth (features sampleSchema)) ∧
    (∀ featNames, snd (prepareMatrices quiet "minmax" 1 loaded) = Ok featNames →
                  length featNames = totalWidth (features sampleSchema)) ∧
    (throws (log quiet (preparedMsg "minmax" 1 sampleSchema sampleRows)) = false →
     ∃ featNames, snd (prepareMatrices quiet "minmax" 1 loaded) = Ok featNames).
Proof.
  apply (encoded_width quiet "minmax" 1 loaded sampleSchema sampleRows).
  - reflexivity.
  - reflexivity.
  - apply (bool_decide_unpack _). vm_compute. exact I.
Defined.

(** C1.  With unique feature names and fewer than 2^53 rows, take the
    encoded matrix before scaling, [X0], and the matrix and scaler table
    [prepareMatrices] stores.  For a column that comes from a numeric or
    boolean feature let [col] list, in row order, the cells of that column
    of [X0] that are finite: a number is in [col] exactly when it is a
    finite cell of the column in some row.  The table holds the minimum
    and the maximum of [col], its mean (the sum over the length, or over 1
    when [col] is empty) and its standard deviation (the root of the sum
    of squared distances to the mean over the length minus 1, or over 1),
    and a cell [v] of [X0] has become: 0 when [v] is not finite;
    [(v - min) / d] with [d = max - min] if that is not zero and [d = 1]
    otherwise, when the scaler type is ["minmax"]; and [(v - mean) / d]
    with [d = std] if that is not zero and [d = 1] otherwise, for any
    other scaler type.  In a column that comes from a categorical feature
    the cell is the one of [X0], and the table has no entry. *)
Theorem scaled_values (cb : Callbacks) (ty : string) (seed : Z) (st : state)
    (sch : Schema) (rows : list Row) :
  schema st = Some sch →
  raw st = Some rows →
  NoDup (JsObj.keys (features sch)) →
  (Z.of_nat (length rows) < 2 ^ 53)%Z →
  let X0 := encodeAll (fst (buildEncoders (features sch))) sch rows in
  ∃ Xmat stats,
    X (fst (prepareMatrices cb ty seed st)) = Some Xmat ∧
    scalers (fst (prepareMatrices cb ty seed st))
    = Some {| sc_type := ty; sc_stats := stats |} ∧
    ∀ i c kind,
      i < length rows →
      columnKinds (features sch) !! c = Some kind →
      ∃ v, cell X0 i c = Some v ∧
        match kind with
        | categorical => cell Xmat i c = Some v ∧ stats !! c = None
        | numeric | boolean =>
            let col := List.filter Number_isFinite (omap (fun row => row !! c) X0) in
            let n := Z.of_nat (length col) in
            let mean := div (fold_left add col zero) (ofZ (Z.max 1 n)) in
            let squares :=
              fold_left (fun s x => add s (mul (sub x mean) (sub x mean))) col zero in
            let std := Math_sqrt (div squares (ofZ (Z.max 1 (n - 1)))) in
            let range := sub (Math_max col) (Math_min col) in
            (∀ x, x ∈ col ↔ ∃ i', cell X0 i' c = Some x ∧ finite x) ∧
            stats !! c = Some {| st_min := Math_min col; st_max := Math_max col;
                                 st_mean := mean; st_std := std |} ∧
            cell Xmat i c
            = Some (if Number_isFinite v then
                      if String.eqb ty "minmax"
                      then div (sub v (Math_min col))
                               (if is_zero range then one else range)
                      else div (sub v mean) (if is_zero std then one else std)
                    else zero)
        end.
Proof.
  intros Hsch Hraw Hkeys Hlen X0.
  rewrite (prepareMatrices_run _ _ _ _ _ _ Hsch Hraw).
  eexists _, _. split; [reflexivity|]. split; [reflexivity|].
  intros i c kind Hi Hkind.
  destruct (X0_cell_defined sch rows Hkeys i c Hi) as (row0 & v & _ & _ & Hv).
  { rewrite <-columnKinds_length. by apply lookup_lt_Some in Hkind. }
  exists v. split; [done|].
  pose proof (Xs_cell sch rows ty Hkeys i c v Hv) as Hcell.
  pose proof (proj2 (cols_spec sch Hkeys) c) as Hmem.
  rewrite fitScalers_lookup.
  assert (Hscaled : scaledKind kind →
    fitScalers X0 (numericColIdx (fst (buildEncoders (features sch))) (features sch))
    !! c = Some (fitColumn X0 c) ∧
    cell (scaleAll ty (numericColIdx (fst (buildEncoders (features sch)))
                                     (features sch)) X0) i c
    = Some (if Number_isFinite v then
              if String.eqb ty "minmax"
              then div (sub v (st_min (fitColumn X0 c)))
                       (if is_zero (sub (st_max (fitColumn X0 c))
                                        (st_min (fitColumn X0 c)))
                        then one
                        else sub (st_max (fitColumn X0 c)) (st_min (fitColumn X0 c)))
              else div (sub v (st_mean (fitColumn X0 c)))
                       (if is_zero (st_std (fitColumn X0 c)) then one
                        else st_std (fitColumn X0 c))
            else zero)).
  { intros Hk.
    assert (Hin : c ∈ numericColIdx (fst (buildEncoders (features sch))) (features sch))
      by (apply Hmem; by exists kind).
    rewrite fitScalers_lookup, decide_True by done.
    rewrite decide_True in Hcell by done. split; [done|].
    fold X0 in Hcell. rewrite Hcell. unfold rescaled, scaleValue. f_equal.
    destruct (Number_isFinite v) eqn:Hfin; [|done].
    destruct (fitColumn_regular X0 c) as [Hrange Hstd].
    - intros Hnil. pose proof (finiteColumn_elem X0 i c v Hv Hfin) as Hel.
      rewrite Hnil in Hel. inversion Hel.
    - unfold X0. by rewrite encodeAll_length.
    - by rewrite (or_else_one _ Hrange), (or_else_one _ Hstd). }
  assert (Hcol : ∀ x, x ∈ finiteColumn X0 c
                      ↔ ∃ i', cell X0 i' c = Some x ∧ finite x).
  { intros x. split; [apply finiteColumn_cells|].
    intros (i' & Hx & Hfin). by eapply finiteColumn_elem. }
  destruct kind.
  - destruct Hscaled as [Hst Hc]; [by left|].
    rewrite fitScalers_lookup in Hst. by split_and!.
  - destruct Hscaled as [Hst Hc]; [by right|].
    rewrite fitScalers_lookup in Hst. by split_and!.
  - assert (Hnot : c ∉ numericColIdx (fst (buildEncoders (features sch))) (features sch)).
    { intros (t & Ht & Hs)%Hmem. rewrite Hkind in Ht. simplify_eq. by destruct Hs. }
    rewrite decide_False in Hcell by done. rewrite decide_False by done.
    by split.
Qed.

Lemma scaled_values_witness :
  let X0 := encodeAll (fst (buildEncoders (features sampleSchema))) sampleSchema sampleRows in
  ∃ Xmat stats,
    X (fst (prepareMatrices quiet "standard" 7 loaded)) = Some Xmat ∧
    scalers (fst (prepareMatrices quiet "standard" 7 loaded))
    = Some {| sc_type := "standard"; sc_stats := stats |} ∧
    ∀ i c kind,
      i < length sampleRows →
      columnKinds (features sampleSchema) !! c = Some kind →
      ∃ v, cell X0 i c = Some v ∧
        match kind with
        | categorical => cell Xmat i c = Some v ∧ stats !! c = None
        | numeric | boolean =>
            let col := List.filter Number_isFinite (omap (fun row => row !! c) X0) in
            let n := Z.of_nat (length col) in
            let mean := div (fold_left add col zero) (ofZ (Z.max 1 n)) in
            let squares :=
              fold_left (fun s x => add s (mul (sub x mean) (sub x mean))) col zero in
            let std := Math_sqrt (div squares (ofZ (Z.max 1 (n - 1)))) in
            let range := sub (Math_max col) (Math_min col) in
            (∀ x, x ∈ col ↔ ∃ i', cell X0 i' c = Some x ∧ finite x) ∧
            stats !! c = Some {| st_min := Math_min col; st_max := Math_max col;
                                 st_mean := mean; st_std := std |} ∧
            cell Xmat i c
            = Some (if Number_isFinite v then
                      if String.eqb "standard" "minmax"
                      then div (sub v (Math_min col))
                               (if is_zero range then one else range)
                      else div (sub v mean) (if is_zero std then one else std)
                    else zero)
        end.
Proof.
  apply (scaled_values quiet "standard" 7 loaded sampleSchema sampleRows).
  - reflexivity.
  - reflexivity.
  - apply (bool_decide_unpack _). vm_compute. exact I.
  - by vm_compute.
Defined.

(** The scaled matrix of the scenario under min-max scaling: each column
    holds a 0 and a 1. *)
Example scenario_matrix :
  X prepared = Some [[one; zero; one; zero; zero]; [zero; one; zero; one; one]]
  ∧ y prepared = Some [[Number "0.2"]; [Number "0.8"]].
Proof. by vm_compute. Qed.

(** ** The seeded shuffle *)

Lemma aget_elem a (n : nat) x :
  elems a !! n = Some x → aget a (Z.of_nat n) = x.
Proof.
  intros Hx. unfold aget.
  rewrite (proj2 (Z.leb_le _ _)) by lia. by rewrite Nat2Z.id, Hx.
Qed.

Lemma aset_elem a (n : nat) v :
  n < length (elems a) →
  aset a (Z.of_nat n) v = {| elems := <[n := v]> (elems a); props := props a |}.
Proof.
  intros Hn. unfold aset, write.
  rewrite (proj2 (Z.leb_le _ _)) by lia. rewrite Nat2Z.id.
  by rewrite (proj2 (Nat.ltb_lt _ _) Hn).
Qed.

(** A swap of two places inside the array permutes the elements and
    leaves the other properties alone. *)
Lemma swap_in_range a (i j : nat) :
  i < length (elems a) → j < length (elems a) →
  elems (swap a (Z.of_nat i) (Z.of_nat j)) ≡ₚ elems a ∧
  length (elems (swap a (Z.of_nat i) (Z.of_nat j))) = length (elems a) ∧
  props (swap a (Z.of_nat i) (Z.of_nat j)) = props a.
Proof.
  intros Hi Hj.
  destruct (lookup_lt_is_Some_2 _ _ Hi) as [y Hy].
  destruct (lookup_lt_is_Some_2 _ _ Hj) as [x Hx].
  unfold swap. rewrite (aget_elem _ _ _ Hx), (aget_elem _ _ _ Hy).
  rewrite (aset_elem a i x Hi). rewrite aset_elem; simpl.
  - split_and!; [|by rewrite !length_insert|done].
    by apply Permutation_insert_swap.
  - by rewrite length_insert.
Qed.

Lemma shuffle_from_perm i : ∀ s a,
  (0 ≤ s)%Z → i < length (elems a) →
  (Z.of_nat (length (elems a)) < 2 ^ 53)%Z →
  elems (shuffle_from i s a) ≡ₚ elems a ∧
  props (shuffle_from i s a) = props a.
Proof.
  induction i as [|i IH]; intros s a Hs Hi Hsize; [done|].
  cbn [shuffle_from].
  pose proof (next_range s Hs) as Hnext.
  pose proof (pick_range (next s) (S i) Hnext ltac:(lia)) as Hpick.
  destruct (swap_in_range a (S i) (Z.to_nat (pick (next s) (S i))))
    as (Hperm & Hlen & Hprops); [done|lia|].
  rewrite Z2Nat.id in Hperm, Hlen, Hprops by lia.
  destruct (IH (next s) (swap a (Z.of_nat (S i)) (pick (next s) (S i))))
    as [Hperm' Hprops']; [lia|lia|lia|].
  split; [by rewrite Hperm'|congruence].
Qed.

Lemma shuffle_perm a seed :
  (0 ≤ seed)%Z →
  (Z.of_nat (length (elems a)) < 2 ^ 53)%Z →
  elems (shuffle a seed) ≡ₚ elems a ∧ props (shuffle a seed) = props a.
Proof.
  intros Hseed Hsize. unfold shuffle.
  destruct (elems a) as [|x l] eqn:Hl.
  - simpl. by rewrite Hl.
  - rewrite <-Hl in *. apply shuffle_from_perm; [done| |done]. rewrite Hl. simpl. lia.
Qed.

(** The indices [0 .. n-1] as array elements. *)
Lemma range_elems n : elems (range n) = (λ i, Some (Z.of_nat i)) <$> seq 0 n.
Proof. done. Qed.

(** *** Slices *)

Lemma slice_from_nonneg {A : Type} (l : list A) (a : Z) (fin : option Z) :
  (0 ≤ a)%Z →
  slice l a fin
  = let len := Z.of_nat (length l) in
    let k := Z.min a len in
    let e := match fin with
             | Some z => if (z <? 0)%Z then Z.max (len + z) 0 else Z.min z len
             | None => len
             end in
    take (Z.to_nat (e - k)) (drop (Z.to_nat k) l).
Proof.
  intros Ha. unfold slice. by rewrite (proj2 (Z.ltb_ge _ _) Ha).
Qed.

Lemma take_drop_segment {A : Type} (l : list A) (p q : nat) :
  p ≤ q →
  take p l ++ take (q - p) (drop p l) ++ drop q l = l.
Proof.
  intros Hpq.
  replace (drop q l) with (drop (q - p) (drop p l))
    by (rewrite drop_drop; f_equal; lia).
  by rewrite (take_drop (q - p)), take_drop.
Qed.

(** Three consecutive slices at non-negative cut points give the list
    back. *)
Lemma slice_partition {A : Type} (l : list A) (a b : Z) :
  (0 ≤ a)%Z → (0 ≤ b)%Z →
  slice l 0 (Some a) ++ slice l a (Some (a + b)%Z) ++ slice l (a + b)%Z None = l.
Proof.
  intros Ha Hb. rewrite !slice_from_nonneg by lia. cbn zeta.
  rewrite !(proj2 (Z.ltb_ge _ _)) by lia.
  set (len := Z.of_nat (length l)).
  assert (0 ≤ len)%Z by (unfold len; lia).
  rewrite (Z.min_l 0 len) by lia. rewrite Z.sub_0_r. simpl drop.
  set (p := Z.to_nat (Z.min a len)). set (q := Z.to_nat (Z.min (a + b) len)).
  replace (Z.to_nat (Z.min (a + b) len - Z.min a len)) with (q - p) by lia.
  rewrite (take_ge (drop q l)).
  - apply take_drop_segment. lia.
  - rewrite length_drop. lia.
Qed.

Lemma slice_lengths {A : Type} (l : list A) (a b : Z) :
  (0 ≤ a)%Z → (0 ≤ b)%Z → (a + b ≤ Z.of_nat (length l))%Z →
  Z.of_nat (length (slice l 0 (Some a))) = a ∧
  Z.of_nat (length (slice l a (Some (a + b)%Z))) = b ∧
  Z.of_nat (length (slice l (a + b)%Z None)) = (Z.of_nat (length l) - a - b)%Z.
Proof.
  intros Ha Hb Hab. rewrite !slice_from_nonneg by lia. cbn zeta.
  rewrite !(proj2 (Z.ltb_ge _ _)) by lia.
  rewrite (Z.min_l 0), (Z.min_l a), (Z.min_l (a + b)) by lia.
  rewrite !length_take, !length_drop.
  split_and!; lia.
Qed.

(** ** The split *)

Lemma shuffled_range N seed :
  (0 ≤ seed)%Z →
  (Z.of_nat N < 2 ^ 53)%Z →
  elems (shuffle (range N) seed) ≡ₚ (λ i, Some (Z.of_nat i)) <$> seq 0 N ∧
  length (elems (shuffle (range N) seed)) = N.
Proof.
  intros Hseed HN.
  destruct (shuffle_perm (range N) seed Hseed) as [Hperm _].
  { by rewrite range_elems, length_fmap, length_seq. }
  rewrite range_elems in Hperm. split; [done|].
  by rewrite Hperm, length_fmap, length_seq.
Qed.

Lemma indices_NoDup N : NoDup ((λ i, Some (Z.of_nat i)) <$> seq 0 N).
Proof.
  apply NoDup_fmap_2; [|apply NoDup_seq].
  intros i j Hij. simplify_eq. lia.
Qed.

(** A sample has the size asked for, capped by the number of rows: every
    index drawn is one of the array. *)
Lemma sampleArray_length {A : Type} (arr : list A) (n seed : Z) :
  (0 ≤ seed)%Z → (Z.of_nat (length arr) < 2 ^ 53)%Z → (0 ≤ n)%Z →
  length (sampleArray arr n seed) = Z.to_nat (Z.min n (Z.of_nat (length arr))).
Proof.
  intros Hseed Hsize Hn. unfold sampleArray.
  destruct (shuffled_range (length arr) seed Hseed Hsize) as [Hperm Hlen].
  set (idx := elems (shuffle (range (length arr)) seed)) in *.
  rewrite slice_from_nonneg by lia. cbn zeta.
  rewrite (proj2 (Z.ltb_ge _ _)) by lia.
  rewrite Hlen, (Z.min_l 0), Z.sub_0_r by lia. change (Z.to_nat 0) with 0. rewrite drop_0.
  rewrite (Z.min_l (Z.min _ _)) by lia.
  set (k := Z.to_nat (Z.min n (Z.of_nat (length arr)))).
  assert (Hk : k ≤ length idx) by lia.
  assert (Hin : Forall (λ x, ∃ i, x = Some (Z.of_nat i) ∧ i < length arr) (take k idx)).
  { apply Forall_forall. intros x Hx.
    assert (Hx' : x ∈ idx) by (eapply elem_of_sublist; [exact Hx|apply sublist_take]).
    clear Hx. rename Hx' into Hx. rewrite Hperm in Hx.
    apply list_elem_of_fmap in Hx as (i & -> & Hi%elem_of_seq). exists i. split; [done|]. clear -Hi. lia. }
  rewrite <-(length_take_le idx k Hk) at 2.
  generalize dependent (take k idx). intros l Hin.
  induction Hin as [|x l (i & -> & Hi) _ IH]; [done|].
  cbn [flat_map]. rewrite length_app, IH.
  rewrite (proj2 (Z.leb_le _ _)) by lia. rewrite Nat2Z.id.
  by destruct (lookup_lt_is_Some_2 arr i Hi) as [v ->].
Qed.

(** C2, counterexample.  For 90 rows the training part has 62 indices,
    where the floor of 0.7 * 90 is 63: [90 * 0.7] is the double
    62.99999999999999.  And for 2 rows and the seed -1 the generator
    draws the position -1: index 1 is lost and the test part holds
    undefined. *)
Lemma split_sizes_and_negative_seed :
  (length (idxTrain (makeSplit 90 2025)) = 62 ∧ (7 * 90 / 10)%Z = 63%Z) ∧
  makeSplit 2 (-1) = {| idxTrain := [Some 0%Z]; idxVal := []; idxTest := [None] |}.
Proof. by vm_compute. Qed.

(** C2, as the code has it.  For an integer seed from 0 to below 2^53
    and a row count below 2^53, the three index lists, one after the other, are a
    permutation of the indices [0 .. N-1]: each index occurs once, so the
    lists are pairwise disjoint and cover them all.  The training list has
    [Math.floor(N * 0.7)] indices and the validation list
    [Math.floor(N * 0.15)], both products taken in double arithmetic, and
    the test list has the rest.  The split of a call of [prepareMatrices]
    on [N] rows is this one, whatever the state, the callbacks and the
    scaler type: the same [N] and seed give the same lists.  The generator
    steps by [s := (s * 16807) % 2147483647], exactly so while the product
    stays below 2^53, as it does from the second step on. *)
Theorem seeded_split (N : nat) (seed : Z) :
  (0 ≤ seed < 2 ^ 53)%Z →
  (Z.of_nat N < 2 ^ 53)%Z →
  let sp := makeSplit N seed in
  idxTrain sp ++ idxVal sp ++ idxTest sp ≡ₚ (λ i, Some (Z.of_nat i)) <$> seq 0 N ∧
  NoDup (idxTrain sp ++ idxVal sp ++ idxTest sp) ∧
  (∀ x, x ∈ idxTrain sp → (x ∉ idxVal sp) ∧ (x ∉ idxTest sp)) ∧
  (∀ x, x ∈ idxVal sp → x ∉ idxTest sp) ∧
  Z.of_nat (length (idxTrain sp)) = nTrainOf N ∧
  Z.of_nat (length (idxVal sp)) = nValOf N ∧
  Z.of_nat (length (idxTest sp)) = (Z.of_nat N - nTrainOf N - nValOf N)%Z ∧
  (∀ cb ty st sch rows,
     schema st = Some sch → raw st = Some rows → length rows = N →
     split (fst (prepareMatrices cb ty seed st)) = sp) ∧
  (∀ s, (0 ≤ s)%Z → (s * 16807 < 2 ^ 53)%Z →
     next s = Z.rem (s * 16807) 2147483647 ∧ (0 ≤ next s < 2147483647)%Z).
Proof.
  intros [Hseed _] HN sp.
  destruct (shuffled_range N seed Hseed HN) as [Hperm Hlen].
  destruct (split_sizes_fit N HN) as (Htrain & Hval & Hfit).
  set (idx := elems (shuffle (range N) seed)) in *.
  assert (Hcat : idxTrain sp ++ idxVal sp ++ idxTest sp = idx).
  { unfold sp, makeSplit. cbn [idxTrain idxVal idxTest].
    by apply slice_partition. }
  destruct (slice_lengths idx (nTrainOf N) (nValOf N)) as (L1 & L2 & L3);
    [done|done|lia|].
  assert (Hnd : NoDup (idxTrain sp ++ idxVal sp ++ idxTest sp)).
  { rewrite Hcat, Hperm. apply indices_NoDup. }
  split_and!.
  - by rewrite Hcat.
  - done.
  - intros x Hx. apply NoDup_app in Hnd as (_ & Hdisj & _).
    specialize (Hdisj x Hx). rewrite elem_of_app in Hdisj. tauto.
  - intros x Hx. apply NoDup_app in Hnd as (_ & _ & Hnd).
    apply NoDup_app in Hnd as (_ & Hdisj & _). by apply Hdisj.
  - exact L1.
  - exact L2.
  - rewrite Hlen in L3. exact L3.
  - intros cb ty st sch rows Hsch Hraw <-.
    by rewrite (prepareMatrices_run _ _ _ _ _ _ Hsch Hraw).
  - intros s Hs Hlt. split; [by apply next_exact|by apply next_range].
Qed.

Lemma seeded_split_witness :
  let sp := makeSplit 90 2025 in
  idxTrain sp ++ idxVal sp ++ idxTest sp ≡ₚ (λ i, Some (Z.of_nat i)) <$> seq 0 90 ∧
  NoDup (idxTrain sp ++ idxVal sp ++ idxTest sp) ∧
  (∀ x, x ∈ idxTrain sp → (x ∉ idxVal sp) ∧ (x ∉ idxTest sp)) ∧
  (∀ x, x ∈ idxVal sp → x ∉ idxTest sp) ∧
  Z.of_nat (length (idxTrain sp)) = nTrainOf 90 ∧
  Z.of_nat (length (idxVal sp)) = nValOf 90 ∧
  Z.of_nat (length (idxTest sp)) = (Z.of_nat 90 - nTrainOf 90 - nValOf 90)%Z ∧
  (∀ cb ty st sch rows,
     schema st = Some sch → raw st = Some rows → length rows = 90 →
     split (fst (prepareMatrices cb ty 2025 st)) = sp) ∧
  (∀ s, (0 ≤ s)%Z → (s * 16807 < 2 ^ 53)%Z →
     next s = Z.rem (s * 16807) 2147483647 ∧ (0 ≤ next s < 2147483647)%Z).
Proof.
  apply (seeded_split 90 2025); [lia | by vm_compute].
Defined.

(** The split of the specification's scenario: two rows, seed 1. *)
Example split_of_two_rows :
  makeSplit 2 1 = {| idxTrain := [Some 1%Z]; idxVal := []; idxTest := [Some 0%Z] |}.
Proof. by vm_compute. Qed.

(** ** The target vector *)

Lemma target_vector cb ty seed st sch rows :
  schema st = Some sch → raw st = Some rows →
  y (fst (prepareMatrices cb ty seed st))
  = Some (map (fun r => [Number_ (JsObj.get (target sch) r)]) rows).
Proof.
  intros Hsch Hraw. by rewrite (prepareMatrices_run _ _ _ _ _ _ Hsch Hraw).
Qed.

(** C9, at the failing input.  The second record of the flag text has an
    empty target cell.  [Number('')] is 0, so its entry of [y] is 0 and
    not NaN; [#toNumberMaybe], which the same loop applies to the numeric
    features, does turn the empty string into NaN. *)
Theorem empty_target_becomes_zero :
  y (fst (prepareMatrices quiet "minmax" 2025 flagLoaded))
  = Some [[Number "0.1"]; [zero]] ∧
  (JsObj.get targetName <$> flagRows !! 1) = Some (Some ""%string) ∧
  Number "" = zero ∧
  toNumberMaybe (Some ""%string) = NaN ∧
  is_nan zero = false.
Proof. by vm_compute. Qed.

(** ** A call of [prepareMatrices] that fails *)

(** C6, counterexample.  The scenario is prepared with min-max scaling
    and seed 1; a second call, with standard scaling and another seed,
    fails because the logger throws.  The matrix, the scaler and the split
    of the first call are gone. *)
Lemma failed_prepare_overwrites :
  throws (snd (prepareMatrices failingLog "standard" 100000 prepared)) = true ∧
  X (fst (prepareMatrices failingLog "standard" 100000 prepared)) ≠ X prepared ∧
  scalers (fst (prepareMatrices failingLog "standard" 100000 prepared))
  ≠ scalers prepared ∧
  split (fst (prepareMatrices failingLog "standard" 100000 prepared))
  ≠ split prepared.
Proof.
  split_and!.
  - by vm_compute.
  - vm_compute. discriminate.
  - vm_compute. discriminate.
  - vm_compute. discriminate.
Qed.

(** C6, as the code has it.  A call of [prepareMatrices] that throws
    leaves the raw rows and the schema as they were, and nothing else:
    without a schema the encoder table has been cleared; with a schema but
    no rows the table has been rebuilt from the schema; otherwise the
    exception is the logger's, thrown by the last statement, and the
    encoder table, the scaler, X, y and the split are those of the new
    run. *)
Theorem failed_prepare_state (cb : Callbacks) (ty : string) (seed : Z)
    (st : state) (e : exn) :
  snd (prepareMatrices cb ty seed st) = Throw e →
  let st' := fst (prepareMatrices cb ty seed st) in
  raw st' = raw st ∧ schema st' = schema st ∧
  match schema st, raw st with
  | None, _ => st' = set_encoders ∅ st ∧ e = TypeError
  | Some sch, None =>
      st' = set_encoders (fst (buildEncoders (features sch))) st ∧ e = TypeError
  | Some sch, Some rows =>
      st' = preparedState ty seed st sch rows ∧
      log cb (preparedMsg ty seed sch rows) = Throw e
  end.
Proof.
  intros Hthrow st'. unfold st'. clear st'.
  destruct (schema st) as [sch|] eqn:Hsch.
  - destruct (raw st) as [rows|] eqn:Hraw.
    + rewrite (prepareMatrices_run _ _ _ _ _ _ Hsch Hraw) in Hthrow |- *.
      simpl in *. split_and!; [done|done|done|].
      destruct (log cb _); [discriminate|congruence].
    + rewrite (prepareMatrices_no_rows _ _ _ _ _ Hsch Hraw) in Hthrow |- *.
      simpl in *. split_and!; [done|done|done|congruence].
  - rewrite (prepareMatrices_no_schema _ _ _ _ Hsch) in Hthrow |- *.
    simpl in *. split_and!; [done|done|done|congruence].
Qed.

Lemma failed_prepare_state_witness :
  let st' := fst (prepareMatrices failingLog "standard" 100000 prepared) in
  raw st' = raw prepared ∧ schema st' = schema prepared ∧
  match schema prepared, raw prepared with
  | None, _ => st' = set_encoders ∅ prepared ∧ Raised 0 = TypeError
  | Some sch, None =>
      st' = set_encoders (fst (buildEncoders (features sch))) prepared
      ∧ Raised 0 = TypeError
  | Some sch, Some rows =>
      st' = preparedState "standard" 100000 prepared sch rows ∧
      log failingLog (preparedMsg "standard" 100000 sch rows) = Throw (Raised 0)
  end.
Proof.
  apply (failed_prepare_state failingLog "standard" 100000 prepared (Raised 0)).
  reflexivity.
Defined.

(** ** Schema inference: the feature table *)

Lemma inferSchema_run cb st r0 rest :
  raw st = Some (r0 :: rest) →
  JsObj.has targetName r0 = true →
  inferSchema cb st
  = (set_schema (Some {| features := inferredFeatures (r0 :: rest);
                         target := targetName |}) st,
     log cb (LogSchema (length (inferredFeatures (r0 :: rest))) targetName)).
Proof.
  intros Hraw Htarget. unfold inferSchema, bind, read, update, call. simpl.
  rewrite Hraw, Htarget. simpl. by destruct (log cb _).
Qed.

Lemma get_map_values {V W : Type} (g : string → V → W) (o : JsObj.obj V) k :
  JsObj.get k (map (fun '(k, v) => (k, g k v)) o) = g k <$> JsObj.get k o.
Proof.
  induction o as [|[k' v] o IH]; simpl; [done|].
  destruct (String.eqb_spec k k') as [->|Hne]; [done|apply IH].
Qed.

Lemma keys_map_values {V W : Type} (g : string → V → W) (o : JsObj.obj V) :
  JsObj.keys (map (fun '(k, v) => (k, g k v)) o) = JsObj.keys o.
Proof.
  unfold JsObj.keys. rewrite map_map. apply map_ext. by intros [k v].
Qed.

Lemma get_Some_elem_of {V : Type} (o : JsObj.obj V) k v :
  JsObj.get k o = Some v → (k, v) ∈ o.
Proof.
  induction o as [|[k' v'] o IH]; simpl; [done|].
  destruct (String.eqb_spec k k') as [->|Hne].
  - intros [= ->]. by left.
  - intros Hget. right. by apply IH.
Qed.

(** The schema the loader infers has one feature per name. *)
Lemma inferredFeatures_NoDup rows : NoDup (JsObj.keys (inferredFeatures rows)).
Proof.
  unfold inferredFeatures. rewrite keys_map_values. apply firstPass_NoDup.
Qed.

Lemma inferredFeatures_get rows k :
  k ∈ inferredColumns rows →
  JsObj.get k (inferredFeatures rows)
  = Some (complete rows k {| name := k; type := columnType rows k;
                             stats := None; values := None |}).
Proof.
  intros Hk. unfold inferredFeatures.
  by rewrite get_map_values, firstPass_get.
Qed.

Lemma observedValues_elem rows k v :
  v ∈ observedValues rows k → ∃ r, r ∈ rows ∧ v = String_ (JsObj.get k r).
Proof.
  unfold observedValues. rewrite list_elem_of_In, filter_In, <-list_elem_of_In.
  intros [Hin _]. apply Set_of_subset, list_elem_of_fmap in Hin as (r & -> & Hr).
  by exists r.
Qed.

(** A column whose observed values are all spellings of true and false
    becomes boolean, with the two canonical values. *)
Lemma flag_recast rows k :
  k ∈ inferredColumns rows →
  columnType rows k = categorical →
  (∀ r, r ∈ rows →
        ∃ v, JsObj.get k r = Some v ∧ is_true_false (toLowerCase v) = true) →
  JsObj.get k (inferredFeatures rows)
  = Some {| name := k; type := boolean; stats := None;
            values := Some ["True"; "False"]%string |}.
Proof.
  intros Hk Hcat Hflags. rewrite (inferredFeatures_get _ _ Hk).
  unfold complete. cbn [type name stats values]. rewrite Hcat.
  assert (Hall : forallb is_true_false (map toLowerCase (observedValues rows k))
                 = true).
  { apply forallb_forall. intros x (v & <- & Hv)%in_map_iff.
    apply list_elem_of_In, observedValues_elem in Hv as (r & Hr & ->).
    destruct (Hflags r Hr) as (v & -> & Hv). done. }
  by rewrite Hall.
Qed.

(** *** A column of zeros stays a column of zeros *)

Lemma fold_left_replicate_fixed {A B : Type} (f : A → B → A) a x n :
  f a x = a → fold_left f (replicate n x) a = a.
Proof. intros Hf. induction n as [|n IH]; simpl; [done|]. by rewrite Hf. Qed.

Lemma div_zero_ofZ z : (0 < z < 2 ^ 53)%Z → div zero (ofZ z) = zero.
Proof. intros Hz. by destruct (ofZ_small z Hz) as (m & e & -> & _). Qed.

Lemma fitColumn_zeros Xmat c n :
  finiteColumn Xmat c = replicate (S n) zero →
  (Z.of_nat (S n) < 2 ^ 53)%Z →
  fitColumn Xmat c
  = {| st_min := zero; st_max := zero; st_mean := zero; st_std := zero |}.
Proof.
  intros Hcol Hn. unfold fitColumn. rewrite Hcol, length_replicate.
  assert (Hsum : fold_left add (replicate (S n) zero) zero = zero)
    by (by apply fold_left_replicate_fixed).
  assert (Hmean : div (fold_left add (replicate (S n) zero) zero)
                      (ofZ (Z.max 1 (Z.of_nat (S n)))) = zero)
    by (rewrite Hsum; apply div_zero_ofZ; lia).
  rewrite Hmean.
  assert (Hsq : sumSq zero (replicate (S n) zero) = zero)
    by (by apply fold_left_replicate_fixed).
  rewrite Hsq, div_zero_ofZ by lia.
  f_equal.
  - unfold Math_min. cbn [replicate fold_left].
    by apply fold_left_replicate_fixed.
  - unfold Math_max. cbn [replicate fold_left].
    by apply fold_left_replicate_fixed.
Qed.

Lemma rescaled_zero ty :
  rescaled ty {| st_min := zero; st_max := zero; st_mean := zero; st_std := zero |}
           zero = zero.
Proof.
  unfold rescaled, scaleValue. cbn [Number_isFinite zero].
  by destruct (String.eqb ty "minmax").
Qed.

Lemma finiteColumn_zeros (Xmat : list (list number)) c :
  (∀ row, row ∈ Xmat → row !! c = Some zero) →
  finiteColumn Xmat c = replicate (length Xmat) zero.
Proof.
  unfold finiteColumn. induction Xmat as [|row Xmat IH]; intros Hall; [done|].
  cbn [omap list_omap]. rewrite (Hall row) by left. cbn [List.filter length replicate].
  cbn [Number_isFinite zero]. f_equal. apply IH. intros r Hr. apply Hall. by right.
Qed.

(** *** Where a feature's columns start *)

Lemma encodeRow_at_feature enc before k f after r z :
  agrees enc (before ++ (k, f) :: after) →
  encodeFeature enc r (k, f) = [z] →
  encodeRow enc (before ++ (k, f) :: after) r !! totalWidth before = Some z.
Proof.
  intros Hagree Hz. rewrite encodeRow_flat, flat_map_app. cbn [flat_map].
  rewrite Hz. cbn [app].
  rewrite <-(encodeRow_length enc before r (agrees_app_l _ _ _ Hagree)).
  rewrite encodeRow_flat. by rewrite list_lookup_middle.
Qed.

Lemma columnKinds_at_feature before k f after :
  widthOfFeature f = 1 →
  columnKinds (before ++ (k, f) :: after) !! totalWidth before = Some (type f).
Proof.
  intros Hw. unfold columnKinds. rewrite flat_map_app. cbn [flat_map].
  rewrite Hw. cbn [replicate app].
  rewrite <-columnKinds_length. unfold columnKinds.
  by rewrite list_lookup_middle.
Qed.

(** C10, counterexample.  The cells of the column [num_lanes] spell true
    and false in lower case, but the name is in the numeric list: the
    feature stays numeric, no value list is collected for it, and its cells
    are encoded by [toNumberMaybe], which yields NaN for both. *)
Lemma flags_under_a_numeric_name :
  let feats := inferredFeatures lanesRows in
  let sch := {| features := feats; target := targetName |} in
  let enc := fst (buildEncoders feats) in
  (JsObj.get "num_lanes" <$> lanesRows) = [Some "true"; Some "false"]%string ∧
  columnType lanesRows "num_lanes" = numeric ∧
  type <$> JsObj.get "num_lanes" feats = Some numeric ∧
  values <$> JsObj.get "num_lanes" feats = Some None ∧
  encodeAll enc sch lanesRows = [[NaN]; [NaN]].
Proof. by vm_compute. Qed.

(** C10, as the code has it.  Take a column that the first pass types
    categorical (its name is in the categorical list, or it is in neither
    list and has at most 10 distinct values in the sample) and whose
    cells all spell true or false in some letter case, none of them being
    exactly ["True"].  Schema inference makes it a boolean feature with the
    values ["True"] and ["False"].  Encoding compares the cell with
    ["True"] as it is written, so the feature contributes the single cell 0
    for every row: in the encoded matrix the column of the feature is 0 in
    every row, before scaling and (for fewer than 2^53 rows) after it,
    whatever the scaler type. *)
Theorem lowercase_flags_encode_to_zero (rows : list Row) (k ty : string) :
  (Z.of_nat (length rows) < 2 ^ 53)%Z →
  k ∈ inferredColumns rows →
  columnType rows k = categorical →
  (∀ r, r ∈ rows →
        ∃ v, JsObj.get k r = Some v ∧ is_true_false (toLowerCase v) = true
             ∧ v ≠ "True"%string) →
  let feats := inferredFeatures rows in
  let sch := {| features := feats; target := targetName |} in
  let enc := fst (buildEncoders feats) in
  let X0 := encodeAll enc sch rows in
  let Xs := scaleAll ty (numericColIdx enc feats) X0 in
  ∃ (f : Feature) (before after : JsObj.obj Feature),
    feats = before ++ (k, f) :: after ∧
    type f = boolean ∧
    values f = Some ["True"; "False"]%string ∧
    (∀ r, r ∈ rows → encodeFeature enc r (k, f) = [zero]) ∧
    columnKinds feats !! totalWidth before = Some boolean ∧
    ∀ i, i < length rows →
         cell X0 i (totalWidth before) = Some zero ∧
         cell Xs i (totalWidth before) = Some zero.
Proof.
  intros Hlen Hk Hcat Hflags feats sch enc X0 Xs.
  assert (Hget : JsObj.get k feats
                 = Some {| name := k; type := boolean; stats := None;
                           values := Some ["True"; "False"]%string |}).
  { apply flag_recast; [done|done|].
    intros r Hr. destruct (Hflags r Hr) as (v & ? & ? & _). by exists v. }
  set (f := {| name := k; type := boolean; stats := None;
               values := Some ["True"; "False"]%string |}) in *.
  destruct (list_elem_of_split _ _ (get_Some_elem_of _ _ _ Hget))
    as (before & after & Hsplit).
  assert (Hkeys : NoDup (JsObj.keys (features sch)))
    by apply inferredFeatures_NoDup.
  assert (Hagree : agrees enc (before ++ (k, f) :: after)).
  { rewrite <-Hsplit. by apply buildEncoders_agrees. }
  assert (Hcells : ∀ r, r ∈ rows → encodeFeature enc r (k, f) = [zero]).
  { intros r Hr. destruct (Hflags r Hr) as (v & Hv & _ & Hne).
    unfold encodeFeature. cbn [type f]. rewrite Hv. cbn [String_].
    by rewrite (proj2 (String.eqb_neq _ _) Hne). }
  assert (Hkind : columnKinds feats !! totalWidth before = Some boolean).
  { rewrite Hsplit. by apply (columnKinds_at_feature before k f after). }
  assert (HX0 : ∀ row, row ∈ X0 → row !! totalWidth before = Some zero).
  { intros row (r & -> & Hr)%list_elem_of_fmap. cbn [features sch].
    fold feats. rewrite Hsplit. apply encodeRow_at_feature; [done|].
    by apply Hcells. }
  exists f, before, after. split_and!; try done.
  intros i Hi.
  destruct (lookup_lt_is_Some_2 X0 i) as [row0 Hrow0].
  { unfold X0. by rewrite encodeAll_length. }
  assert (Hcell0 : cell X0 i (totalWidth before) = Some zero).
  { unfold cell. rewrite Hrow0. simpl. apply HX0.
    by eapply list_elem_of_lookup_2. }
  split; [done|].
  pose proof (Xs_cell sch rows ty Hkeys i (totalWidth before) zero Hcell0) as Hc.
  change (cell Xs i (totalWidth before)
          = Some (if decide (totalWidth before ∈ numericColIdx enc feats)
                  then rescaled ty (fitColumn X0 (totalWidth before)) zero
                  else zero)) in Hc.
  rewrite Hc. destruct (decide _) as [_|_]; [|done].
  destruct rows as [|r0 rest]; [simpl in Hi; lia|].
  rewrite (fitColumn_zeros X0 (totalWidth before) (length rest)).
  - by rewrite rescaled_zero.
  - rewrite (finiteColumn_zeros X0 _ HX0). unfold X0.
    by rewrite encodeAll_length.
  - exact Hlen.
Qed.

Lemma lowercase_flags_encode_to_zero_witness :
  let feats := inferredFeatures flagRows in
  let sch := {| features := feats; target := targetName |} in
  let enc := fst (buildEncoders feats) in
  let X0 := encodeAll enc sch flagRows in
  let Xs := scaleAll "standard" (numericColIdx enc feats) X0 in
  ∃ (f : Feature) (before after : JsObj.obj Feature),
    feats = before ++ ("holiday"%string, f) :: after ∧
    type f = boolean ∧
    values f = Some ["True"; "False"]%string ∧
    (∀ r, r ∈ flagRows → encodeFeature enc r ("holiday"%string, f) = [zero]) ∧
    columnKinds feats !! totalWidth before = Some boolean ∧
    ∀ i, i < length flagRows →
         cell X0 i (totalWidth before) = Some zero ∧
         cell Xs i (totalWidth before) = Some zero.
Proof.
  apply (lowercase_flags_encode_to_zero flagRows "holiday" "standard").
  - by vm_compute.
  - apply (bool_decide_unpack _). by vm_compute.
  - reflexivity.
  - intros r Hr.
    apply elem_of_cons in Hr as [->|Hr];
      [|apply elem_of_cons in Hr as [->|Hr]; [|inversion Hr]].
    + exists "true"%string. by vm_compute.
    + exists "false"%string. by vm_compute.
Defined.

(** * Further properties of the loader and of the page *)

(** ** Reading the prepared matrices back *)

Lemma mapR_rowAt {A : Type} (l : list A) (ns : list nat) :
  mapR (rowAt (Some l)) ((λ n, Some (Z.of_nat n)) <$> ns) = Ok ((l !!.) <$> ns).
Proof.
  induction ns as [|n ns IH]; [done|].
  cbn [fmap list_fmap mapR rowAt]. fold (@fmap list _ _ _ (λ n, Some (Z.of_nat n)) ns).
  rewrite IH. rewrite (proj2 (Z.leb_le _ _)) by lia. by rewrite Nat2Z.id.
Qed.

Lemma mapR_length {A B : Type} (f : A → result B) l bs :
  mapR f l = Ok bs → length bs = length l.
Proof.
  revert bs. induction l as [|x l IH]; intros bs; simpl.
  - by intros [= <-].
  - destruct (f x); [|done]. destruct (mapR f l); [|done].
    intros [= <-]. simpl. by rewrite (IH _ eq_refl).
Qed.

Lemma mapR_rowAt_total {A : Type} (l : list A) (idxs : list (option Z)) :
  ∃ bs, mapR (rowAt (Some l)) idxs = Ok bs.
Proof.
  induction idxs as [|i idxs [bs IH]]; [by eexists|].
  cbn [mapR rowAt]. rewrite IH. by eexists.
Qed.

Lemma mapR_rowAt_cases {A : Type} (field : option (list A)) (idxs : list (option Z)) :
  (field = None ∧ idxs ≠ [] ∧ mapR (rowAt field) idxs = Throw TypeError)
  ∨ (∃ bs, mapR (rowAt field) idxs = Ok bs ∧ (field ≠ None ∨ idxs = [])
           ∧ (idxs = [] → bs = [])).
Proof.
  destruct field as [l|].
  - right. destruct (mapR_rowAt_total l idxs) as [bs Hbs]. exists bs.
    split_and!; [done|by left|]. intros ->. simpl in Hbs. by simplify_eq.
  - destruct idxs as [|i idxs]; [right|left]; [|done].
    exists []. split_and!; [done|by right|done].
Qed.

Lemma mapR_null {A : Type} (idxs : list (option Z)) :
  mapR (rowAt (@None (list A))) idxs
  = match idxs with [] => Ok [] | _ :: _ => Throw TypeError end.
Proof. by destruct idxs. Qed.

(** The three index lists of a split, as lists of row numbers. *)
Lemma makeSplit_rows N seed :
  (0 ≤ seed)%Z → (Z.of_nat N < 2 ^ 53)%Z →
  ∃ tr va te : list nat,
    makeSplit N seed
    = {| idxTrain := (λ n, Some (Z.of_nat n)) <$> tr;
         idxVal := (λ n, Some (Z.of_nat n)) <$> va;
         idxTest := (λ n, Some (Z.of_nat n)) <$> te |} ∧
    tr ++ va ++ te ≡ₚ seq 0 N ∧
    Z.of_nat (length tr) = nTrainOf N ∧
    Z.of_nat (length va) = nValOf N.
Proof.
  intros Hseed HN.
  destruct (shuffled_range N seed Hseed HN) as [Hperm Hlen].
  destruct (split_sizes_fit N HN) as (Htrain & Hval & Hfit).
  set (idx := elems (shuffle (range N) seed)) in *.
  assert (Hcat : slice idx 0 (Some (nTrainOf N))
                 ++ slice idx (nTrainOf N) (Some (nTrainOf N + nValOf N)%Z)
                 ++ slice idx (nTrainOf N + nValOf N)%Z None = idx)
    by (by apply slice_partition).
  destruct (slice_lengths idx (nTrainOf N) (nValOf N)) as (L1 & L2 & _);
    [done|done|lia|].
  apply Permutation_map_inv in Hperm as (l3 & Hidx & Hl3).
  rewrite Hidx in Hcat. symmetry in Hcat.
  apply fmap_app_inv in Hcat as (tr & rest & Htr & Hrest & Hl).
  symmetry in Hrest. apply fmap_app_inv in Hrest as (va & te & Hva & Hte & Hl').
  exists tr, va, te. unfold makeSplit. fold idx. rewrite Hidx in L1, L2 |- *.
  split_and!.
  - by rewrite Htr, Hva, Hte.
  - by rewrite Hl3, Hl, Hl'.
  - rewrite <-L1, Htr. by rewrite length_fmap.
  - rewrite <-L2, Hva. by rewrite length_fmap.
Qed.

Lemma lookup_rows_zip {A B : Type} (l : list A) (k : list B) :
  length l = length k →
  (λ n, (l !! n, k !! n)) <$> seq 0 (length l) = zip (Some <$> l) (Some <$> k).
Proof.
  intros Hlen. apply list_eq. intros i.
  rewrite list_lookup_fmap.
  destruct (decide (i < length l)) as [Hi|Hi].
  - rewrite lookup_seq_lt by done. simpl.
    destruct (lookup_lt_is_Some_2 l i Hi) as [a Ha].
    destruct (lookup_lt_is_Some_2 k i ltac:(lia)) as [b Hb].
    rewrite Ha, Hb. symmetry. apply lookup_zip_with_Some.
    exists (Some a), (Some b). by rewrite !list_lookup_fmap, Ha, Hb.
  - rewrite lookup_seq_ge by lia. simpl. symmetry.
    apply lookup_ge_None_2. rewrite length_zip_with, !length_fmap. lia.
Qed.

Lemma zip_fmap_same {A B C : Type} (f : A → B) (g : A → C) (l : list A) :
  zip (f <$> l) (g <$> l) = (λ x, (f x, g x)) <$> l.
Proof. induction l as [|x l IH]; [done|]. cbn. by f_equal. Qed.

Lemma getTensors_run part st Xm ym (ns : list nat) :
  X st = Some Xm → y st = Some ym →
  partOf part (split st) = (λ n, Some (Z.of_nat n)) <$> ns →
  getTensors part st
  = (st, Ok {| t_X := (Xm !!.) <$> ns; t_y := (ym !!.) <$> ns |}).
Proof.
  intros HX Hy Hpart. unfold getTensors, bind, read, call, ret.
  by rewrite Hpart, HX, Hy, !mapR_rowAt.
Qed.

(** What a call of [prepareMatrices] on a loaded table leaves, with the
    split given as lists of row numbers. *)
Lemma prepared_parts cb ty seed st sch rows :
  schema st = Some sch →
  raw st = Some rows →
  (0 ≤ seed)%Z →
  (Z.of_nat (length rows) < 2 ^ 53)%Z →
  let st' := fst (prepareMatrices cb ty seed st) in
  ∃ Xm ym (tr va te : list nat),
    X st' = Some Xm ∧ y st' = Some ym ∧
    length Xm = length rows ∧ length ym = length rows ∧
    schema st' = Some sch ∧ raw st' = Some rows ∧
    split st' = {| idxTrain := (λ n, Some (Z.of_nat n)) <$> tr;
                   idxVal := (λ n, Some (Z.of_nat n)) <$> va;
                   idxTest := (λ n, Some (Z.of_nat n)) <$> te |} ∧
    tr ++ va ++ te ≡ₚ seq 0 (length rows) ∧
    Z.of_nat (length tr) = nTrainOf (length rows) ∧
    Z.of_nat (length va) = nValOf (length rows).
Proof.
  intros Hsch Hraw Hseed HN st'.
  unfold st'. rewrite (prepareMatrices_run _ _ _ _ _ _ Hsch Hraw). cbn [fst].
  destruct (makeSplit_rows (length rows) seed Hseed HN)
    as (tr & va & te & Hsp & Hperm & Ltr & Lva).
  eexists _, _, tr, va, te.
  split_and!; [reflexivity|reflexivity| | |exact Hsch|exact Hraw|exact Hsp|done..].
  - by rewrite scaleAll_length, encodeAll_length.
  - unfold targets. by rewrite length_map.
Qed.

(** X1.  After a call of [prepareMatrices] on a loaded table, with a seed
    from 0 to below 2^53, the three parts [getTensors] hands out hold every
    row of the stored matrix exactly once, each with the target entry of
    the same row: the pairs of the training, validation and test parts,
    one after the other, are a permutation of the pairs (X[i], y[i]).  No
    entry is undefined.  The training part has [Math.floor(N * 0.7)] rows
    and the validation part [Math.floor(N * 0.15)], the products taken in
    double arithmetic (62 rows, not 63, of 90), and the test part has the
    rest.  [getTensors] leaves the state alone. *)
Theorem tensors_partition_the_rows (cb : Callbacks) (ty : string) (seed : Z)
    (st : state) (sch : Schema) (rows : list Row) :
  schema st = Some sch →
  raw st = Some rows →
  (0 ≤ seed < 2 ^ 53)%Z →
  (Z.of_nat (length rows) < 2 ^ 53)%Z →
  let st' := fst (prepareMatrices cb ty seed st) in
  ∃ Xm ym tr va te,
    X st' = Some Xm ∧ y st' = Some ym ∧
    length Xm = length rows ∧ length ym = length rows ∧
    getTensors "train" st' = (st', Ok tr) ∧
    getTensors "val" st' = (st', Ok va) ∧
    getTensors "test" st' = (st', Ok te) ∧
    zip (t_X tr) (t_y tr) ++ zip (t_X va) (t_y va) ++ zip (t_X te) (t_y te)
    ≡ₚ zip (Some <$> Xm) (Some <$> ym) ∧
    Z.of_nat (length (t_X tr)) = nTrainOf (length rows) ∧
    Z.of_nat (length (t_X va)) = nValOf (length rows) ∧
    length (t_X tr) + length (t_X va) + length (t_X te) = length rows.
Proof.
  intros Hsch Hraw [Hseed _] HN st'.
  destruct (prepared_parts cb ty seed st sch rows Hsch Hraw Hseed HN)
    as (Xm & ym & tr & va & te & HX & Hy & HlX & Hly & _ & _ & Hsp & Hperm & Ltr & Lva).
  fold st' in HX, Hy, Hsp.
  exists Xm, ym,
    {| t_X := (Xm !!.) <$> tr; t_y := (ym !!.) <$> tr |},
    {| t_X := (Xm !!.) <$> va; t_y := (ym !!.) <$> va |},
    {| t_X := (Xm !!.) <$> te; t_y := (ym !!.) <$> te |}.
  split_and!; try done.
  - apply getTensors_run; [done|done|]. by rewrite Hsp.
  - apply getTensors_run; [done|done|]. by rewrite Hsp.
  - apply getTensors_run; [done|done|]. by rewrite Hsp.
  - cbn [t_X t_y]. rewrite !zip_fmap_same, <-!fmap_app, Hperm.
    rewrite <-(lookup_rows_zip Xm ym) by lia. by rewrite HlX.
  - cbn [t_X]. by rewrite length_fmap.
  - cbn [t_X]. by rewrite length_fmap.
  - cbn [t_X]. rewrite !length_fmap.
    apply Permutation_length in Hperm. rewrite !length_app, length_seq in Hperm. lia.
Qed.

Lemma tensors_partition_the_rows_witness :
  let st' := fst (prepareMatrices quiet "minmax" 1 loaded) in
  ∃ Xm ym tr va te,
    X st' = Some Xm ∧ y st' = Some ym ∧
    length Xm = length sampleRows ∧ length ym = length sampleRows ∧
    getTensors "train" st' = (st', Ok tr) ∧
    getTensors "val" st' = (st', Ok va) ∧
    getTensors "test" st' = (st', Ok te) ∧
    zip (t_X tr) (t_y tr) ++ zip (t_X va) (t_y va) ++ zip (t_X te) (t_y te)
    ≡ₚ zip (Some <$> Xm) (Some <$> ym) ∧
    Z.of_nat (length (t_X tr)) = nTrainOf (length sampleRows) ∧
    Z.of_nat (length (t_X va)) = nValOf (length sampleRows) ∧
    length (t_X tr) + length (t_X va) + length (t_X te) = length sampleRows.
Proof.
  apply (tensors_partition_the_rows quiet "minmax" 1 loaded sampleSchema sampleRows).
  - reflexivity.
  - reflexivity.
  - lia.
  - by vm_compute.
Defined.

(** X2.  [getTensors] never changes the state, and it throws (a TypeError)
    exactly when the index list of the part is not empty while [X] or [y]
    is still [null]; on a loader that has prepared nothing, whose index
    lists are empty, it returns empty arrays. *)
Theorem tensors_before_prepare (part : string) (st : state) :
  ∃ r, getTensors part st = (st, r) ∧
       (r = Throw TypeError
        ↔ partOf part (split st) ≠ [] ∧ (X st = None ∨ y st = None)) ∧
       (partOf part (split st) = [] → r = Ok {| t_X := []; t_y := [] |}) ∧
       (∀ e, r = Throw e → e = TypeError).
Proof.
  unfold getTensors, bind, read, call, ret.
  set (idxs := partOf part (split st)).
  destruct (mapR_rowAt_cases (X st) idxs) as [(HX & Hne & ->)|(xs & -> & HX & Hxs)].
  { eexists. split; [done|]. split_and!.
    - split; [intros _; split; [done|by left]|done].
    - intros Hnil. by destruct Hne.
    - by intros e [= <-]. }
  destruct (mapR_rowAt_cases (y st) idxs) as [(Hy & Hne & ->)|(ys & -> & Hy & Hys)].
  { eexists. split; [done|]. split_and!.
    - split; [intros _; split; [done|by right]|done].
    - intros Hnil. by destruct Hne.
    - by intros e [= <-]. }
  eexists. split; [done|]. split_and!.
  - split; [done|]. intros [Hne [Hn|Hn]]; [destruct HX as [HX|HX]|destruct Hy as [Hy|Hy]];
      congruence.
  - intros Hnil. by rewrite (Hxs Hnil), (Hys Hnil).
  - done.
Qed.

(** ** The filter engine: which indices are returned *)

Lemma combine_lookup {A B : Type} (l1 : list A) (l2 : list B) i :
  combine l1 l2 !! i
  = match l1 !! i, l2 !! i with Some a, Some b => Some (a, b) | _, _ => None end.
Proof.
  revert l2 i. induction l1 as [|a l1 IH]; intros [|b l2] [|i]; simpl; try done.
  by destruct (l1 !! i).
Qed.

Lemma elem_of_combine_seq {A : Type} (l : list A) i x :
  (i, x) ∈ combine (seq 0 (length l)) l ↔ l !! i = Some x.
Proof.
  rewrite list_elem_of_lookup. split.
  - intros (j & Hj). rewrite combine_lookup in Hj.
    destruct (seq 0 (length l) !! j) as [a|] eqn:Ha; [|done].
    destruct (l !! j) as [b|] eqn:Hb; [|done].
    apply lookup_seq in Ha as [-> _]. by simplify_eq.
  - intros Hx. exists i. rewrite combine_lookup, Hx.
    rewrite lookup_seq_lt by (by eapply lookup_lt_Some). done.
Qed.

Lemma filterIndices_spec feats filters rows i :
  i ∈ filterIndices feats filters rows
  ↔ ∃ r, rows !! i = Some r ∧ rowPasses feats filters r = true.
Proof.
  rewrite filterIndices_filter, list_elem_of_fmap. split.
  - intros ([j r] & -> & Hin). apply list_elem_of_In, filter_In in Hin as [Hin Hk].
    apply list_elem_of_In, elem_of_combine_seq in Hin. by exists r.
  - intros (r & Hr & Hp). exists (i, r). split; [done|].
    apply list_elem_of_In, filter_In. split; [|done].
    by apply list_elem_of_In, elem_of_combine_seq.
Qed.



Lemma filter_all {A : Type} (l : list A) : List.filter (λ _, true) l = l.
Proof. induction l as [|x l IH]; simpl; by rewrite ?IH. Qed.



Lemma rowPasses_spec feats filters r :
  rowPasses feats filters r = true
  ↔ ∀ k f, (k, f) ∈ feats →
      (∀ flt, filters !! k = Some flt → passes f flt (JsObj.get k r) = true) ∧
      (filters !! k = None → k ∈ JsObj.prototypeNames →
       passes f inheritedEntry (JsObj.get k r) = true).
Proof.
  unfold rowPasses, entryOf. rewrite forallb_forall. split.
  - intros H k f Hin. specialize (H (k, f)). simpl in H. split.
    + intros flt Hflt. rewrite Hflt in H. apply H. by apply list_elem_of_In.
    + intros Hnone Hp. rewrite Hnone, bool_decide_true in H by done.
      apply H. by apply list_elem_of_In.
  - intros H [k f] Hin%list_elem_of_In. destruct (H k f Hin) as [Hown Hinh].
    destruct (filters !! k) as [flt|] eqn:E; [by apply Hown|].
    case_bool_decide; [by apply Hinh|done].
Qed.





(** On the scenario, the filter on the road type returns the urban row;
    with bounds on the speed limit as well, set to exclude it, none. *)
Example filtered_indices_of_the_scenario :
  snd (indicesByFilters (fun _ => Ok (<["road_type"%string := urbanOnly]> ∅)) loaded)
  = Ok [0] ∧
  snd (indicesByFilters
         (fun _ => Ok (<["speed_limit"%string :=
                          {| f_min := Some (Number "60"); f_max := Some (Number "100");
                             f_mode := None; f_set := None |}]>
                       (<["road_type"%string := urbanOnly]> ∅))) loaded)
  = Ok [].
Proof. by vm_compute. Qed.

(** ** The filtered test set *)

Lemma passesTest_passes f flt v : passesTest f flt v = passes f flt v.
Proof.
  unfold passesTest, passes. destruct (type f); [|done|done].
  destruct (Number_isFinite _); [|done]. simpl.
  by destruct (f_min flt), (f_max flt).
Qed.

Lemma forallb_passesTest feats filters (r : Row) :
  forallb (fun '(k, f) =>
             match entryOf filters k with
             | Some flt => passesTest f flt (JsObj.get k r)
             | None => true
             end) feats
  = rowPasses feats filters r.
Proof.
  unfold rowPasses. induction feats as [|[k f] feats IH]; [done|].
  cbn [forallb]. rewrite IH. by destruct (entryOf filters k); rewrite ?passesTest_passes.
Qed.

Lemma testRow_at rows sch filters (n : nat) r :
  rows !! n = Some r →
  testRow (Some rows) (Some sch) filters (Some (Z.of_nat n))
  = Ok (rowPasses (features sch) filters r).
Proof.
  intros Hr. unfold testRow, rowAt.
  rewrite (proj2 (Z.leb_le _ _)) by lia. rewrite Nat2Z.id, Hr.
  rewrite <-forallb_passesTest. by destruct (features sch).
Qed.

Lemma filterTest_run rows sch filters (te : list nat) :
  (∀ n, n ∈ te → n < length rows) →
  filterTest (Some rows) (Some sch) filters ((λ n, Some (Z.of_nat n)) <$> te)
  = Ok ((λ n, Some (Z.of_nat n))
          <$> List.filter
                (λ n, bool_decide (n ∈ filterIndices (features sch) filters rows)) te).
Proof.
  induction te as [|n te IH]; intros Hin; [done|].
  cbn [fmap list_fmap filterTest List.filter].
  fold (@fmap list _ _ _ (λ n, Some (Z.of_nat n)) te).
  destruct (lookup_lt_is_Some_2 rows n) as [r Hr]; [apply Hin; by left|].
  rewrite (testRow_at _ _ _ _ _ Hr), IH by (intros m Hm; apply Hin; by right).
  assert (Hdec : bool_decide (n ∈ filterIndices (features sch) filters rows)
                 = rowPasses (features sch) filters r).
  { destruct (rowPasses (features sch) filters r) eqn:Hp.
    - apply bool_decide_eq_true_2, filterIndices_spec. by exists r.
    - apply bool_decide_eq_false_2. intros (r' & Hr' & Hp')%filterIndices_spec.
      congruence. }
  rewrite Hdec. by destruct (rowPasses _ _ r).
Qed.

Lemma getFilteredTest_run rf st sch rows Xm ym (te : list nat) filters :
  schema st = Some sch → raw st = Some rows →
  X st = Some Xm → y st = Some ym →
  idxTest (split st) = (λ n, Some (Z.of_nat n)) <$> te →
  (∀ n, n ∈ te → n < length rows) →
  rf (Some sch) = Ok filters →
  let keep := List.filter
                (λ n, bool_decide (n ∈ filterIndices (features sch) filters rows)) te in
  getFilteredTest rf st
  = (st, Ok {| ft_X := (Xm !!.) <$> keep; ft_y := (ym !!.) <$> keep;
               ft_n := length keep |}).
Proof.
  intros Hsch Hraw HX Hy Hte Hin Hrf keep.
  unfold getFilteredTest, bind, read, call, ret.
  rewrite Hsch, Hrf, Hraw, Hte, (filterTest_run _ _ _ _ Hin), HX, Hy.
  fold keep. by rewrite !mapR_rowAt, length_fmap.
Qed.

Lemma parts_in_range (tr va te : list nat) N :
  tr ++ va ++ te ≡ₚ seq 0 N → ∀ n, n ∈ te → n < N.
Proof.
  intros Hperm n Hn.
  assert (n ∈ seq 0 N) as Hin%elem_of_seq; [|lia].
  rewrite <-Hperm, !elem_of_app. by right; right.
Qed.

(** No feature finds an entry, neither in the filter object nor on its
    prototype: every row passes. *)
Lemma filterIndices_no_entry feats filters rows :
  (∀ k, k ∈ JsObj.keys feats → filters !! k = None ∧ k ∉ JsObj.prototypeNames) →
  filterIndices feats filters rows = seq 0 (length rows).
Proof.
  intros Hnone. rewrite filterIndices_filter.
  rewrite (forallb_filter_id (keeps feats filters)).
  - apply map_fst_combine_seq.
  - apply forallb_forall. intros [i r] _. unfold keeps, rowPasses.
    apply forallb_forall. intros [k f] Hin.
    destruct (Hnone k) as [Hk Hp].
    { apply list_elem_of_fmap. exists (k, f). split; [done|]. by apply list_elem_of_In. }
    by rewrite entryOf_plain, Hk.
Qed.

Lemma filter_sublist_self {A : Type} (p : A → bool) (l : list A) :
  sublist (List.filter p l) l.
Proof.
  pose proof (filter_sublist_impl p (λ _, true) l (λ _ _, eq_refl)) as H.
  by rewrite filter_all in H.
Qed.

(** X4.  On a prepared loader, [getFilteredTest] keeps, in the order of the
    test part, the row numbers of the test part that [indicesByFilters]
    returns for the same filters, and hands out the rows of [X] and [y] at
    those numbers; [n] is their count.  The two methods apply the same
    test, though each spells it out on its own. *)
Theorem filtered_test_agrees (cb : Callbacks) (ty : string) (seed : Z)
    (st : state) (sch : Schema) (rows : list Row)
    (rf : option Schema → result (gmap string Filter))
    (filters : gmap string Filter) :
  schema st = Some sch →
  raw st = Some rows →
  (0 ≤ seed < 2 ^ 53)%Z →
  (Z.of_nat (length rows) < 2 ^ 53)%Z →
  rf (Some sch) = Ok filters →
  let st' := fst (prepareMatrices cb ty seed st) in
  ∃ Xm ym (te idx : list nat) ft,
    X st' = Some Xm ∧ y st' = Some ym ∧
    idxTest (split st') = (λ n, Some (Z.of_nat n)) <$> te ∧
    indicesByFilters rf st' = (st', Ok idx) ∧
    getFilteredTest rf st' = (st', Ok ft) ∧
    let keep := List.filter (λ n, bool_decide (n ∈ idx)) te in
    ft_X ft = (Xm !!.) <$> keep ∧
    ft_y ft = (ym !!.) <$> keep ∧
    ft_n ft = length keep ∧
    ∀ n, n ∈ keep → n < length Xm ∧ n < length ym.
Proof.
  intros Hsch Hraw [Hseed _] HN Hrf st'.
  destruct (prepared_parts cb ty seed st sch rows Hsch Hraw Hseed HN)
    as (Xm & ym & tr & va & te & HX & Hy & HlX & Hly & Hsch' & Hraw' & Hsp
        & Hperm & _).
  fold st' in HX, Hy, Hsp, Hsch', Hraw'.
  pose proof (parts_in_range _ _ _ _ Hperm) as Hin.
  exists Xm, ym, te, (filterIndices (features sch) filters rows). eexists.
  split_and!; [done|done|by rewrite Hsp| | |].
  - unfold indicesByFilters, bind, read, call, ret.
    rewrite Hsch', Hrf, Hraw'. by destruct rows.
  - apply (getFilteredTest_run rf st' sch rows Xm ym te filters); try done.
    by rewrite Hsp.
  - cbn zeta. cbn [ft_X ft_y ft_n]. split_and!; try done.
    intros n Hn%list_elem_of_In%filter_In. destruct Hn as [Hn%list_elem_of_In _].
    specialize (Hin n Hn). lia.
Qed.

Lemma filtered_test_agrees_witness :
  let st' := fst (prepareMatrices quiet "minmax" 1 loaded) in
  ∃ Xm ym (te idx : list nat) ft,
    X st' = Some Xm ∧ y st' = Some ym ∧
    idxTest (split st') = (λ n, Some (Z.of_nat n)) <$> te ∧
    indicesByFilters (fun _ => Ok (<["road_type"%string := urbanOnly]> ∅)) st'
    = (st', Ok idx) ∧
    getFilteredTest (fun _ => Ok (<["road_type"%string := urbanOnly]> ∅)) st'
    = (st', Ok ft) ∧
    let keep := List.filter (λ n, bool_decide (n ∈ idx)) te in
    ft_X ft = (Xm !!.) <$> keep ∧
    ft_y ft = (ym !!.) <$> keep ∧
    ft_n ft = length keep ∧
    ∀ n, n ∈ keep → n < length Xm ∧ n < length ym.
Proof.
  apply (filtered_test_agrees quiet "minmax" 1 loaded sampleSchema sampleRows
           (fun _ => Ok (<["road_type"%string := urbanOnly]> ∅))
           (<["road_type"%string := urbanOnly]> ∅)).
  - reflexivity.
  - reflexivity.
  - lia.
  - by vm_compute.
  - reflexivity.
Defined.

(** X5.  On a prepared loader the filtered test set is a part of the test
    set: its pairs (row, target) are pairs of [getTensors('test')], in the
    same order, and [n] is the length of both arrays.  When no feature
    finds an entry, neither one of the filter object's own nor, for a
    feature named like a member of [Object.prototype], an inherited one,
    it is the whole test set. *)
Theorem filtered_test_within_test (cb : Callbacks) (ty : string) (seed : Z)
    (st : state) (sch : Schema) (rows : list Row)
    (rf : option Schema → result (gmap string Filter))
    (filters : gmap string Filter) :
  schema st = Some sch →
  raw st = Some rows →
  (0 ≤ seed < 2 ^ 53)%Z →
  (Z.of_nat (length rows) < 2 ^ 53)%Z →
  rf (Some sch) = Ok filters →
  let st' := fst (prepareMatrices cb ty seed st) in
  ∃ te ft,
    getTensors "test" st' = (st', Ok te) ∧
    getFilteredTest rf st' = (st', Ok ft) ∧
    sublist (zip (ft_X ft) (ft_y ft)) (zip (t_X te) (t_y te)) ∧
    ft_n ft = length (ft_X ft) ∧ ft_n ft = length (ft_y ft) ∧
    ft_n ft ≤ length (t_X te) ∧
    ((∀ k, k ∈ JsObj.keys (features sch) →
           filters !! k = None ∧ k ∉ JsObj.prototypeNames) →
     ft_X ft = t_X te ∧ ft_y ft = t_y te ∧ ft_n ft = length (t_X te)).
Proof.
  intros Hsch Hraw [Hseed _] HN Hrf st'.
  destruct (prepared_parts cb ty seed st sch rows Hsch Hraw Hseed HN)
    as (Xm & ym & tr & va & te & HX & Hy & HlX & Hly & Hsch' & Hraw' & Hsp
        & Hperm & _).
  fold st' in HX, Hy, Hsp, Hsch', Hraw'.
  pose proof (parts_in_range _ _ _ _ Hperm) as Hin.
  set (keep := List.filter
                 (λ n, bool_decide (n ∈ filterIndices (features sch) filters rows)) te).
  exists {| t_X := (Xm !!.) <$> te; t_y := (ym !!.) <$> te |},
         {| ft_X := (Xm !!.) <$> keep; ft_y := (ym !!.) <$> keep;
            ft_n := length keep |}.
  assert (Hsub : sublist keep te) by apply filter_sublist_self.
  split_and!.
  - apply getTensors_run; [done|done|]. by rewrite Hsp.
  - apply (getFilteredTest_run rf st' sch rows Xm ym te filters); try done.
    by rewrite Hsp.
  - cbn [ft_X ft_y t_X t_y]. rewrite !zip_fmap_same. by apply fmap_sublist.
  - cbn [ft_X ft_n]. by rewrite length_fmap.
  - cbn [ft_y ft_n]. by rewrite length_fmap.
  - cbn [ft_n t_X]. rewrite length_fmap. by apply sublist_length.
  - intros Hnone. cbn [ft_X ft_y ft_n t_X t_y].
    assert (Hall : keep = te).
    { unfold keep. rewrite filterIndices_no_entry by done.
      rewrite <-(filter_all te) at 2. apply filter_ext_in_iff. intros n Hn%list_elem_of_In.
      apply bool_decide_eq_true_2, elem_of_seq. specialize (Hin n Hn). lia. }
    by rewrite Hall, length_fmap.
Qed.

Lemma filtered_test_within_test_witness :
  let st' := fst (prepareMatrices quiet "minmax" 1 speedLoaded) in
  ∃ te ft,
    getTensors "test" st' = (st', Ok te) ∧
    getFilteredTest (fun _ => Ok (<["axles"%string := twoAxles]> ∅)) st'
    = (st', Ok ft) ∧
    sublist (zip (ft_X ft) (ft_y ft)) (zip (t_X te) (t_y te)) ∧
    ft_n ft = length (ft_X ft) ∧ ft_n ft = length (ft_y ft) ∧
    ft_n ft ≤ length (t_X te) ∧
    ((∀ k, k ∈ JsObj.keys (inferredFeatures speedRows) →
           (<["axles"%string := twoAxles]> ∅ : gmap string Filter) !! k = None
           ∧ k ∉ JsObj.prototypeNames) →
     ft_X ft = t_X te ∧ ft_y ft = t_y te ∧ ft_n ft = length (t_X te)).
Proof.
  apply (filtered_test_within_test quiet "minmax" 1 speedLoaded
           {| features := inferredFeatures speedRows; target := targetName |}
           speedRows
           (fun _ => Ok (<["axles"%string := twoAxles]> ∅))
           (<["axles"%string := twoAxles]> ∅)).
  - by vm_compute.
  - reflexivity.
  - lia.
  - by vm_compute.
  - reflexivity.
Defined.

(** The same run, computed: of the eleven rows three are test rows, and
    the filter on two axles keeps two of them; the empty filter object
    keeps all three. *)
Example filtered_test_of_the_speed_table :
  let st' := fst (prepareMatrices quiet "minmax" 1 speedLoaded) in
  let count (r : result Filtered) :=
    match r with Ok ft => Some (ft_n ft) | Throw _ => None end in
  idxTest (split st') = [Some 6; Some 1; Some 0]%Z ∧
  count (snd (getFilteredTest (fun _ => Ok (<["axles"%string := twoAxles]> ∅)) st'))
  = Some 2 ∧
  count (snd (getFilteredTest (fun _ => Ok ∅) st')) = Some 3.
Proof. by vm_compute. Qed.

(** ** The filters of the page *)

Lemma readFeatureFilters_fold doc feats (acc : gmap string Filter) k :
  fold_left (fun filters '(k, f) => <[k := App.entryFor doc k f]> filters) feats acc !! k
  = match last (List.filter (λ kf, String.eqb (fst kf) k) feats) with
    | Some (_, f) => Some (App.entryFor doc k f)
    | None => acc !! k
    end.
Proof.
  induction feats as [|[k' f] feats IH] using rev_ind; [done|].
  rewrite fold_left_app, List.filter_app. cbn [fold_left List.filter fst].
  destruct (String.eqb k' k) eqn:E.
  - apply String.eqb_eq in E as ->. by rewrite last_snoc, lookup_insert_eq.
  - apply String.eqb_neq in E. rewrite app_nil_r, lookup_insert_ne by done. apply IH.
Qed.

Lemma readFeatureFilters_entry doc sch filters k :
  App.readFeatureFilters doc (Some sch) = Ok filters →
  (is_Some (filters !! k) ↔ k ∈ JsObj.keys (features sch)) ∧
  (∀ flt, filters !! k = Some flt →
          ∃ f, (k, f) ∈ features sch ∧ flt = App.entryFor doc k f).
Proof.
  intros [= <-]. rewrite readFeatureFilters_fold, lookup_empty.
  set (l := List.filter (λ kf, String.eqb (fst kf) k) (features sch)).
  assert (Hl : ∀ kf, kf ∈ l ↔ kf ∈ features sch ∧ fst kf = k).
  { intros kf. unfold l. rewrite list_elem_of_In, filter_In, <-list_elem_of_In.
    by rewrite String.eqb_eq. }
  destruct (last l) as [[k' f]|] eqn:Hlast.
  - assert (Hin : (k', f) ∈ l).
    { apply last_Some in Hlast as [l' ->]. apply elem_of_app. right. by left. }
    apply Hl in Hin as [Hin Hk]. simpl in Hk. subst k'. split.
    + split; [|by eexists]. intros _. apply list_elem_of_fmap. by exists (k, f).
    + intros flt [= <-]. by exists f.
  - apply last_None in Hlast. split; [|done]. split; [by intros []|].
    intros ([k' f] & -> & Hin)%list_elem_of_fmap.
    assert ((k', f) ∈ l) as Hin' by (by apply Hl). rewrite Hlast in Hin'.
    by apply elem_of_nil in Hin'.
Qed.

Lemma passes_numeric_finite f flt v :
  type f = numeric → passes f flt v = true →
  Number_isFinite (toNumberMaybe v) = true.
Proof.
  unfold passes. intros ->. by destruct (Number_isFinite (toNumberMaybe v)).
Qed.

(** X6.  Whatever the page holds, [readFeatureFilters] stores an entry for
    every feature of the schema and for nothing else.  So when
    [indicesByFilters] is run with it, the entry of each numeric feature
    is applied, and it rejects a cell that is not a finite number before
    any bound is looked at: no row with an empty or unparsable cell in a
    numeric column is ever returned, even on a page whose controls are
    all blank or missing. *)
Theorem page_filters_want_finite_numbers (doc : App.Document) (st : state)
    (sch : Schema) (rows : list Row) :
  schema st = Some sch →
  raw st = Some rows →
  ∃ filters idx,
    App.readFeatureFilters doc (Some sch) = Ok filters ∧
    (∀ k, is_Some (filters !! k) ↔ k ∈ JsObj.keys (features sch)) ∧
    indicesByFilters (App.readFeatureFilters doc) st = (st, Ok idx) ∧
    ∀ i (r : Row) k f,
      i ∈ idx → rows !! i = Some r → (k, f) ∈ features sch → type f = numeric →
      Number_isFinite (toNumberMaybe (JsObj.get k r)) = true.
Proof.
  intros Hsch Hraw.
  destruct (App.readFeatureFilters doc (Some sch)) as [filters|e] eqn:Hrf; [|done].
  exists filters, (filterIndices (features sch) filters rows). split_and!.
  - done.
  - intros k. by apply (readFeatureFilters_entry doc sch filters k).
  - unfold indicesByFilters, bind, read, call, ret.
    rewrite Hsch, Hrf, Hraw. by destruct rows.
  - intros i r k f (r' & Hr' & Hp)%filterIndices_spec Hr Hin Hnum.
    assert (r' = r) as -> by congruence.
    destruct (readFeatureFilters_entry doc sch filters k Hrf) as [Hdom _].
    destruct (proj2 Hdom) as [flt Hflt].
    { apply list_elem_of_fmap. by exists (k, f). }
    rewrite rowPasses_spec in Hp. destruct (Hp k f Hin) as [Hown _].
    by apply (passes_numeric_finite f flt), Hown.
Qed.

Lemma page_filters_want_finite_numbers_witness :
  ∃ filters idx,
    App.readFeatureFilters (fun _ => None) (Some sampleSchema) = Ok filters ∧
    (∀ k, is_Some (filters !! k) ↔ k ∈ JsObj.keys (features sampleSchema)) ∧
    indicesByFilters (App.readFeatureFilters (fun _ => None)) loaded
    = (loaded, Ok idx) ∧
    ∀ i (r : Row) k f,
      i ∈ idx → sampleRows !! i = Some r → (k, f) ∈ features sampleSchema →
      type f = numeric →
      Number_isFinite (toNumberMaybe (JsObj.get k r)) = true.
Proof.
  apply (page_filters_want_finite_numbers (fun _ => None) loaded sampleSchema sampleRows).
  - reflexivity.
  - reflexivity.
Defined.

Lemma elem_of_get {V : Type} (o : JsObj.obj V) k v :
  NoDup (JsObj.keys o) → (k, v) ∈ o → JsObj.get k o = Some v.
Proof.
  induction o as [|[k' v'] o IH]; intros Hnd Hin; [by apply elem_of_nil in Hin|].
  apply NoDup_cons in Hnd as [Hk' Hnd]. simpl.
  apply elem_of_cons in Hin as [[= -> ->]|Hin].
  - by rewrite String.eqb_refl.
  - destruct (String.eqb k k') eqn:E; [|by apply IH].
    apply String.eqb_eq in E as ->. exfalso. apply Hk'.
    apply list_elem_of_fmap. by exists (k', v).
Qed.

Lemma same_key_same_feature {V : Type} (o : JsObj.obj V) k v v' :
  NoDup (JsObj.keys o) → (k, v) ∈ o → (k, v') ∈ o → v = v'.
Proof.
  intros Hnd H1 H2.
  apply (elem_of_get _ _ _ Hnd) in H1, H2. congruence.
Qed.

Lemma entryFor_blank doc k f :
  App.blank doc →
  App.entryFor doc k f
  = match type f with
    | numeric =>
        {| f_min := Some (S754_infinity true); f_max := Some (S754_infinity false);
           f_mode := None; f_set := None |}
    | boolean =>
        {| f_min := None; f_max := None; f_mode := Some "any"%string; f_set := None |}
    | categorical =>
        {| f_min := None; f_max := None; f_mode := None; f_set := Some ∅ |}
    end.
Proof.
  intros Hblank. unfold App.entryFor. destruct (type f).
  - assert (Hmin : App.parseFloat (default "-Infinity"%string
                                     (doc ("min_" +:+ k) ≫= App.value))
                   = S754_infinity true ∨
                   App.parseFloat (default "-Infinity"%string
                                     (doc ("min_" +:+ k) ≫= App.value)) = NaN).
    { destruct (doc ("min_" +:+ k)) as [el|] eqn:E; [|by left].
      destruct (Hblank _ _ E) as [[Hv|Hv] _]; simpl; rewrite Hv; [by left|by right]. }
    assert (Hmax : App.parseFloat (default "Infinity"%string
                                     (doc ("max_" +:+ k) ≫= App.value))
                   = S754_infinity false ∨
                   App.parseFloat (default "Infinity"%string
                                     (doc ("max_" +:+ k) ≫= App.value)) = NaN).
    { destruct (doc ("max_" +:+ k)) as [el|] eqn:E; [|by left].
      destruct (Hblank _ _ E) as [[Hv|Hv] _]; simpl; rewrite Hv; [by left|by right]. }
    by destruct Hmin as [-> | ->], Hmax as [-> | ->].
  - destruct (doc ("sel_" +:+ k)) as [el|] eqn:E; [|done].
    destruct (Hblank _ _ E) as [[Hv|Hv] _]; simpl; by rewrite Hv.
  - destruct (doc ("sel_" +:+ k)) as [el|] eqn:E; [|done].
    destruct (Hblank _ _ E) as [_ [Hv|Hv]]; simpl; by rewrite Hv.
Qed.

Lemma passes_blank f v :
  passes f match type f with
           | numeric =>
               {| f_min := Some (S754_infinity true); f_max := Some (S754_infinity false);
                  f_mode := None; f_set := None |}
           | boolean =>
               {| f_min := None; f_max := None; f_mode := Some "any"%string;
                  f_set := None |}
           | categorical =>
               {| f_min := None; f_max := None; f_mode := None; f_set := Some ∅ |}
           end v
  = match type f with
    | numeric => Number_isFinite (toNumberMaybe v)
    | _ => true
    end.
Proof.
  unfold passes. destruct (type f); cbn [f_min f_max f_mode f_set].
  - by destruct (toNumberMaybe v) as [[]|[]| |[] m e].
  - done.
  - by rewrite size_empty.
Qed.

(** X7.  On a page whose filter controls are missing or blank, the entries
    [readFeatureFilters] stores put no bound on any feature, and still
    [indicesByFilters] does not return every row: it returns exactly the
    rows in which the cell of every numeric feature is a finite number. *)
Theorem blank_page_keeps_complete_rows (doc : App.Document) (st : state)
    (sch : Schema) (rows : list Row) :
  App.blank doc →
  schema st = Some sch →
  raw st = Some rows →
  NoDup (JsObj.keys (features sch)) →
  ∃ idx,
    indicesByFilters (App.readFeatureFilters doc) st = (st, Ok idx) ∧
    ∀ i, i ∈ idx ↔
         ∃ r : Row, rows !! i = Some r ∧
           ∀ k f, (k, f) ∈ features sch → type f = numeric →
                  Number_isFinite (toNumberMaybe (JsObj.get k r)) = true.
Proof.
  intros Hblank Hsch Hraw Hnd.
  destruct (App.readFeatureFilters doc (Some sch)) as [filters|e] eqn:Hrf; [|done].
  exists (filterIndices (features sch) filters rows). split.
  { unfold indicesByFilters, bind, read, call, ret.
    rewrite Hsch, Hrf, Hraw. by destruct rows. }
  intros i. rewrite filterIndices_spec. apply exist_proper. intros r.
  apply and_iff_compat_l. rewrite rowPasses_spec. split.
  - intros Hp k f Hin Hnum.
    destruct (readFeatureFilters_entry doc sch filters k Hrf) as [Hdom _].
    destruct (proj2 Hdom) as [flt Hflt].
    { apply list_elem_of_fmap. by exists (k, f). }
    destruct (Hp k f Hin) as [Hown _].
    by apply (passes_numeric_finite f flt), Hown.
  - intros Hfin k f Hin.
    destruct (readFeatureFilters_entry doc sch filters k Hrf) as [Hdom Hent].
    split.
    + intros flt Hflt. destruct (Hent flt Hflt) as (f' & Hin' & ->).
      assert (f' = f) as -> by (by eapply same_key_same_feature).
      rewrite (entryFor_blank _ _ _ Hblank), passes_blank.
      destruct (type f) eqn:Hty; [|done|done]. by apply (Hfin k f).
    + intros Hnone _. destruct (proj2 Hdom) as [flt Hflt]; [|congruence].
      apply list_elem_of_fmap. by exists (k, f).
Qed.

Lemma blank_page_keeps_complete_rows_witness :
  let doc : App.Document :=
    fun _ => Some {| App.value := Some ""%string; App.selectedOptions := Some [] |} in
  ∃ idx,
    indicesByFilters (App.readFeatureFilters doc) gapLoaded = (gapLoaded, Ok idx) ∧
    ∀ i, i ∈ idx ↔
         ∃ r : Row, gapRows !! i = Some r ∧
           ∀ k f, (k, f) ∈ inferredFeatures gapRows → type f = numeric →
                  Number_isFinite (toNumberMaybe (JsObj.get k r)) = true.
Proof.
  apply (blank_page_keeps_complete_rows
           (fun _ => Some {| App.value := Some ""%string;
                             App.selectedOptions := Some [] |})
           gapLoaded
           {| features := inferredFeatures gapRows; target := targetName |} gapRows).
  - intros id el [= <-]. split; by right.
  - by vm_compute.
  - reflexivity.
  - apply inferredFeatures_NoDup.
Defined.

(** The same page on the table whose second record has no speed limit: the
    one feature is numeric, the filters bound nothing, and the second row
    is dropped. *)
Example blank_page_drops_the_gap :
  let doc : App.Document :=
    fun _ => Some {| App.value := Some ""%string; App.selectedOptions := Some [] |} in
  JsObj.get "speed_limit" <$> gapRows = [Some "50"; Some ""; Some "70"]%string ∧
  (λ kf, type kf.2) <$> inferredFeatures gapRows = [numeric] ∧
  App.readFeatureFilters doc (schema gapLoaded)
  = Ok {[ "speed_limit"%string :=
            {| f_min := Some (S754_infinity true);
               f_max := Some (S754_infinity false);
               f_mode := None; f_set := None |} ]} ∧
  indicesByFilters (App.readFeatureFilters doc) gapLoaded = (gapLoaded, Ok [0; 2]).
Proof. by vm_compute. Qed.

(** ** Loading *)

Lemma sampleArray_elem {A : Type} (arr : list A) n seed x :
  x ∈ sampleArray arr n seed → x ∈ arr.
Proof.
  unfold sampleArray. intros Hx%list_elem_of_In%in_flat_map.
  destruct Hx as (i & _ & Hx). destruct i as [z|]; [|done].
  destruct (0 <=? z)%Z; [|done].
  destruct (arr !! Z.to_nat z) as [a|] eqn:Ha; [|done].
  destruct Hx as [<-|[]]. by eapply list_elem_of_lookup_2.
Qed.

Lemma has_parseLine hs line k :
  k ≠ "__proto__"%string →
  JsObj.has k (parseLine hs line) = bool_decide (k ∈ hs).
Proof.
  intros Hk. rewrite has_keys. apply bool_decide_ext.
  rewrite parseLine_keys. tauto.
Qed.

Lemma has_parsed_row text r k :
  k ≠ "__proto__"%string →
  r ∈ parseCSV text → JsObj.has k r = bool_decide (k ∈ headersOf text).
Proof.
  intros Hk. rewrite parseCSV_unfold. intros (line & -> & _)%list_elem_of_fmap.
  by apply has_parseLine.
Qed.

Lemma inferSchema_fails cb st rows :
  raw st = Some rows →
  match rows with [] => True | r0 :: _ => JsObj.has targetName r0 = false end →
  inferSchema cb st = (st, Throw (Error targetMissing)).
Proof.
  intros Hraw Hrows. unfold inferSchema, bind, read, raise. rewrite Hraw.
  destruct rows as [|r0 rest]; [done|]. by rewrite Hrows.
Qed.

(** X8.  What [loadCSV] does with a fetched text, when the callbacks
    return.  The rows kept are the parsed ones, or a sample of them when a
    subset is asked for and the table is larger.  A load that returns has
    found the target column in the header and has kept some row, and it
    leaves the kept rows and the schema inferred from them.  When the
    header lacks the target column or no row is kept, the load throws the
    "Target not found" error, and by then [raw] is already overwritten
    while the schema of an earlier load stays in place.  A failed fetch
    changes nothing. *)
Theorem load_outcome (cb : Callbacks) (text : string) (useSubset : bool)
    (subsetSize : Z) (st : state) :
  (∀ m, log cb m = Ok tt) →
  (∀ s, setStatus cb s = Ok tt) →
  let rows := parseCSV text in
  let kept := if useSubset && (subsetSize <? Z.of_nat (length rows))%Z
              then sampleArray rows subsetSize 2024 else rows in
  (∀ e, loadCSV cb (Throw e) useSubset subsetSize st = (st, Throw e)) ∧
  (∀ st', loadCSV cb (Ok text) useSubset subsetSize st = (st', Ok tt) →
     targetName ∈ headersOf text ∧ kept ≠ [] ∧
     st' = set_schema (Some {| features := inferredFeatures kept;
                               target := targetName |})
                      (set_raw (Some kept) st)) ∧
  (targetName ∉ headersOf text ∨ kept = [] →
   loadCSV cb (Ok text) useSubset subsetSize st
   = (set_raw (Some kept) st, Throw (Error targetMissing))) ∧
  (useSubset = false → (kept = [] ↔ lineCount text = 1)).
Proof.
  intros Hlog Hstatus rows kept.
  assert (Hkept : ∀ r, r ∈ kept → r ∈ rows).
  { intros r. unfold kept. destruct (_ && _); [apply sampleArray_elem|done]. }
  assert (Hrun : loadCSV cb (Ok text) useSubset subsetSize st
                 = match inferSchema cb (set_raw (Some kept) st) with
                   | (st', Ok _) => (st', Ok tt)
                   | (st', Throw e) => (st', Throw e)
                   end).
  { unfold loadCSV, bind, call, read, update, ret. rewrite Hstatus, Hlog.
    fold rows. unfold kept.
    destruct (useSubset && (subsetSize <? Z.of_nat (length rows))%Z);
      rewrite ?Hlog; cbn [raw set_raw default]; rewrite ?Hlog;
      destruct (inferSchema cb _) as [st' [[]|e]]; by rewrite ?Hstatus. }
  assert (Hbad : targetName ∉ headersOf text ∨ kept = [] →
                 loadCSV cb (Ok text) useSubset subsetSize st
                 = (set_raw (Some kept) st, Throw (Error targetMissing))).
  { intros Hbad. rewrite Hrun.
    rewrite (inferSchema_fails cb _ kept); [done|done|].
    destruct kept as [|r0 rest] eqn:Ek; [done|].
    destruct Hbad as [Hbad|?]; [|done].
    rewrite (has_parsed_row text); [by apply bool_decide_eq_false_2|done|].
    apply Hkept. by left. }
  split_and!.
  - intros e. unfold loadCSV, bind, call. by rewrite Hstatus, Hlog.
  - intros st' Hok.
    destruct (decide (targetName ∈ headersOf text)) as [Htarget|Hno];
      [|rewrite Hbad in Hok by (by left); discriminate].
    destruct kept as [|r0 rest] eqn:Ek;
      [rewrite Hbad in Hok by (by right); discriminate|].
    split; [done|]. split; [done|].
    rewrite Hrun in Hok.
    rewrite (inferSchema_run cb _ r0 rest) in Hok; [|done|].
    + rewrite Hlog in Hok. by simplify_eq.
    + rewrite (has_parsed_row text); [by apply bool_decide_eq_true_2|done|].
      apply Hkept. by left.
  - exact Hbad.
  - intros ->. unfold kept. cbn [andb].
    rewrite <-length_zero_iff_nil. unfold rows.
    rewrite parseCSV_unfold, length_map, recordLines_length. unfold lineCount. lia.
Qed.

Lemma load_outcome_witness :
  let rows := parseCSV sampleText in
  let kept := if true && (1 <? Z.of_nat (length rows))%Z
              then sampleArray rows 1 2024 else rows in
  (∀ e, loadCSV quiet (Throw e) true 1 init = (init, Throw e)) ∧
  (∀ st', loadCSV quiet (Ok sampleText) true 1 init = (st', Ok tt) →
     targetName ∈ headersOf sampleText ∧ kept ≠ [] ∧
     st' = set_schema (Some {| features := inferredFeatures kept;
                               target := targetName |})
                      (set_raw (Some kept) init)) ∧
  (targetName ∉ headersOf sampleText ∨ kept = [] →
   loadCSV quiet (Ok sampleText) true 1 init
   = (set_raw (Some kept) init, Throw (Error targetMissing))) ∧
  (true = false → (kept = [] ↔ lineCount sampleText = 1)).
Proof.
  apply (load_outcome quiet sampleText true 1 init).
  - reflexivity.
  - reflexivity.
Defined.

(** The two outcomes on texts: the scenario sampled down to one row
    returns; a header without the target column ends in the error, the
    parsed row already stored. *)
Example loads_of_two_texts :
  snd (loadCSV quiet (Ok sampleText) true 1 init) = Ok tt ∧
  length <$> raw (fst (loadCSV quiet (Ok sampleText) true 1 init)) = Some 1 ∧
  loadCSV quiet (Ok ("a,b" +:+ String LF "1,2")) false 0 init
  = (set_raw (Some [[("a", "1"); ("b", "2")]]%string) init,
     Throw (Error targetMissing)).
Proof. by vm_compute. Qed.

(** ** The inferred schema *)

Lemma elem_of_observedValues rows k v :
  v ∈ observedValues rows k
  ↔ v ≠ ""%string ∧ v ≠ "undefined"%string
    ∧ ∃ r, r ∈ rows ∧ String_ (JsObj.get k r) = v.
Proof.
  unfold observedValues. rewrite list_elem_of_In, filter_In, <-list_elem_of_In.
  rewrite elem_of_Set_of, andb_true_iff, !negb_true_iff, !String.eqb_neq.
  split.
  - intros ((r & -> & Hr)%list_elem_of_fmap & H1 & H2). split_and!; try done.
    by exists r.
  - intros (H1 & H2 & r & Hr & <-). split; [|done].
    apply list_elem_of_fmap. by exists r.
Qed.

Lemma observedValues_NoDup rows k : NoDup (observedValues rows k).
Proof.
  unfold observedValues.
  eapply sublist_NoDup; [apply Set_of_NoDup|apply filter_sublist_self].
Qed.

Lemma firstPass_keys_order rows cols :
  NoDup cols → JsObj.keys (firstPass rows cols) = cols.
Proof.
  induction cols as [|c cols IH] using rev_ind; intros Hnd; [done|].
  apply NoDup_app in Hnd as (Hnd & Hdisj & _).
  rewrite firstPass_snoc, keys_set, (IH Hnd).
  unfold JsObj.has.
  destruct (JsObj.get c (firstPass rows cols)) eqn:E; [|done].
  exfalso. apply (Hdisj c); [|by left].
  apply (firstPass_keys rows cols c).
  destruct (decide (c ∈ JsObj.keys (firstPass rows cols))) as [|Hn]; [done|].
  apply get_None_keys in Hn. congruence.
Qed.

Lemma columnType_cases rows k :
  columnType rows k = numeric ∨ columnType rows k = categorical.
Proof.
  unfold columnType, sniff.
  destruct (has knownCategoricals k), (has knownNumeric k); simpl; auto.
  destruct (Nat.leb _ 10); [by right|]. destruct (gt _ _); by left.
Qed.

Lemma inferredFeatures_elem rows k f :
  (k, f) ∈ inferredFeatures rows →
  k ∈ inferredColumns rows ∧
  f = complete rows k {| name := k; type := columnType rows k;
                         stats := None; values := None |}.
Proof.
  intros Hin.
  assert (Hk : k ∈ inferredColumns rows).
  { apply (firstPass_keys rows). unfold inferredFeatures in Hin.
    rewrite <-(keys_map_values (λ k f, complete rows k f)).
    apply list_elem_of_fmap. by exists (k, f). }
  split; [done|].
  pose proof (elem_of_get _ _ _ (inferredFeatures_NoDup rows) Hin) as Hget.
  rewrite (inferredFeatures_get _ _ Hk) in Hget. congruence.
Qed.

(** X9.  The feature table that schema inference builds from rows whose
    first row has each column once.  Its keys are the columns of the first
    row in their order, the target left out; each feature carries its key
    as its name; a numeric feature has statistics and no value list, a
    boolean or categorical one a value list and no statistics; the value
    list of a boolean feature is True, False, whatever was observed. *)
Theorem schema_features (r0 : Row) (rest : list Row) :
  NoDup (JsObj.keys r0) →
  let rows := r0 :: rest in
  let feats := inferredFeatures rows in
  JsObj.keys feats
  = List.filter (fun k => negb (String.eqb k targetName)) (JsObj.keys r0) ∧
  (targetName ∉ JsObj.keys feats) ∧
  NoDup (JsObj.keys feats) ∧
  ∀ k f, (k, f) ∈ feats →
    name f = k ∧
    match type f with
    | numeric =>
        columnType rows k = numeric ∧
        stats f = Some (numericStats rows k) ∧ values f = None
    | boolean =>
        columnType rows k = categorical ∧
        stats f = None ∧ values f = Some ["True"; "False"]%string
    | categorical =>
        columnType rows k = categorical ∧
        stats f = None ∧ values f = Some (observedValues rows k)
    end.
Proof.
  intros Hnd rows feats.
  assert (Hkeys : JsObj.keys feats
                  = List.filter (fun k => negb (String.eqb k targetName))
                                (JsObj.keys r0)).
  { unfold feats, inferredFeatures. rewrite keys_map_values.
    apply firstPass_keys_order.
    eapply sublist_NoDup; [done|apply filter_sublist_self]. }
  split_and!.
  - done.
  - rewrite Hkeys, list_elem_of_In, filter_In. intros [_ H].
    by rewrite String.eqb_refl in H.
  - apply inferredFeatures_NoDup.
  - intros k f [Hk ->]%inferredFeatures_elem.
    unfold complete. cbn [name type stats values].
    destruct (columnType_cases rows k) as [-> | ->]; [done|].
    by destruct (forallb _ _).
Qed.

Lemma schema_features_witness :
  let rows := sampleRows in
  let feats := inferredFeatures rows in
  JsObj.keys feats
  = List.filter (fun k => negb (String.eqb k targetName))
                (JsObj.keys (default [] (head sampleRows))) ∧
  (targetName ∉ JsObj.keys feats) ∧
  NoDup (JsObj.keys feats) ∧
  ∀ k f, (k, f) ∈ feats →
    name f = k ∧
    match type f with
    | numeric =>
        columnType rows k = numeric ∧
        stats f = Some (numericStats rows k) ∧ values f = None
    | boolean =>
        columnType rows k = categorical ∧
        stats f = None ∧ values f = Some ["True"; "False"]%string
    | categorical =>
        columnType rows k = categorical ∧
        stats f = None ∧ values f = Some (observedValues rows k)
    end.
Proof.
  apply (schema_features (default [] (head sampleRows)) (tail sampleRows)).
  apply (bool_decide_unpack _). by vm_compute.
Defined.

Lemma categorical_values_eq (rows : list Row) (k : string) (f : Feature) :
  (k, f) ∈ inferredFeatures rows →
  type f = categorical →
  values f = Some (observedValues rows k).
Proof.
  intros [Hk ->]%inferredFeatures_elem. unfold complete. cbn [name type stats values].
  destruct (columnType_cases rows k) as [-> | ->]; [done|].
  by destruct (forallb _ _).
Qed.

(** X10.  The value list of a categorical feature holds each distinct cell
    text of its column once, in the order of first appearance, the empty
    text and the text undefined left out: a text is in the list exactly
    when it is neither of those two and is the cell of some row.  So the
    one-hot encoding finds a category for every row whose cell is not
    empty. *)
Theorem category_values (rows : list Row) (k : string) (f : Feature) :
  (k, f) ∈ inferredFeatures rows →
  type f = categorical →
  ∃ vals,
    values f = Some vals ∧
    NoDup vals ∧
    (∀ v, v ∈ vals ↔
          v ≠ ""%string ∧ v ≠ "undefined"%string ∧
          ∃ r, r ∈ rows ∧ String_ (JsObj.get k r) = v) ∧
    (∀ r, r ∈ rows →
          String_ (JsObj.get k r) ∈ vals
          ∨ JsObj.get k r = Some ""%string
          ∨ String_ (JsObj.get k r) = "undefined"%string).
Proof.
  intros Hin Hty. exists (observedValues rows k). split_and!.
  - by apply categorical_values_eq.
  - apply observedValues_NoDup.
  - apply elem_of_observedValues.
  - intros r Hr. destruct (JsObj.get k r) as [v|] eqn:Hv; [|by right; right].
    destruct (decide (v = ""%string)) as [->|Hne]; [right; by left|].
    destruct (decide (v = "undefined"%string)) as [->|Hne']; [right; by right|].
    left. apply elem_of_observedValues. split_and!; [done|done|].
    exists r. by rewrite Hv.
Qed.

Lemma category_values_witness :
  let f := {| name := "road_type"; type := categorical; stats := None;
              values := Some ["urban"; "rural"]%string |} in
  ∃ vals,
    values f = Some vals ∧
    NoDup vals ∧
    (∀ v, v ∈ vals ↔
          v ≠ ""%string ∧ v ≠ "undefined"%string ∧
          ∃ r, r ∈ sampleRows ∧ String_ (JsObj.get "road_type" r) = v) ∧
    (∀ r, r ∈ sampleRows →
          String_ (JsObj.get "road_type" r) ∈ vals
          ∨ JsObj.get "road_type" r = Some ""%string
          ∨ String_ (JsObj.get "road_type" r) = "undefined"%string).
Proof.
  apply (category_values sampleRows "road_type").
  - apply (get_Some_elem_of (inferredFeatures sampleRows) "road_type"). by vm_compute.
  - reflexivity.
Defined.

(** X11.  A feature comes out boolean exactly when the first pass typed its
    column categorical and every cell of the column, taken as text, is
    empty, is the text undefined, or spells true or false in some letter
    case.  A categorical column without a single non-empty cell is thus a
    boolean feature. *)
Theorem boolean_features (rows : list Row) (k : string) (f : Feature) :
  (k, f) ∈ inferredFeatures rows →
  (type f = boolean ↔
   columnType rows k = categorical ∧
   ∀ r, r ∈ rows →
        let v := String_ (JsObj.get k r) in
        v = ""%string ∨ v = "undefined"%string
        ∨ is_true_false (toLowerCase v) = true).
Proof.
  intros [Hk ->]%inferredFeatures_elem. unfold complete. cbn [name type stats values].
  destruct (columnType_cases rows k) as [Hty|Hty]; rewrite Hty.
  { cbn [type]. split; [done|]. by intros [? _]. }
  destruct (forallb is_true_false (map toLowerCase (observedValues rows k))) eqn:Hall;
    cbn [type].
  - split; [|done]. intros _. split; [done|]. intros r Hr. cbn zeta.
    set (v := String_ (JsObj.get k r)).
    destruct (decide (v = ""%string)) as [|H1]; [by left|].
    destruct (decide (v = "undefined"%string)) as [|H2]; [right; by left|].
    right; right. rewrite forallb_forall in Hall. apply Hall, in_map.
    apply list_elem_of_In, elem_of_observedValues. split_and!; [done|done|by exists r].
  - split; [done|]. intros [_ Hcells]. exfalso.
    apply not_true_iff_false in Hall. apply Hall, forallb_forall.
    intros x (v & <- & Hv)%in_map_iff.
    apply list_elem_of_In, elem_of_observedValues in Hv as (H1 & H2 & r & Hr & <-).
    by destruct (Hcells r Hr) as [?|[?|?]].
Qed.

Lemma boolean_features_witness :
  ∃ f, ("holiday"%string, f) ∈ inferredFeatures flagRows ∧
  (type f = boolean ↔
   columnType flagRows "holiday" = categorical ∧
   ∀ r, r ∈ flagRows →
        let v := String_ (JsObj.get "holiday" r) in
        v = ""%string ∨ v = "undefined"%string
        ∨ is_true_false (toLowerCase v) = true).
Proof.
  eexists. split; [|apply (boolean_features flagRows "holiday")];
    apply (get_Some_elem_of (inferredFeatures flagRows) "holiday"); by vm_compute.
Defined.

(** ** The statistics of a numeric feature *)

Lemma min2_either a b :
  is_nan a = false → is_nan b = false → min2 a b = a ∨ min2 a b = b.
Proof.
  intros Ha Hb. unfold min2.
  destruct (SFcompare a b) as [[]|] eqn:E; [|by left|by right|].
  - destruct a as [[]| | |]; auto.
  - by destruct a as [[]|[]| |[]], b as [[]|[]| |[]].
Qed.

Lemma max2_either a b :
  is_nan a = false → is_nan b = false → max2 a b = a ∨ max2 a b = b.
Proof.
  intros Ha Hb. unfold max2.
  destruct (SFcompare a b) as [[]|] eqn:E; [|by right|by left|].
  - destruct a as [[]| | |]; auto.
  - by destruct a as [[]|[]| |[]], b as [[]|[]| |[]].
Qed.

Lemma fold_either (f : number → number → number) l init :
  (∀ a b, is_nan a = false → is_nan b = false → f a b = a ∨ f a b = b) →
  is_nan init = false → Forall finite l →
  fold_left f l init = init ∨ fold_left f l init ∈ l.
Proof.
  intros Hf. revert init. induction l as [|x l IH]; intros init Hinit Hl; [by left|].
  apply Forall_cons in Hl as [Hx Hl]. cbn [fold_left].
  assert (Hnx : is_nan x = false) by (by apply finite_notNaN).
  destruct (Hf init x Hinit Hnx) as [E|E]; rewrite E.
  - destruct (IH init Hinit Hl) as [?|?]; [by left|right; by right].
  - destruct (IH x Hnx Hl) as [->|?]; right; [by left|by right].
Qed.

Lemma Math_min_elem l : Forall finite l → l ≠ [] → Math_min l ∈ l.
Proof.
  intros Hl Hne.
  destruct (fold_either min2 l (S754_infinity false) min2_either eq_refl Hl)
    as [E|?]; [|done].
  pose proof (Math_min_finite l Hl Hne) as Hfin. unfold Math_min in Hfin.
  by rewrite E in Hfin.
Qed.

Lemma Math_max_elem l : Forall finite l → l ≠ [] → Math_max l ∈ l.
Proof.
  intros Hl Hne.
  destruct (fold_either max2 l (S754_infinity true) max2_either eq_refl Hl)
    as [E|?]; [|done].
  pose proof (Math_max_finite l Hl Hne) as Hfin. unfold Math_max in Hfin.
  by rewrite E in Hfin.
Qed.

(** X12.  The statistics schema inference attaches to a numeric feature
    are taken over the cells of the column that parse to a finite number.
    [count] is how many there are, at most the number of rows.  When there
    is none, the statistics are min = Infinity, max = -Infinity, mean = 0
    and std = 0 (the mean falls back from NaN to 0); when there is one,
    min and max are finite and are values of the column. *)
Theorem numeric_statistics (rows : list Row) (k : string) :
  let arr := List.filter Number_isFinite
               (map (fun r => toNumberMaybe (JsObj.get k r)) rows) in
  let s := numericStats rows k in
  fs_count s = length arr ∧
  fs_count s ≤ length rows ∧
  (arr = [] →
   s = {| fs_min := S754_infinity false; fs_max := S754_infinity true;
          fs_mean := zero; fs_std := zero; fs_count := 0 |}) ∧
  (arr ≠ [] →
   fs_min s ∈ arr ∧ fs_max s ∈ arr ∧ finite (fs_min s) ∧ finite (fs_max s)).
Proof.
  intros arr s. unfold s, numericStats. fold arr. cbn [fs_count fs_min fs_max].
  assert (Hfin : Forall finite arr).
  { apply Forall_forall. intros v Hv%list_elem_of_In. by apply filter_In in Hv as [_ Hv]. }
  split_and!.
  - done.
  - pose proof (filter_sublist_self Number_isFinite
                  (map (fun r => toNumberMaybe (JsObj.get k r)) rows)) as Hs.
    apply sublist_length in Hs. by rewrite length_map in Hs.
  - by intros ->.
  - intros Hne. split_and!.
    + by apply Math_min_elem.
    + by apply Math_max_elem.
    + by apply Math_min_finite.
    + by apply Math_max_finite.
Qed.

(** ** Columns, their names and the one-hot blocks *)

Lemma flat_map_at {A B : Type} (g : B → list A) before x after j :
  j < length (g x) →
  flat_map g (before ++ x :: after) !! (length (flat_map g before) + j) = g x !! j.
Proof.
  intros Hj. rewrite flat_map_app. cbn [flat_map].
  rewrite lookup_app_r by lia.
  replace (length (flat_map g before) + j - length (flat_map g before)) with j by lia.
  by rewrite lookup_app_l.
Qed.

Lemma buildEncoders_names feats :
  snd (buildEncoders feats)
  = flat_map (fun '(k, f) =>
                match type f with
                | categorical =>
                    map (fun c => String.append k (String.append "__" c))
                        (default [] (values f))
                | _ => [k]
                end) feats.
Proof.
  induction feats as [|[k f] feats IH] using rev_ind; [done|].
  rewrite buildEncoders_snoc, flat_map_app. cbn [flat_map]. rewrite app_nil_r, <-IH.
  destruct (buildEncoders feats) as [enc names]. by destruct (type f).
Qed.

Lemma names_offset before :
  length (flat_map (fun '(k, f) =>
                      match type f with
                      | categorical =>
                          map (fun c => String.append k (String.append "__" c))
                              (default [] (values f))
                      | _ => [k]
                      end) before)
  = totalWidth before.
Proof. by rewrite <-buildEncoders_names, buildEncoders_names_length. Qed.

Lemma encodeRow_block enc before k f after r j :
  agrees enc (before ++ (k, f) :: after) →
  j < widthOfFeature f →
  encodeRow enc (before ++ (k, f) :: after) r !! (totalWidth before + j)
  = encodeFeature enc r (k, f) !! j.
Proof.
  intros Hagree Hj.
  rewrite <-(encodeRow_length enc before r (agrees_app_l _ _ _ Hagree)).
  rewrite !encodeRow_flat. apply flat_map_at.
  rewrite (encodeFeature_length enc _ r k f Hagree); [done|].
  apply elem_of_app. right. by left.
Qed.

Lemma columnKinds_block before k f after j :
  j < widthOfFeature f →
  columnKinds (before ++ (k, f) :: after) !! (totalWidth before + j) = Some (type f).
Proof.
  intros Hj. rewrite <-columnKinds_length. unfold columnKinds.
  rewrite (flat_map_at _ before (k, f) after j) by (by rewrite length_replicate).
  by apply lookup_replicate_2.
Qed.

Lemma onehot_absent (v : string) cats :
  v ∉ cats →
  map (fun c => indicator (String.eqb v c)) cats = replicate (length cats) zero.
Proof.
  induction cats as [|c cats IH]; intros Hv; [done|].
  apply not_elem_of_cons in Hv as [Hne Hv]. simpl.
  by rewrite (proj2 (String.eqb_neq _ _) Hne), IH.
Qed.

Lemma onehot_present (v : string) cats j :
  NoDup cats → cats !! j = Some v →
  map (fun c => indicator (String.eqb v c)) cats
  = <[j := one]> (replicate (length cats) zero).
Proof.
  revert j. induction cats as [|c cats IH]; intros j Hnd Hj; [done|].
  apply NoDup_cons in Hnd as [Hc Hnd]. destruct j as [|j]; simpl in *.
  - injection Hj as ->. rewrite String.eqb_refl. by rewrite onehot_absent.
  - assert (v ≠ c) as Hne.
    { intros ->. apply Hc. by eapply list_elem_of_lookup_2. }
    by rewrite (proj2 (String.eqb_neq _ _) Hne), (IH j).
Qed.

(** X13.  One row of the one-hot block of a categorical feature, for a
    schema inferred from the same rows: the block has one cell per
    category; when the cell of the row is empty (or the text undefined) all
    of them are 0, and otherwise exactly one is 1, the one at the place of
    the cell's text in the category list. *)
Theorem one_hot_block (rows : list Row) (k : string) (f : Feature) (r : Row) :
  (k, f) ∈ inferredFeatures rows →
  type f = categorical →
  r ∈ rows →
  let enc := fst (buildEncoders (inferredFeatures rows)) in
  let block := encodeFeature enc r (k, f) in
  let v := String_ (JsObj.get k r) in
  ∃ vals,
    values f = Some vals ∧
    length block = length vals ∧
    (v = ""%string ∨ v = "undefined"%string →
     block = replicate (length vals) zero) ∧
    (v ≠ ""%string → v ≠ "undefined"%string →
     ∃ j, vals !! j = Some v ∧
          block = <[j := one]> (replicate (length vals) zero) ∧
          ∀ j', block !! j' = Some one ↔ j' = j).
Proof.
  intros Hin Hty Hr enc block v.
  pose proof (categorical_values_eq rows k f Hin Hty) as Hvals.
  set (vals := observedValues rows k) in *.
  pose proof (observedValues_NoDup rows k) as Hnd. fold vals in Hnd.
  assert (Hmem : ∀ x, x ∈ vals ↔
                      x ≠ ""%string ∧ x ≠ "undefined"%string ∧
                      ∃ r, r ∈ rows ∧ String_ (JsObj.get k r) = x)
    by apply elem_of_observedValues.
  pose proof (buildEncoders_agrees _ (inferredFeatures_NoDup rows) k f Hin Hty) as Henc.
  fold enc in Henc. rewrite Hvals in Henc. cbn [default] in Henc.
  assert (Hblock : block = map (fun c => indicator (String.eqb v c)) vals).
  { unfold block, encodeFeature. by rewrite Hty, Henc. }
  exists vals. split_and!.
  - done.
  - by rewrite Hblock, length_map.
  - intros Hv. rewrite Hblock. apply onehot_absent.
    intros (H1 & H2 & _)%Hmem. by destruct Hv.
  - intros H1 H2.
    assert (Hv : v ∈ vals) by (apply Hmem; split_and!; [done|done|by exists r]).
    apply list_elem_of_lookup in Hv as [j Hj]. exists j.
    rewrite Hblock, (onehot_present v vals j Hnd Hj). split_and!; [done|done|].
    intros j'. destruct (decide (j' = j)) as [->|Hne].
    + split; [done|]. intros _. apply list_lookup_insert_eq.
      rewrite length_replicate. by eapply lookup_lt_Some.
    + rewrite list_lookup_insert_ne by done. split; [|done].
      by intros [? _]%lookup_replicate_1.
Qed.

Lemma one_hot_block_witness :
  let f := {| name := "road_type"; type := categorical; stats := None;
              values := Some ["urban"; "rural"]%string |} in
  let r := default [] (head sampleRows) in
  let enc := fst (buildEncoders (inferredFeatures sampleRows)) in
  let block := encodeFeature enc r ("road_type"%string, f) in
  let v := String_ (JsObj.get "road_type" r) in
  ∃ vals,
    values f = Some vals ∧
    length block = length vals ∧
    (v = ""%string ∨ v = "undefined"%string →
     block = replicate (length vals) zero) ∧
    (v ≠ ""%string → v ≠ "undefined"%string →
     ∃ j, vals !! j = Some v ∧
          block = <[j := one]> (replicate (length vals) zero) ∧
          ∀ j', block !! j' = Some one ↔ j' = j).
Proof.
  apply (one_hot_block sampleRows "road_type").
  - apply (get_Some_elem_of (inferredFeatures sampleRows) "road_type"). by vm_compute.
  - reflexivity.
  - apply (list_elem_of_lookup_2 sampleRows 0). reflexivity.
Defined.

(** X14.  The names [prepareMatrices] returns follow the columns of the
    matrix it stores.  For the feature that comes after the features
    [before] in the schema, the columns start at the summed width of
    [before]: a numeric or boolean feature has its key as the name of
    that one column; a categorical feature has, for its [j]-th category
    [c], the name [k__c] at the [j]-th column of its block, and the cell
    of a row in that column is 1 when the row's cell text is [c] and 0
    otherwise, scaling leaving it alone. *)
Theorem names_follow_columns (cb : Callbacks) (ty : string) (seed : Z)
    (st : state) (sch : Schema) (rows : list Row) (featNames : list string)
    (before after : JsObj.obj Feature) (k : string) (f : Feature) :
  schema st = Some sch →
  raw st = Some rows →
  NoDup (JsObj.keys (features sch)) →
  snd (prepareMatrices cb ty seed st) = Ok featNames →
  features sch = before ++ (k, f) :: after →
  let c0 := totalWidth before in
  let Xm := default [] (X (fst (prepareMatrices cb ty seed st))) in
  length featNames = totalWidth (features sch) ∧
  match type f with
  | categorical =>
      ∀ j c, default [] (values f) !! j = Some c →
        featNames !! (c0 + j) = Some (String.append k (String.append "__" c)) ∧
        columnKinds (features sch) !! (c0 + j) = Some categorical ∧
        ∀ i (r : Row), rows !! i = Some r →
          cell Xm i (c0 + j)
          = Some (indicator (String.eqb (String_ (JsObj.get k r)) c))
  | t =>
      featNames !! c0 = Some k ∧ columnKinds (features sch) !! c0 = Some t
  end.
Proof.
  intros Hsch Hraw Hkeys Hret Hfeats c0 Xm.
  rewrite (prepareMatrices_run _ _ _ _ _ _ Hsch Hraw) in Hret. cbn [snd] in Hret.
  assert (Hnames : featNames = snd (buildEncoders (features sch))).
  { destruct (log cb _); [|done]. by injection Hret as <-. }
  unfold Xm. rewrite (prepareMatrices_run _ _ _ _ _ _ Hsch Hraw).
  cbn [fst X preparedState]. change (default [] (Some ?m)) with m. clear Xm Hret.
  set (enc := fst (buildEncoders (features sch))).
  set (X0 := encodeAll enc sch rows).
  pose proof (buildEncoders_agrees _ Hkeys) as Hagree. fold enc in Hagree.
  assert (Hin : (k, f) ∈ features sch).
  { rewrite Hfeats. apply elem_of_app. right. by left. }
  split; [by rewrite Hnames, buildEncoders_names_length|].
  assert (Hname : ∀ j,
            j < length (match type f with
                        | categorical =>
                            map (fun c => String.append k (String.append "__" c))
                                (default [] (values f))
                        | _ => [k]
                        end) →
            featNames !! (c0 + j)
            = match type f with
              | categorical =>
                  map (fun c => String.append k (String.append "__" c))
                      (default [] (values f))
              | _ => [k]
              end !! j).
  { intros j Hj. rewrite Hnames, buildEncoders_names, Hfeats.
    unfold c0. rewrite <-names_offset.
    by rewrite (flat_map_at _ before (k, f) after j Hj). }
  destruct (type f) eqn:Hty.
  - split.
    + rewrite <-(Nat.add_0_r c0). by rewrite Hname by (simpl; lia).
    + rewrite Hfeats, <-(Nat.add_0_r c0), <-Hty.
      apply columnKinds_block. unfold widthOfFeature. rewrite Hty. lia.
  - split.
    + rewrite <-(Nat.add_0_r c0). by rewrite Hname by (simpl; lia).
    + rewrite Hfeats, <-(Nat.add_0_r c0), <-Hty.
      apply columnKinds_block. unfold widthOfFeature. rewrite Hty. lia.
  - intros j c Hc.
    assert (Hj : j < length (default [] (values f))) by (by eapply lookup_lt_Some).
    assert (Hkind : columnKinds (features sch) !! (c0 + j) = Some categorical).
    { rewrite Hfeats, <-Hty. apply columnKinds_block. unfold widthOfFeature.
      by rewrite Hty. }
    split_and!.
    + rewrite Hname by (by rewrite length_map). by rewrite list_lookup_fmap, Hc.
    + done.
    + intros i r Hr.
      assert (Hcell : cell X0 i (c0 + j)
                = Some (indicator (String.eqb (String_ (JsObj.get k r)) c))).
      { unfold cell, X0, encodeAll. rewrite list_lookup_fmap, Hr.
        cbn [fmap option_fmap option_map mbind option_bind].
        rewrite Hfeats. unfold c0. rewrite encodeRow_block.
        - unfold encodeFeature. rewrite Hty.
          rewrite (Hagree k f Hin Hty), list_lookup_fmap, Hc. done.
        - by rewrite <-Hfeats.
        - unfold widthOfFeature. by rewrite Hty. }
      unfold X0, enc in Hcell |- *.
      rewrite (Xs_cell sch rows ty Hkeys i (c0 + j) _ Hcell).
      rewrite decide_False; [done|].
      intros (t & Ht & Hs)%(cols_spec sch Hkeys).
      rewrite Hkind in Ht. injection Ht as <-. by destruct Hs.
Qed.

Lemma names_follow_columns_witness :
  let f := {| name := "road_type"; type := categorical; stats := None;
              values := Some ["urban"; "rural"]%string |} in
  let k := "road_type"%string in
  let c0 := totalWidth [] in
  let Xm := default [] (X (fst (prepareMatrices quiet "minmax" 1 loaded))) in
  let featNames := ["road_type__urban"; "road_type__rural"; "num_lanes";
                    "curvature"; "speed_limit"]%string in
  length featNames = totalWidth (features sampleSchema) ∧
  match type f with
  | categorical =>
      ∀ j c, default [] (values f) !! j = Some c →
        featNames !! (c0 + j) = Some (String.append k (String.append "__" c)) ∧
        columnKinds (features sampleSchema) !! (c0 + j) = Some categorical ∧
        ∀ i (r : Row), sampleRows !! i = Some r →
          cell Xm i (c0 + j)
          = Some (indicator (String.eqb (String_ (JsObj.get k r)) c))
  | t =>
      featNames !! c0 = Some k ∧ columnKinds (features sampleSchema) !! c0 = Some t
  end.
Proof.
  apply (names_follow_columns quiet "minmax" 1 loaded sampleSchema sampleRows
           ["road_type__urban"; "road_type__rural"; "num_lanes";
            "curvature"; "speed_limit"]%string
           [] (tail sampleFeatures) "road_type").
  - reflexivity.
  - reflexivity.
  - apply (bool_decide_unpack _). by vm_compute.
  - by vm_compute.
  - reflexivity.
Defined.

(** ** Preparing again *)

(** X15.  What a call of [prepareMatrices] leaves and returns depends on
    the table and the schema alone (and on its own arguments): an earlier
    call, with whatever scaler and seed, and whether it returned or threw,
    leaves no trace in the outcome of the next one. *)
Theorem prepare_forgets_earlier_calls (cb1 cb2 : Callbacks) (ty1 ty2 : string)
    (seed1 seed2 : Z) (st : state) :
  prepareMatrices cb2 ty2 seed2 (fst (prepareMatrices cb1 ty1 seed1 st))
  = prepareMatrices cb2 ty2 seed2 st.
Proof.
  destruct (schema st) as [sch|] eqn:Hsch.
  - destruct (raw st) as [rows|] eqn:Hraw.
    + rewrite (prepareMatrices_run cb1 _ _ _ _ _ Hsch Hraw). cbn [fst].
      by rewrite (prepareMatrices_run cb2 _ _ _ sch rows),
                 (prepareMatrices_run cb2 _ _ st sch rows).
    + rewrite (prepareMatrices_no_rows cb1 _ _ _ _ Hsch Hraw). cbn [fst].
      by rewrite (prepareMatrices_no_rows cb2 _ _ _ sch), (prepareMatrices_no_rows cb2 _ _ st sch).
  - rewrite (prepareMatrices_no_schema cb1 _ _ _ Hsch). cbn [fst].
    by rewrite (prepareMatrices_no_schema cb2 _ _ (set_encoders ∅ st)),
               (prepareMatrices_no_schema cb2 _ _ st).
Qed.

(** ** A constant column under min-max scaling *)

Lemma compare_self (v : number) : finite v → SFcompare v v = Some Eq.
Proof.
  destruct v as [s|s| |s m e]; try done. intros _. simpl.
  destruct s; by rewrite Z.compare_refl, ?Pos.compare_cont_refl.
Qed.

Lemma min2_self v : finite v → min2 v v = v.
Proof. intros Hv. unfold min2. rewrite (compare_self v Hv). by destruct v as [[]| | |]. Qed.

Lemma max2_self v : finite v → max2 v v = v.
Proof. intros Hv. unfold max2. rewrite (compare_self v Hv). by destruct v as [[]| | |]. Qed.

Lemma fold_constant (f : number → number → number) (init v : number) l :
  f init v = v → f v v = v → l ≠ [] → Forall (λ x, x = v) l →
  fold_left f l init = v.
Proof.
  intros Hinit Hself Hne Hl. destruct l as [|x l]; [done|].
  apply Forall_cons in Hl as [-> Hl]. cbn [fold_left]. rewrite Hinit.
  clear Hne. induction l as [|x l IH]; [done|].
  apply Forall_cons in Hl as [-> Hl]. cbn [fold_left]. rewrite Hself. by apply IH.
Qed.

Lemma sub_self v : finite v → sub v v = zero.
Proof.
  destruct v as [[]| | |s m e]; try done. intros _.
  unfold sub, SFsub. by rewrite Z.sub_diag.
Qed.

Lemma rescaled_constant (st : ColStats) v x :
  finite v → st_min st = v → st_max st = v →
  (finite x → x = v) →
  rescaled "minmax" st x = zero.
Proof.
  intros Hv Hmin Hmax Hx. unfold rescaled.
  destruct (Number_isFinite x) eqn:Hfin; [|done].
  rewrite (Hx Hfin). unfold scaleValue. cbn [String.eqb Ascii.eqb Bool.eqb].
  rewrite Hmin, Hmax, (sub_self v Hv). done.
Qed.

(** X16.  Under min-max scaling, a numeric or boolean column whose finite
    cells all hold one and the same value comes out as zeros in every row:
    the range is 0, the divisor falls back to 1, and the cells that are
    not finite become 0 as well.  A flag that is set in every row (or in
    none) therefore carries nothing after scaling. *)
Theorem constant_column_scales_to_zero (cb : Callbacks) (seed : Z) (st : state)
    (sch : Schema) (rows : list Row) (c : nat) (t : ftype) (v : number) :
  schema st = Some sch →
  raw st = Some rows →
  NoDup (JsObj.keys (features sch)) →
  columnKinds (features sch) !! c = Some t →
  scaledKind t →
  finite v →
  let X0 := encodeAll (fst (buildEncoders (features sch))) sch rows in
  (∀ i x, cell X0 i c = Some x → finite x → x = v) →
  ∃ Xm,
    X (fst (prepareMatrices cb "minmax" seed st)) = Some Xm ∧
    ∀ i, i < length rows → cell Xm i c = Some zero.
Proof.
  intros Hsch Hraw Hkeys Hkind Hscaled Hv X0 Hconst.
  rewrite (prepareMatrices_run _ _ _ _ _ _ Hsch Hraw). cbn [fst X preparedState].
  eexists. split; [done|]. intros i Hi.
  assert (Hc : c < totalWidth (features sch)).
  { rewrite <-columnKinds_length. by eapply lookup_lt_Some. }
  destruct (X0_cell_defined sch rows Hkeys i c Hi Hc) as (row0 & x & _ & _ & Hcell).
  fold X0 in Hcell.
  rewrite (Xs_cell sch rows "minmax" Hkeys i c x Hcell).
  rewrite decide_True by (apply (cols_spec sch Hkeys); by exists t).
  f_equal. fold X0.
  destruct (decide (finiteColumn X0 c = [])) as [Hnil|Hne].
  - unfold rescaled. destruct (Number_isFinite x) eqn:Hfin; [|done].
    pose proof (finiteColumn_elem X0 i c x Hcell Hfin) as Hin.
    rewrite Hnil in Hin. by apply elem_of_nil in Hin.
  - assert (Hall : Forall (λ y, y = v) (finiteColumn X0 c)).
    { apply Forall_forall. intros y (i' & Hy & Hfin)%finiteColumn_cells.
      by apply (Hconst i'). }
    apply (rescaled_constant _ v); [done| | |by apply (Hconst i)].
    + unfold fitColumn. cbn [st_min]. unfold Math_min.
      apply fold_constant; [by destruct v|by apply min2_self|done|done].
    + unfold fitColumn. cbn [st_max]. unfold Math_max.
      apply fold_constant; [by destruct v|by apply max2_self|done|done].
Qed.

Lemma constant_column_scales_to_zero_witness :
  ∃ Xm,
    X (fst (prepareMatrices quiet "minmax" 2025 flagLoaded)) = Some Xm ∧
    ∀ i, i < length flagRows → cell Xm i 0 = Some zero.
Proof.
  apply (constant_column_scales_to_zero quiet 2025 flagLoaded
           {| features := inferredFeatures flagRows; target := targetName |}
           flagRows 0 boolean zero).
  - by vm_compute.
  - reflexivity.
  - apply inferredFeatures_NoDup.
  - by vm_compute.
  - by right.
  - reflexivity.
  - intros [|[|i]] x; vm_compute; intros [= <-]; reflexivity || discriminate.
Defined.

(** ** Sampling *)

Lemma omap_lookup_seq {A : Type} (arr : list A) :
  omap (arr !!.) (seq 0 (length arr)) = arr.
Proof.
  induction arr as [|x arr IH] using rev_ind; [done|].
  rewrite length_app. cbn [length]. rewrite Nat.add_1_r, seq_S, omap_app. cbn.
  rewrite lookup_app_r by lia. rewrite Nat.sub_diag. cbn. f_equal.
  rewrite <-IH at 2. apply list_omap_ext.
  apply Forall2_same_length_lookup_2; [done|].
  intros i a b Ha Hb. assert (a = b) as -> by congruence.
  apply lookup_seq in Ha as [-> Hlt]. by rewrite lookup_app_l.
Qed.

Lemma sample_as_omap {A : Type} (arr : list A) (ns : list nat) :
  flat_map (fun i => match i with
                     | Some z => if (0 <=? z)%Z then option_list (arr !! Z.to_nat z)
                                 else []
                     | None => []
                     end) ((λ n, Some (Z.of_nat n)) <$> ns)
  = omap (arr !!.) ns.
Proof.
  induction ns as [|n ns IH]; [done|].
  cbn [fmap list_fmap flat_map]. fold (@fmap list _ _ _ (λ n, Some (Z.of_nat n)) ns).
  rewrite IH. rewrite (proj2 (Z.leb_le _ _)) by lia. rewrite Nat2Z.id.
  cbn [omap list_omap]. by destruct (arr !! n).
Qed.

(** X17.  A sample drawn by [#sampleArray] with a seed from 0 to below
    2^53 takes no element twice: together with what it leaves out it is a
    permutation of the array.  It has [n] elements, or all of them when
    the array has fewer, in which case it is a permutation of the array. *)
Theorem sample_without_repeats {A : Type} (arr : list A) (n seed : Z) :
  (0 ≤ seed < 2 ^ 53)%Z →
  (Z.of_nat (length arr) < 2 ^ 53)%Z →
  (0 ≤ n)%Z →
  (∃ rest, arr ≡ₚ sampleArray arr n seed ++ rest) ∧
  sampleArray arr n seed ⊆+ arr ∧
  Z.of_nat (length (sampleArray arr n seed)) = Z.min n (Z.of_nat (length arr)) ∧
  ((Z.of_nat (length arr) ≤ n)%Z → sampleArray arr n seed ≡ₚ arr).
Proof.
  intros [Hseed _] Hsize Hn.
  destruct (shuffled_range (length arr) seed Hseed Hsize) as [Hperm Hlen].
  apply Permutation_map_inv in Hperm as (l3 & Hidx & Hl3).
  assert (Hsample : sampleArray arr n seed
                    = omap (arr !!.) (take (Z.to_nat (Z.min n (Z.of_nat (length arr)))) l3)).
  { unfold sampleArray. rewrite slice_from_nonneg by lia. cbn zeta.
    rewrite (proj2 (Z.ltb_ge _ _)) by lia.
    rewrite Hlen, (Z.min_l 0), Z.sub_0_r by lia.
    change (Z.to_nat 0) with 0. rewrite drop_0.
    rewrite (Z.min_l (Z.min _ _)) by lia.
    rewrite Hidx. change (map ?f ?l) with (f <$> l).
    by rewrite <-fmap_take, sample_as_omap. }
  set (k := Z.to_nat (Z.min n (Z.of_nat (length arr)))) in *.
  assert (Hall : arr ≡ₚ omap (arr !!.) (take k l3) ++ omap (arr !!.) (drop k l3)).
  { rewrite <-omap_app, take_drop, <-Hl3. by rewrite omap_lookup_seq. }
  rewrite Hsample. split_and!.
  - by eexists.
  - rewrite Hall. apply submseteq_inserts_r. done.
  - rewrite <-Hsample, sampleArray_length by done. lia.
  - intros Hbig. rewrite take_ge.
    + rewrite <-Hl3. by rewrite omap_lookup_seq.
    + apply Permutation_length in Hl3. rewrite length_seq in Hl3. lia.
Qed.

Lemma sample_without_repeats_witness :
  (∃ rest, sampleRows ≡ₚ sampleArray sampleRows 1 2024 ++ rest) ∧
  sampleArray sampleRows 1 2024 ⊆+ sampleRows ∧
  Z.of_nat (length (sampleArray sampleRows 1 2024))
  = Z.min 1 (Z.of_nat (length sampleRows)) ∧
  ((Z.of_nat (length sampleRows) ≤ 1)%Z → sampleArray sampleRows 1 2024 ≡ₚ sampleRows).
Proof.
  apply (sample_without_repeats sampleRows 1 2024).
  - lia.
  - by vm_compute.
  - lia.
Defined.

(** ** The metrics of the evaluation *)

Section Metrics.
Local Open Scope Z_scope.
Import App.

Lemma ofZ_max_one n :
  0 ≤ n < 2 ^ 53 → ∃ m e, ofZ (Z.max 1 n) = S754_finite false m e.
Proof.
  intros Hn. destruct (ofZ_small (Z.max 1 n) ltac:(lia)) as (m & e & -> & _).
  by eexists _, _.
Qed.

Lemma sqrt_nonneg a : nonneg a → nonneg (Math_sqrt a).
Proof.
  unfold Math_sqrt, SFsqrt. destruct a as [s|s| |s m e]; try done.
  { by destruct s. }
  destruct s; [done|]. intros _.
  unfold SFsqrt_core_binary.
  set (d := Zdigits2 (Z.pos m)). set (e' := Z.min _ _).
  set (s := e - 2 * e').
  set (m' := match s with Z.pos _ => Z.shiftl (Z.pos m) s | 0 => Z.pos m | Z.neg _ => 0 end).
  assert (Hm' : 0 ≤ m').
  { unfold m'. destruct s; [lia| |lia]. apply Z.shiftl_nonneg. lia. }
  pose proof (Z.sqrtrem_spec m' Hm') as Hs.
  destruct (Z.sqrtrem m') as [q r].
  set (l := if r =? 0 then _ else _).
  pose proof (bra_regular false q e' l ltac:(lia)) as H.
  destruct (binary_round_aux _ _ _ _ _ _); try done; by subst.
Qed.

Lemma abs_nonneg e : notNaN e → nonneg (Math_abs e).
Proof. by destruct e. Qed.

Lemma nonneg_notNaN a : nonneg a → notNaN a.
Proof. by destruct a. Qed.

Lemma div_zero_positive s :
  nonneg s → div zero (Math_max [one; s]) = zero.
Proof.
  unfold Math_max. cbn [fold_left].
  change (max2 (S754_infinity true) one) with one.
  unfold max2. destruct s as [[]|[]| |[] m e]; intros Hs; try done.
  assert (∃ c, SFcompare one (S754_finite false m e) = Some c) as [c ->]
    by (unfold one; simpl; eauto).
  by destruct c.
Qed.

Lemma div_eucl_exact (m : positive) k :
  0 ≤ k → Z.div_eucl (Z.pos m * k) (Z.pos m) = (k, 0).
Proof.
  intros Hk.
  pose proof (Z.div_eucl_eq (Z.pos m * k) (Z.pos m) ltac:(lia)) as Heq.
  pose proof (Z.mod_pos_bound (Z.pos m * k) (Z.pos m) ltac:(lia)) as Hr.
  unfold Z.modulo in Hr.
  destruct (Z.div_eucl (Z.pos m * k) (Z.pos m)) as [q r].
  assert (q = k) by nia. subst q. f_equal. lia.
Qed.

(** A number of rows divided by itself. *)
Lemma div_self n : 0 < n < 2 ^ 53 → div (ofZ n) (ofZ n) = one.
Proof.
  intros Hn. destruct (ofZ_small n Hn) as (m & e & -> & He & _ & Hm).
  unfold div, SFdiv, SFdiv_core_binary. cbn [xorb Zdigits2].
  rewrite (digits_53 m Hm), fexp_value.
  replace (Z.min (Z.max (53 + e - (53 + e) - 53) (-1074)) (e - e)) with (-53) by lia.
  replace (e - e - -53) with 53 by lia.
  rewrite Z.shiftl_mul_pow2 by lia.
  rewrite (div_eucl_exact m (2 ^ 53)) by lia.
  assert (Hloc : new_location (Z.pos m) 0 = loc_Exact).
  { unfold new_location. by destruct (Z.even (Z.pos m)). }
  rewrite Hloc. by vm_compute.
Qed.

Section Turns.
Variables (yPred : list number) (mode : string) (thr mean : number).
Hypothesis Hmean : notNaN mean.

(** The loop over predictions that are the targets themselves. *)
Lemma turns_perfect (l : list (nat * number)) (a : Sums) :
  (∀ i t, (i, t) ∈ l → yPred !! i = Some t ∧ finite t) →
  sse a = zero → sae a = zero → nonneg (sst a) →
  let a' := fold_left (turn yPred mode thr mean) l a in
  sse a' = zero ∧ sae a' = zero ∧ nonneg (sst a') ∧
  s_resid a' = s_resid a ++ replicate (length l) zero ∧
  correct a' = (if String.eqb mode "bin" then correct a + length l else correct a)%nat.
Proof using Hmean.
  revert a. induction l as [|[i t] l IH]; intros a Hl Hsse Hsae Hsst.
  { cbn. rewrite app_nil_r. split_and!; try done. destruct (String.eqb _ _); lia. }
  destruct (Hl i t ltac:(by left)) as [Hp Ht].
  cbn [fold_left].
  set (a1 := turn yPred mode thr mean a (i, t)).
  assert (He : sub (default NaN (yPred !! i)) t = zero).
  { rewrite Hp. cbn [default from_option id]. by apply sub_self. }
  destruct (IH a1) as (H1 & H2 & H3 & H4 & H5).
  - intros i' t' Hin. apply Hl. by right.
  - unfold a1, turn. cbn [sse]. by rewrite He, Hsse.
  - unfold a1, turn. cbn [sae]. by rewrite He, Hsae.
  - unfold a1, turn. cbn [sst]. apply add_nonneg; [done|].
    apply square_nonneg, sub_notNaN; done.
  - split_and!; try done.
    + rewrite H4. unfold a1, turn. cbn [s_resid]. rewrite He.
      by rewrite <-app_assoc.
    + rewrite H5. unfold a1, turn. cbn [correct]. rewrite Hp.
      cbn [default from_option id].
      destruct (String.eqb mode "bin"); [|done].
      rewrite eqb_reflx. cbn [length]. lia.
Qed.

(** The loop over finite targets and predictions. *)
Lemma turns_regular (l : list (nat * number)) (a : Sums) :
  (∀ i t, (i, t) ∈ l → finite t ∧ ∃ p, yPred !! i = Some p ∧ finite p) →
  nonneg (sse a) → nonneg (sae a) →
  let a' := fold_left (turn yPred mode thr mean) l a in
  nonneg (sse a') ∧ nonneg (sae a').
Proof.
  revert a. induction l as [|[i t] l IH]; intros a Hl Hsse Hsae; [done|].
  destruct (Hl i t ltac:(by left)) as (Ht & p & Hp & Hfp).
  cbn [fold_left]. apply IH.
  - intros i' t' Hin. apply Hl. by right.
  - unfold turn. cbn [sse]. rewrite Hp. cbn [default from_option id].
    apply add_nonneg; [done|]. apply square_nonneg, sub_notNaN; [done|].
    by apply finite_notNaN.
  - unfold turn. cbn [sae]. rewrite Hp. cbn [default from_option id].
    apply add_nonneg; [done|]. apply abs_nonneg, sub_notNaN; [done|].
    by apply finite_notNaN.
Qed.

Lemma turns_resid (l : list (nat * number)) (a : Sums) :
  s_resid (fold_left (turn yPred mode thr mean) l a)
  = s_resid a ++ map (fun '(i, t) => sub (default NaN (yPred !! i)) t) l.
Proof.
  revert a. induction l as [|[i t] l IH]; intros a; cbn [fold_left map].
  { by rewrite app_nil_r. }
  rewrite IH. unfold turn. cbn [s_resid]. by rewrite <-app_assoc.
Qed.

End Turns.

Lemma mean_notNaN ys :
  Forall finite ys → Z.of_nat (length ys) < 2 ^ 53 →
  notNaN (div (fold_left add ys zero) (ofZ (Z.max 1 (Z.of_nat (length ys))))).
Proof.
  intros Hfin Hlen.
  destruct (ofZ_max_one (Z.of_nat (length ys)) ltac:(lia)) as (m & e & ->).
  apply div_regular, sum_notNaN; done.
Qed.

(** X18.  [computeMetrics] on predictions that equal the targets, all
    finite: every residual is 0, RMSE and MAE are 0 and R² is 1, whatever
    the spread of the targets; in 'bin' mode the accuracy is 1, and 0 on
    an empty list (the count is then divided by 1).  In another mode the
    accuracy is [null]. *)
Theorem perfect_predictions (ys : list number) (mode : string) (thr : number) :
  Forall finite ys →
  Z.of_nat (length ys) < 2 ^ 53 →
  let m := computeMetrics ys ys mode thr in
  rmse m = zero ∧ mae m = zero ∧ r2 m = one ∧
  resid m = replicate (length ys) zero ∧
  acc m = if String.eqb mode "bin"
          then Some (if decide (ys = []) then zero else one)
          else None.
Proof.
  intros Hfin Hlen m. unfold m, computeMetrics.
  set (n := Z.of_nat (length ys)).
  set (mean := div (fold_left add ys zero) (ofZ (Z.max 1 n))).
  assert (Hmean : notNaN mean) by (by apply mean_notNaN).
  set (a0 := {| s_resid := []; sse := zero; sae := zero; sst := zero; correct := 0 |}).
  destruct (turns_perfect ys mode thr mean Hmean
              (combine (seq 0 (length ys)) ys) a0)
    as (H1 & H2 & H3 & H4 & H5); try done.
  { intros i t Hin%elem_of_combine_seq. split; [done|].
    rewrite Forall_forall in Hfin. apply Hfin. by eapply list_elem_of_lookup_2. }
  set (a := fold_left _ _ a0) in *.
  cbn [rmse mae r2 acc resid]. rewrite H1, H2, H4, H5.
  assert (Hlc : length (combine (seq 0 (length ys)) ys) = length ys).
  { rewrite length_combine, length_seq. lia. }
  rewrite Hlc.
  destruct (ofZ_max_one n ltac:(lia)) as (mn & en & Hn).
  rewrite Hn. change (div zero (S754_finite false mn en)) with zero.
  rewrite (div_zero_positive _ H3).
  split_and!; try done.
  destruct (String.eqb mode "bin"); [|done]. f_equal. cbn [correct a0 Nat.add].
  rewrite <-Hn. fold n. destruct (decide (ys = [])) as [->|Hne]; [done|].
  assert (0 < n) by (unfold n; destruct ys; [done|cbn [length]; lia]).
  rewrite Z.max_r by lia. apply div_self. lia.
Qed.

Lemma perfect_predictions_witness :
  let ys := [Number "0.2"; Number "0.8"] in
  let m := computeMetrics ys ys "bin" (Number "0.5") in
  rmse m = zero ∧ mae m = zero ∧ r2 m = one ∧
  resid m = replicate (length ys) zero ∧
  acc m = if String.eqb "bin" "bin"
          then Some (if decide (ys = []) then zero else one)
          else None.
Proof.
  apply (perfect_predictions [Number "0.2"; Number "0.8"] "bin" (Number "0.5")).
  - by repeat constructor.
  - by vm_compute.
Defined.

(** X19.  [computeMetrics] on finite targets and finite predictions, one
    prediction at least per target: RMSE and MAE are numbers, never NaN,
    and never below zero.  There is one residual per target, the
    prediction minus the target (NaN where a prediction is missing). *)
Theorem error_measures (yTrue yPred : list number) (mode : string) (thr : number) :
  Forall finite yTrue →
  Forall finite yPred →
  (length yTrue ≤ length yPred)%nat →
  Z.of_nat (length yTrue) < 2 ^ 53 →
  let m := computeMetrics yTrue yPred mode thr in
  nonneg (rmse m) ∧ nonneg (mae m) ∧
  notNaN (rmse m) ∧ notNaN (mae m) ∧
  length (resid m) = length yTrue ∧
  ∀ i t, yTrue !! i = Some t →
         resid m !! i = Some (sub (default NaN (yPred !! i)) t).
Proof.
  intros HfT HfP Hlen Hsize m. unfold m, computeMetrics.
  set (n := Z.of_nat (length yTrue)).
  set (mean := div (fold_left add yTrue zero) (ofZ (Z.max 1 n))).
  set (a0 := {| s_resid := []; sse := zero; sae := zero; sst := zero; correct := 0 |}).
  destruct (turns_regular yPred mode thr mean
              (combine (seq 0 (length yTrue)) yTrue) a0) as [H1 H2]; try done.
  { intros i t Hin%elem_of_combine_seq. rewrite Forall_forall in HfT, HfP. split.
    - apply HfT. by eapply list_elem_of_lookup_2.
    - destruct (lookup_lt_is_Some_2 yPred i) as [p Hp].
      + apply lookup_lt_Some in Hin. lia.
      + exists p. split; [done|]. apply HfP. by eapply list_elem_of_lookup_2. }
  pose proof (turns_resid yPred mode thr mean
                (combine (seq 0 (length yTrue)) yTrue) a0) as Hres.
  set (a := fold_left _ _ a0) in *.
  cbn [rmse mae resid].
  destruct (ofZ_max_one n ltac:(lia)) as (mn & en & ->).
  assert (Hr : nonneg (Math_sqrt (div (sse a) (S754_finite false mn en))))
    by (by apply sqrt_nonneg, div_regular).
  assert (Hm : nonneg (div (sae a) (S754_finite false mn en)))
    by (by apply div_regular).
  split_and!; [done|done|by apply nonneg_notNaN|by apply nonneg_notNaN| |].
  - rewrite Hres. cbn [a0 s_resid app]. rewrite length_map, length_combine, length_seq. lia.
  - intros i t Ht. rewrite Hres. cbn [a0 s_resid app].
    change (map ?f ?l) with (f <$> l). rewrite list_lookup_fmap, combine_lookup, Ht.
    rewrite lookup_seq_lt by (by eapply lookup_lt_Some). done.
Qed.

Lemma error_measures_witness :
  let m := computeMetrics [Number "0.2"; Number "0.8"]
                          [Number "0.25"; Number "0.5"] "reg" (Number "0.5") in
  nonneg (rmse m) ∧ nonneg (mae m) ∧
  notNaN (rmse m) ∧ notNaN (mae m) ∧
  length (resid m) = length [Number "0.2"; Number "0.8"] ∧
  ∀ i t, [Number "0.2"; Number "0.8"] !! i = Some t →
         resid m !! i
         = Some (sub (default NaN ([Number "0.25"; Number "0.5"] !! i)) t).
Proof.
  apply (error_measures [Number "0.2"; Number "0.8"]
                        [Number "0.25"; Number "0.5"] "reg" (Number "0.5")).
  - by repeat constructor.
  - by repeat constructor.
  - cbn [length]. lia.
  - by vm_compute.
Defined.

End Metrics.

(** ** What the parser leaves in a cell *)

Lemma string_app_cons x (a b : string) : String x a +:+ b = String x (a +:+ b).
Proof. done. Qed.

Lemma string_app_nil_l (b : string) : "" +:+ b = b.
Proof. done. Qed.

Lemma string_app_assoc (a b c : string) : (a +:+ b) +:+ c = a +:+ (b +:+ c).
Proof. induction a as [|x a IH]; [done|]. by rewrite !string_app_cons, IH. Qed.

(** One step of [trimStart]: the text starts with no white space and is
    left as it is, or it starts with a white space character, of one, two
    or three bytes, which is dropped whatever follows it. *)
Lemma trimStart_step s :
  trimStart s = s
  ∨ ∃ p r, s = p +:+ r ∧
           ∀ b, trimStart (p +:+ b) = trimStart b
                ∧ String.length b < String.length (p +:+ b).
Proof.
  destruct s as [|c s1]; [by left|]. cbn [trimStart].
  destruct (is_ws c) eqn:Hc.
  { right. exists (String c ""), s1. split; [done|]. intros b.
    rewrite !string_app_cons, string_app_nil_l. cbn. rewrite Hc. split; [done|lia]. }
  destruct s1 as [|d s2]; [by left|].
  destruct (is_ws2 c d) eqn:Hd.
  { right. exists (String c (String d "")), s2. split; [done|]. intros b.
    rewrite !string_app_cons, string_app_nil_l. cbn. rewrite Hc, Hd. split; [done|lia]. }
  destruct s2 as [|e s3]; [by left|].
  destruct (is_ws3 c d e) eqn:He; [|by left].
  right. exists (String c (String d (String e ""))), s3. split; [done|]. intros b.
  rewrite !string_app_cons, string_app_nil_l. cbn. rewrite Hc, Hd, He. split; [done|lia].
Qed.

Lemma trimStart_length_bounded n s :
  String.length s ≤ n → String.length (trimStart s) ≤ String.length s.
Proof.
  revert s. induction n as [|n IH]; intros s Hn.
  { destruct s; [done|]. cbn in Hn. lia. }
  destruct (trimStart_step s) as [->|(p & r & -> & Hp)]; [done|].
  destruct (Hp r) as [-> Hlen]. etrans; [apply IH; lia|lia].
Qed.

Lemma trimStart_length s : String.length (trimStart s) ≤ String.length s.
Proof. by apply (trimStart_length_bounded (String.length s)). Qed.

Lemma trimStart_idem_bounded n s :
  String.length s ≤ n → trimStart (trimStart s) = trimStart s.
Proof.
  revert s. induction n as [|n IH]; intros s Hn.
  { destruct s; [done|]. cbn in Hn. lia. }
  destruct (trimStart_step s) as [E|(p & r & -> & Hp)]; [by rewrite !E|].
  destruct (Hp r) as [-> Hlen]. apply IH. lia.
Qed.

Lemma trimStart_idem s : trimStart (trimStart s) = trimStart s.
Proof. by apply (trimStart_idem_bounded (String.length s)). Qed.

(** White space throughout, then anything: [trimStart] drops the white
    space. *)
Lemma trimStart_all_ws_bounded n a b :
  String.length a ≤ n → all_ws a = true → trimStart (a +:+ b) = trimStart b.
Proof.
  revert a. induction n as [|n IH]; intros a Hn Ha.
  { destruct a; [done|]. cbn in Hn. lia. }
  unfold all_ws in Ha.
  destruct (trimStart_step a) as [E|(p & r & -> & Hp)].
  { rewrite E in Ha. by destruct a. }
  destruct (Hp r) as [E Hlen]. rewrite E in Ha.
  rewrite string_app_assoc. destruct (Hp (r +:+ b)) as [-> _].
  apply IH; [lia|]. unfold all_ws. by destruct (trimStart r).
Qed.

Lemma trimStart_all_ws a b : all_ws a = true → trimStart (a +:+ b) = trimStart b.
Proof. by apply (trimStart_all_ws_bounded (String.length a)). Qed.

(** A text that starts with no white space has no prefix that does. *)
Lemma trimStart_prefix a b : trimStart (a +:+ b) = a +:+ b → trimStart a = a.
Proof.
  intros H. destruct (trimStart_step a) as [E|(p & r & -> & Hp)]; [done|].
  rewrite string_app_assoc in H. destruct (Hp (r +:+ b)) as [E Hlen].
  rewrite E in H. pose proof (trimStart_length (r +:+ b)) as Hle.
  rewrite H in Hle. lia.
Qed.

Lemma trimEnd_cons c s :
  trimEnd (String c s)
  = if all_ws (String c s) then EmptyString else String c (trimEnd s).
Proof. done. Qed.

(** What [trimEnd] cuts off is white space throughout. *)
Lemma trimEnd_split s : ∃ w, s = trimEnd s +:+ w ∧ all_ws w = true.
Proof.
  induction s as [|c s (w & Hs & Hw)]; [by exists ""%string|].
  rewrite trimEnd_cons. destruct (all_ws (String c s)) eqn:E.
  - by exists (String c s).
  - exists w. split; [|done]. by rewrite string_app_cons, <-Hs.
Qed.

Lemma trimEnd_idem s : trimEnd (trimEnd s) = trimEnd s.
Proof.
  induction s as [|c s IH]; [done|].
  rewrite trimEnd_cons. destruct (all_ws (String c s)) eqn:E; [done|].
  rewrite trimEnd_cons, IH.
  destruct (all_ws (String c (trimEnd s))) eqn:E'; [|done].
  destruct (trimEnd_split s) as (w & Hs & Hw).
  assert (Hall : all_ws (String c s) = true); [|congruence].
  unfold all_ws. rewrite Hs at 1.
  change (String c (trimEnd s +:+ w)) with (String c (trimEnd s) +:+ w).
  rewrite (trimStart_all_ws _ _ E'). unfold all_ws in Hw. by destruct (trimStart w).
Qed.

Lemma trim_idem s : trim (trim s) = trim s.
Proof.
  unfold trim. set (t := trimStart s).
  assert (Ht : trimStart t = t) by apply trimStart_idem.
  destruct (trimEnd_split t) as (w & Hsplit & _).
  rewrite Hsplit in Ht at 1. rewrite Hsplit in Ht at 2.
  apply trimStart_prefix in Ht. rewrite Ht. apply trimEnd_idem.
Qed.

(** A text of white space alone, whatever the width of its characters,
    trims to the empty text; white space inside a text stays. *)
Example trim_of_wide_spaces :
  let nbsp := String (ascii_of_nat 194) (String (ascii_of_nat 160) "") in
  let bom := String (ascii_of_nat 239) (String (ascii_of_nat 187)
                                            (String (ascii_of_nat 191) "")) in
  let ls := String (ascii_of_nat 226) (String (ascii_of_nat 128)
                                           (String (ascii_of_nat 168) "")) in
  trim (bom +:+ nbsp +:+ " a" +:+ nbsp +:+ "b " +:+ ls +:+ nbsp) = "a" +:+ nbsp +:+ "b"
  ∧ trim (nbsp +:+ ls) = ""%string
  ∧ parseCSV ("accident_risk" +:+ String LF nbsp) = [].
Proof. by vm_compute. Qed.

Lemma cellAt_trimmed line j : trim (cellAt (cellsOf line) j) = cellAt (cellsOf line) j.
Proof.
  unfold cellAt, cellsOf. change (map ?f ?l) with (f <$> l).
  rewrite list_lookup_fmap. destruct (JsStr.split "," line !! j); [|done].
  apply trim_idem.
Qed.

Lemma parseLine_cells hs line k v :
  JsObj.get k (parseLine hs line) = Some v → trim v = v.
Proof.
  induction hs as [|h hs IH] using rev_ind; [done|].
  rewrite parseLine_snoc. destruct (decide (k = h)) as [->|Hne].
  - destruct (decide (h = "__proto__"%string)) as [->|Hp].
    + by rewrite assign_proto.
    + rewrite get_assign_eq by done. intros [= <-]. apply cellAt_trimmed.
  - by rewrite get_assign_ne.
Qed.

(** X20.  The rows [#parseCSV] returns all list the same columns in the
    same order, so the first row stands for all of them when the schema
    is inferred; each column name and each cell is stored trimmed: no
    white space or line terminator of ECMAScript, of whatever width in
    bytes, is left at either end. *)
Theorem parsed_rows_are_uniform (text : string) :
  (∀ r r', r ∈ parseCSV text → r' ∈ parseCSV text →
           JsObj.keys r = JsObj.keys r') ∧
  (∀ r k v, r ∈ parseCSV text → JsObj.get k r = Some v → trim v = v) ∧
  (∀ r k, r ∈ parseCSV text → k ∈ JsObj.keys r → trim k = k).
Proof.
  rewrite parseCSV_unfold. split_and!.
  - intros r r' (l & -> & _)%list_elem_of_fmap (l' & -> & _)%list_elem_of_fmap.
    apply parseLine_keys_same.
  - intros r k v (l & -> & _)%list_elem_of_fmap. apply parseLine_cells.
  - intros r k (l & -> & _)%list_elem_of_fmap [Hk _]%parseLine_keys.
    unfold headersOf in Hk. destruct (split_lines (trim text)) as [|hl ls]; [by apply elem_of_nil in Hk|].
    apply list_elem_of_fmap in Hk as (h & -> & _). apply trim_idem.
Qed.

(** ** A flag under min-max scaling *)

Lemma min2_flags l acc :
  Forall (λ x, x = zero ∨ x = one) l →
  acc = S754_infinity false ∨ acc = one ∨ acc = zero →
  acc = zero ∨ zero ∈ l →
  fold_left min2 l acc = zero.
Proof.
  revert acc. induction l as [|x l IH]; intros acc Hl Hacc Hzero.
  { destruct Hzero as [->|Hin]; [done|by apply elem_of_nil in Hin]. }
  apply Forall_cons in Hl as [Hx Hl]. cbn [fold_left].
  destruct Hx as [-> | ->].
  - apply IH; [done| |left]; destruct Hacc as [->|[->| ->]]; auto.
  - destruct Hacc as [->|[->| ->]].
    + apply IH; [done|right; by left|].
      destruct Hzero as [?|[?|?]%elem_of_cons]; [done|done|by right].
    + apply IH; [done|right; by left|].
      destruct Hzero as [?|[?|?]%elem_of_cons]; [done|done|by right].
    + apply IH; [done|right; by right|by left].
Qed.

Lemma max2_flags l acc :
  Forall (λ x, x = zero ∨ x = one) l →
  acc = S754_infinity true ∨ acc = zero ∨ acc = one →
  acc = one ∨ one ∈ l →
  fold_left max2 l acc = one.
Proof.
  revert acc. induction l as [|x l IH]; intros acc Hl Hacc Hone.
  { destruct Hone as [->|Hin]; [done|by apply elem_of_nil in Hin]. }
  apply Forall_cons in Hl as [Hx Hl]. cbn [fold_left].
  destruct Hx as [-> | ->].
  - destruct Hacc as [->|[->| ->]].
    + apply IH; [done|right; by left|].
      destruct Hone as [?|[?|?]%elem_of_cons]; [done|done|by right].
    + apply IH; [done|right; by left|].
      destruct Hone as [?|[?|?]%elem_of_cons]; [done|done|by right].
    + apply IH; [done|right; by right|by left].
  - apply IH; [done| |left]; destruct Hacc as [->|[->| ->]]; auto.
Qed.

(** X21.  A boolean feature under min-max scaling, when some row holds
    True in its column and some row does not: the column comes out as it
    was encoded, 1 for the rows whose cell is the text True and 0 for the
    others (the minimum is 0 and the range is 1). *)
Theorem flag_survives_minmax (cb : Callbacks) (seed : Z) (st : state)
    (sch : Schema) (rows : list Row)
    (before after : JsObj.obj Feature) (k : string) (f : Feature) :
  schema st = Some sch →
  raw st = Some rows →
  NoDup (JsObj.keys (features sch)) →
  features sch = before ++ (k, f) :: after →
  type f = boolean →
  (∃ r, r ∈ rows ∧ String_ (JsObj.get k r) = "True"%string) →
  (∃ r, r ∈ rows ∧ String_ (JsObj.get k r) ≠ "True"%string) →
  ∃ Xm,
    X (fst (prepareMatrices cb "minmax" seed st)) = Some Xm ∧
    ∀ i (r : Row), rows !! i = Some r →
      cell Xm i (totalWidth before)
      = Some (indicator (String.eqb (String_ (JsObj.get k r)) "True")).
Proof.
  intros Hsch Hraw Hkeys Hfeats Hty (r1 & Hr1 & Htrue) (r0 & Hr0 & Hfalse).
  rewrite (prepareMatrices_run _ _ _ _ _ _ Hsch Hraw). cbn [fst X preparedState].
  eexists. split; [done|].
  set (enc := fst (buildEncoders (features sch))).
  set (X0 := encodeAll enc sch rows).
  set (c0 := totalWidth before).
  pose proof (buildEncoders_agrees _ Hkeys) as Hagree. fold enc in Hagree.
  assert (Hcell : ∀ i (r : Row), rows !! i = Some r →
            cell X0 i c0
            = Some (indicator (String.eqb (String_ (JsObj.get k r)) "True"))).
  { intros i r Hr. unfold cell, X0, encodeAll. rewrite list_lookup_fmap, Hr.
    cbn [fmap option_fmap option_map mbind option_bind].
    rewrite Hfeats. unfold c0. rewrite <-(Nat.add_0_r (totalWidth before)).
    rewrite encodeRow_block.
    - unfold encodeFeature. by rewrite Hty.
    - by rewrite <-Hfeats.
    - unfold widthOfFeature. rewrite Hty. lia. }
  assert (Hkind : columnKinds (features sch) !! c0 = Some boolean).
  { rewrite Hfeats, <-Hty. unfold c0. rewrite <-(Nat.add_0_r (totalWidth before)).
    apply columnKinds_block. unfold widthOfFeature. rewrite Hty. lia. }
  assert (Hcol : Forall (λ x, x = zero ∨ x = one) (finiteColumn X0 c0)).
  { apply Forall_forall. intros x (i & Hx & _)%finiteColumn_cells.
    destruct (rows !! i) as [r|] eqn:Hr.
    - rewrite (Hcell i r Hr) in Hx. injection Hx as <-.
      destruct (String.eqb _ _); [by right|by left].
    - unfold cell, X0, encodeAll in Hx. by rewrite list_lookup_fmap, Hr in Hx. }
  assert (Hone : one ∈ finiteColumn X0 c0).
  { apply list_elem_of_lookup in Hr1 as [i Hi].
    apply (finiteColumn_elem X0 i c0); [|done].
    rewrite (Hcell i r1 Hi), Htrue. done. }
  assert (Hzero : zero ∈ finiteColumn X0 c0).
  { apply list_elem_of_lookup in Hr0 as [i Hi].
    apply (finiteColumn_elem X0 i c0); [|done].
    rewrite (Hcell i r0 Hi). by rewrite (proj2 (String.eqb_neq _ _) Hfalse). }
  assert (Hmin : st_min (fitColumn X0 c0) = zero).
  { unfold fitColumn. cbn [st_min]. apply min2_flags; [done|by left|by right]. }
  assert (Hmax : st_max (fitColumn X0 c0) = one).
  { unfold fitColumn. cbn [st_max]. apply max2_flags; [done|by left|by right]. }
  intros i r Hr. unfold X0, enc in *.
  rewrite (Xs_cell sch rows "minmax" Hkeys i c0 _ (Hcell i r Hr)).
  rewrite decide_True by (apply (cols_spec sch Hkeys); exists boolean; split; [done|by right]).
  f_equal. unfold rescaled, scaleValue. cbn [String.eqb Ascii.eqb Bool.eqb].
  rewrite Hmin, Hmax. by destruct (String.eqb _ _).
Qed.

Lemma flag_survives_minmax_witness :
  ∃ Xm,
    X (fst (prepareMatrices quiet "minmax" 1 holidayLoaded)) = Some Xm ∧
    ∀ i (r : Row), holidayRows !! i = Some r →
      cell Xm i (totalWidth [])
      = Some (indicator (String.eqb (String_ (JsObj.get "holiday" r)) "True")).
Proof.
  apply (flag_survives_minmax quiet 1 holidayLoaded
           {| features := inferredFeatures holidayRows; target := targetName |}
           holidayRows [] []
           "holiday" {| name := "holiday"; type := boolean; stats := None;
                        values := Some ["True"; "False"]%string |}).
  - by vm_compute.
  - reflexivity.
  - apply inferredFeatures_NoDup.
  - by vm_compute.
  - reflexivity.
  - eexists. split; [apply (list_elem_of_lookup_2 holidayRows 0); reflexivity|].
    reflexivity.
  - eexists. split; [apply (list_elem_of_lookup_2 holidayRows 1); reflexivity|].
    by vm_compute.
Defined.

(** ** From the text to the matrix *)

(** A load of the whole table that returns: what it has found and what
    it leaves. *)
Lemma loadCSV_returns cb text st st1 :
  loadCSV cb (Ok text) false 0 st = (st1, Ok tt) →
  targetName ∈ headersOf text ∧ parseCSV text ≠ [] ∧
  st1 = set_schema (Some {| features := inferredFeatures (parseCSV text);
                            target := targetName |})
                   (set_raw (Some (parseCSV text)) st).
Proof.
  unfold loadCSV, bind, call, read, update, ret.
  destruct (setStatus cb StatusLoading) as [[]|?]; [|done].
  destruct (log cb LogLoading) as [[]|?]; [|done].
  cbn [andb raw set_raw default from_option id].
  destruct (log cb (LogLoaded _)) as [[]|?]; [|done].
  destruct (parseCSV text) as [|r0 rest] eqn:Hrows.
  { by rewrite (inferSchema_fails cb _ []). }
  destruct (JsObj.has targetName r0) eqn:Hhas.
  - rewrite (inferSchema_run cb _ r0 rest) by done.
    destruct (log cb (LogSchema _ _)) as [[]|?]; [|done].
    destruct (setStatus cb StatusLoaded) as [[]|?]; [|done].
    intros [= <-]. split_and!; [|done|done].
    rewrite (has_parsed_row text) in Hhas; [by apply bool_decide_eq_true_1 in Hhas|done|].
    rewrite Hrows. by left.
  - by rewrite (inferSchema_fails cb _ (r0 :: rest)).
Qed.

(** X22.  The whole path on a text: a load of the whole table that
    returns, followed by a call of [prepareMatrices] that returns.  Then
    the header names the target and the text has at least one record
    line; the matrix stored has one row per record line, every row as
    wide as the list of names returned, and the target vector has one
    entry per record line. *)
Theorem load_then_prepare (cb : Callbacks) (text ty : string) (seed : Z)
    (st st1 st2 : state) (names : list string) :
  loadCSV cb (Ok text) false 0 st = (st1, Ok tt) →
  prepareMatrices cb ty seed st1 = (st2, Ok names) →
  targetName ∈ headersOf text ∧
  1 < lineCount text ∧
  ∃ Xm ym,
    X st2 = Some Xm ∧ y st2 = Some ym ∧
    length Xm = lineCount text - 1 ∧
    length ym = lineCount text - 1 ∧
    (∀ row, row ∈ Xm → length row = length names) ∧
    (∀ e, e ∈ ym → length e = 1).
Proof.
  intros (Htarget & Hne & ->)%loadCSV_returns Hprep.
  set (sch := {| features := inferredFeatures (parseCSV text); target := targetName |})
    in *.
  rewrite (prepareMatrices_run cb ty seed _ sch (parseCSV text)) in Hprep;
    [|done|done].
  destruct (log cb _) as [[]|?]; [|done]. injection Hprep as <- <-.
  assert (Hrows : length (parseCSV text) = lineCount text - 1).
  { by rewrite parseCSV_unfold, length_map, recordLines_length. }
  assert (Hkeys : NoDup (JsObj.keys (features sch))) by apply inferredFeatures_NoDup.
  split; [done|]. split.
  { rewrite <-length_zero_iff_nil in Hne. unfold lineCount in *. lia. }
  eexists _, _. split_and!.
  - done.
  - done.
  - by rewrite scaleAll_length, encodeAll_length.
  - unfold targets. by rewrite length_map.
  - intros row Hrow. rewrite buildEncoders_names_length.
    by apply (Xs_row_length sch (parseCSV text) ty Hkeys).
  - unfold targets. intros e (r & -> & _)%list_elem_of_fmap. done.
Qed.

Lemma load_then_prepare_witness :
  targetName ∈ headersOf sampleText ∧
  1 < lineCount sampleText ∧
  ∃ Xm ym,
    X (fst (prepareMatrices quiet "standard" 2025 loaded)) = Some Xm ∧
    y (fst (prepareMatrices quiet "standard" 2025 loaded)) = Some ym ∧
    length Xm = lineCount sampleText - 1 ∧
    length ym = lineCount sampleText - 1 ∧
    (∀ row, row ∈ Xm
            → length row = length (snd (buildEncoders (features sampleSchema)))) ∧
    (∀ e, e ∈ ym → length e = 1).
Proof.
  apply (load_then_prepare quiet sampleText "standard" 2025 init loaded
           (fst (prepareMatrices quiet "standard" 2025 loaded))
           (snd (buildEncoders (features sampleSchema)))).
  - reflexivity.
  - reflexivity.
Defined.

(** The path on the scenario: both calls return, and the names are those
    of the five columns. *)
Example scenario_path :
  snd (loadCSV quiet (Ok sampleText) false 0 init) = Ok tt ∧
  snd (prepareMatrices quiet "standard" 2025 loaded)
  = Ok ["road_type__urban"; "road_type__rural"; "num_lanes"; "curvature";
        "speed_limit"]%string.
Proof. by vm_compute. Qed.

(** ** The targets of a part *)

Lemma flatten1_targets sch (rs : list Row) :
  App.flatten1 (Some <$> targets sch rs)
  = Ok ((λ r, Some (Number_ (JsObj.get (target sch) r))) <$> rs).
Proof.
  unfold App.flatten1, targets. change (map ?f ?l) with (f <$> l).
  induction rs as [|r rs IH]; [done|].
  rewrite !fmap_cons. cbn [mapR]. by rewrite IH.
Qed.

(** X23.  On a prepared loader, the targets the page flattens out of a part
    are the numbers [Number] reads in the target cells of the rows of that
    part, in the order of the part: none is undefined, [flatten1] does not
    throw, and scaling has not touched them. *)
Theorem targets_of_a_part (cb : Callbacks) (ty part : string) (seed : Z)
    (st : state) (sch : Schema) (rows : list Row) :
  schema st = Some sch →
  raw st = Some rows →
  (0 ≤ seed < 2 ^ 53)%Z →
  (Z.of_nat (length rows) < 2 ^ 53)%Z →
  let st' := fst (prepareMatrices cb ty seed st) in
  ∃ (ns : list nat) (rs : list Row) te,
    partOf part (split st') = (λ n, Some (Z.of_nat n)) <$> ns ∧
    Forall2 (λ n r, rows !! n = Some r) ns rs ∧
    getTensors part st' = (st', Ok te) ∧
    App.flatten1 (t_y te)
    = Ok ((λ r, Some (Number_ (JsObj.get (target sch) r))) <$> rs).
Proof.
  intros Hsch Hraw [Hseed _] HN st'.
  destruct (prepared_parts cb ty seed st sch rows Hsch Hraw Hseed HN)
    as (Xm & ym & tr & va & te & HX & Hy & HlX & Hly & _ & _ & Hsp & Hperm & _).
  fold st' in HX, Hy, Hsp.
  assert (Hym : ym = targets sch rows).
  { unfold st' in Hy. rewrite (prepareMatrices_run _ _ _ _ _ _ Hsch Hraw) in Hy.
    cbn [fst y preparedState] in Hy. congruence. }
  assert (Hpart : ∃ ns, partOf part (split st') = (λ n, Some (Z.of_nat n)) <$> ns
                        ∧ ∀ n, n ∈ ns → n < length rows).
  { assert (Hin : ∀ n, n ∈ tr ++ va ++ te → n < length rows).
    { intros n Hn. rewrite Hperm in Hn. apply elem_of_seq in Hn. lia. }
    unfold partOf. rewrite Hsp. cbn [idxTrain idxVal idxTest].
    destruct (String.eqb part "train"); [|destruct (String.eqb part "val")];
      eexists; (split; [done|]); intros n Hn; apply Hin; rewrite !elem_of_app; auto. }
  destruct Hpart as (ns & Hns & Hin).
  assert (Hrs : ∃ rs : list Row, Forall2 (λ n r, rows !! n = Some r) ns rs).
  { clear Hns. induction ns as [|n ns IH]; [by exists []|].
    destruct IH as [rs Hrs]; [intros m Hm; apply Hin; by right|].
    destruct (lookup_lt_is_Some_2 rows n) as [r Hr]; [apply Hin; by left|].
    exists (r :: rs). by constructor. }
  destruct Hrs as [rs Hrs].
  exists ns, rs, {| t_X := (Xm !!.) <$> ns; t_y := (ym !!.) <$> ns |}.
  split_and!; [done|done|by apply getTensors_run|].
  cbn [t_y]. rewrite <-flatten1_targets. f_equal.
  rewrite Hym. clear -Hrs. unfold targets. change (map ?f ?l) with (f <$> l).
  induction Hrs as [|n r ns rs Hr _ IH]; [done|].
  rewrite !fmap_cons, IH. f_equal.
  rewrite list_lookup_fmap. unfold Row in Hr. by rewrite Hr.
Qed.

Lemma targets_of_a_part_witness :
  let st' := fst (prepareMatrices quiet "minmax" 1 loaded) in
  ∃ (ns : list nat) (rs : list Row) te,
    partOf "test" (split st') = (λ n, Some (Z.of_nat n)) <$> ns ∧
    Forall2 (λ n r, sampleRows !! n = Some r) ns rs ∧
    getTensors "test" st' = (st', Ok te) ∧
    App.flatten1 (t_y te)
    = Ok ((λ r, Some (Number_ (JsObj.get (target sampleSchema) r))) <$> rs).
Proof.
  apply (targets_of_a_part quiet "minmax" "test" 1 loaded sampleSchema sampleRows).
  - reflexivity.
  - reflexivity.
  - lia.
  - by vm_compute.
Defined.

(** ** The order of the keys of a parsed row *)

Lemma Set_of_snoc l x :
  Set_of (l ++ [x]) = if bool_decide (x ∈ Set_of l) then Set_of l else Set_of l ++ [x].
Proof. unfold Set_of. by rewrite fold_left_app. Qed.

Lemma insertIndex_keys {V : Type} (o : JsObj.obj V) n k v idxs others :
  JsObj.keys o = idxs ++ others →
  JsObj.arrayIndex k = Some n →
  Forall (λ a, is_Some (JsObj.arrayIndex a)) idxs →
  Forall (λ a, JsObj.arrayIndex a = None) others →
  StronglySorted (λ a b, (default 0 (JsObj.arrayIndex a)
                          ≤ default 0 (JsObj.arrayIndex b))%Z) idxs →
  ∃ idxs',
    JsObj.keys (JsObj.insertIndex n k v o) = idxs' ++ others ∧
    idxs' ≡ₚ k :: idxs ∧
    StronglySorted (λ a b, (default 0 (JsObj.arrayIndex a)
                            ≤ default 0 (JsObj.arrayIndex b))%Z) idxs'.
Proof.
  intros Hkeys Hk. revert o Hkeys.
  induction idxs as [|a idxs IH]; intros o Hkeys Hidx Hoth Hsorted.
  - exists [k]. split_and!; [|done|by repeat constructor].
    destruct o as [|[k' v'] o]; cbn in Hkeys.
    + by rewrite <-Hkeys.
    + destruct others as [|b others]; [done|]. injection Hkeys as -> Hkeys.
      apply Forall_cons in Hoth as [Hb _]. cbn. rewrite Hb. cbn.
      by rewrite Hkeys.
  - destruct o as [|[k' v'] o]; [done|]. cbn in Hkeys.
    injection Hkeys as -> Hkeys.
    apply Forall_cons in Hidx as [[na Ha] Hidx].
    apply StronglySorted_inv in Hsorted as [Hsorted Hall].
    cbn [JsObj.insertIndex]. rewrite Ha. destruct (na <? n)%Z eqn:Hlt.
    + destruct (IH o) as (idxs' & Hk' & Hperm & Hs'); try done.
      exists (a :: idxs'). split_and!.
      * cbn. by rewrite <-Hk'.
      * rewrite Hperm. apply Permutation_swap.
      * constructor; [done|]. rewrite Hperm. constructor; [|done].
        rewrite Ha, Hk. cbn. apply Z.ltb_lt in Hlt. lia.
    + exists (k :: a :: idxs). split_and!; [by cbn; rewrite Hkeys|done|].
      apply Z.ltb_ge in Hlt. constructor; [by constructor|].
      constructor; [rewrite Ha, Hk; cbn; lia|].
      eapply Forall_impl; [exact Hall|]. intros b Hb. cbn in Hb.
      rewrite Ha in Hb. rewrite Hk. cbn in *. lia.
Qed.

(** X24.  The keys of a parsed row come in the order in which the engine
    lists the properties of an object: first the header names that are
    array indices, in ascending order of the index, then the other header
    names in the order of their first occurrence in the header,
    [__proto__] left out.  A column named 10 and one named 9 are thus met
    in the order 9, 10 wherever the loader goes through the features. *)
Theorem parsed_keys_order (text : string) (r : Row) :
  r ∈ parseCSV text →
  ∃ idxs others,
    JsObj.keys r = idxs ++ others ∧
    Forall (λ a, is_Some (JsObj.arrayIndex a)) idxs ∧
    StronglySorted (λ a b, (default 0 (JsObj.arrayIndex a)
                            ≤ default 0 (JsObj.arrayIndex b))%Z) idxs ∧
    (∀ a, a ∈ idxs ↔ a ∈ headersOf text ∧ is_Some (JsObj.arrayIndex a)) ∧
    others = Set_of (List.filter
                       (λ h, bool_decide (JsObj.arrayIndex h = None)
                             && negb (String.eqb h "__proto__"))
                       (headersOf text)).
Proof.
  rewrite parseCSV_unfold. intros (line & -> & _)%list_elem_of_fmap.
  induction (headersOf text) as [|h hs IH] using rev_ind.
  { exists [], []. split_and!; try done; [constructor|].
    intros a. split; [by intros ?%elem_of_nil|by intros [?%elem_of_nil _]]. }
  destruct IH as (idxs & others & Hkeys & Hidx & Hsorted & Hmem & Hoth).
  assert (Hnon : Forall (λ a, JsObj.arrayIndex a = None) others).
  { rewrite Hoth. apply Forall_forall. intros a Ha.
    apply (proj1 (elem_of_Set_of _ _)) in Ha.
    apply list_elem_of_In, filter_In in Ha as [_ Ha].
    apply andb_prop in Ha as [Ha _]. by apply bool_decide_eq_true in Ha. }
  rewrite parseLine_snoc, List.filter_app. cbn [List.filter].
  unfold JsObj.assign.
  destruct (String.eqb_spec h "__proto__") as [->|Hp].
  { exists idxs, others. rewrite andb_false_r, app_nil_r.
    split_and!; try done. intros a. rewrite Hmem, elem_of_app, list_elem_of_singleton.
    split; [tauto|]. intros [[?| ->] Hi]; [done|]. by destruct Hi. }
  destruct (JsObj.arrayIndex h) as [n|] eqn:Hn.
  - rewrite (bool_decide_false (Some n = None)) by done. cbn [andb].
    rewrite app_nil_r, has_keys.
    case_bool_decide as Hin.
    + exists idxs, others. split_and!; try done.
      * by rewrite keys_set, has_keys, bool_decide_true.
      * intros a. rewrite Hmem, elem_of_app, list_elem_of_singleton.
        split; [tauto|]. intros [[?| ->] Hi]; [done|]. apply Hmem.
        rewrite Hkeys, elem_of_app in Hin. destruct Hin as [Hin|Hin]; [done|].
        rewrite Forall_forall in Hnon. rewrite (Hnon _ Hin) in Hn. done.
    + destruct (insertIndex_keys (parseLine hs line) n h
                  (cellAt (cellsOf line) (length hs)) idxs others)
        as (idxs' & Hk' & Hperm & Hs'); try done.
      exists idxs', others. split_and!; try done.
      * rewrite Hperm. constructor; [by exists n|done].
      * intros a. rewrite Hperm, elem_of_cons, Hmem, elem_of_app,
          list_elem_of_singleton.
        split; [intros [-> |[? ?]]; [split; [tauto|by exists n]|tauto]|tauto].
  - rewrite bool_decide_true by done. cbn [andb negb].
    rewrite Set_of_snoc, <-Hoth, keys_set, has_keys.
    assert (Hiff : h ∈ JsObj.keys (parseLine hs line) ↔ h ∈ others).
    { rewrite Hkeys, elem_of_app. split; [|by right]. intros [Hin|Hin]; [|done].
      rewrite Forall_forall in Hidx. destruct (Hidx _ Hin) as [m Hm]. congruence. }
    assert (Hmem' : ∀ a, a ∈ idxs
                         ↔ a ∈ hs ++ [h] ∧ is_Some (JsObj.arrayIndex a)).
    { intros a. rewrite Hmem, elem_of_app, list_elem_of_singleton.
      split; [tauto|]. intros [[?| ->] Hi]; [done|]. rewrite Hn in Hi. by destruct Hi. }
    rewrite (bool_decide_ext _ _ Hiff). case_bool_decide.
    + by exists idxs, others.
    + exists idxs, (others ++ [h]). split_and!; try done.
      by rewrite Hkeys, app_assoc.
Qed.

Lemma parsed_keys_order_witness :
  ∃ idxs others,
    JsObj.keys [("9", "z"); ("10", "y"); ("b", "x"); ("accident_risk", "0.5")]%string
    = idxs ++ others ∧
    Forall (λ a, is_Some (JsObj.arrayIndex a)) idxs ∧
    StronglySorted (λ a b, (default 0 (JsObj.arrayIndex a)
                            ≤ default 0 (JsObj.arrayIndex b))%Z) idxs ∧
    (∀ a, a ∈ idxs ↔ a ∈ headersOf indexText ∧ is_Some (JsObj.arrayIndex a)) ∧
    others = Set_of (List.filter
                       (λ h, bool_decide (JsObj.arrayIndex h = None)
                             && negb (String.eqb h "__proto__"))
                       (headersOf indexText)).
Proof.
  apply (parsed_keys_order indexText
           [("9", "z"); ("10", "y"); ("b", "x"); ("accident_risk", "0.5")]%string).
  vm_compute. by left.
Defined.
